(** * Road-network routing engine of maubin-navigation (src/api/app.py)

    A shallow embedding of [RoadGraph] (graph build with coordinate
    snapping, nearest-node lookup, Dijkstra search, path reconstruction)
    and of the error paths of [plan_route].

    Modelling conventions.
    - A Python [dict] is an insertion-ordered association list with unique
      keys: [get_or_create_node] iterates [self.nodes] in insertion order,
      so the order is part of the behaviour.
    - Python floats used as metre values are exact rationals [Q];
      [float('inf')] is the extra constructor [Inf] of [dist].  Float
      addition rounds and is not associative: statements about costs
      speak of sums taken from the left, in the order in which the code
      adds, and compare them.
    - Floats used as coordinates are only parsed, compared for equality,
      hashed and handed to geopy; they are an abstract type [coord] with
      decidable equality.
    - geopy's [great_circle], the interpreter's [float()] and the iteration
      order of [set(...)] are the members of the class [PyEnv]. *)

From Stdlib Require Import List ZArith QArith String Ascii Bool Arith Lia Permutation.
Import ListNotations.
Local Open Scope string_scope.
Local Open Scope Q_scope.
Local Open Scope list_scope.

Set Implicit Arguments.

(** ** Decidable equality, as Python's [==] on hashable keys *)

Class EqDec (A : Type) := eq_dec : forall x y : A, {x = y} + {x <> y}.

#[export] Instance prod_EqDec {A B} `{EqDec A} `{EqDec B} : EqDec (A * B).
Proof. intros [a b] [a' b']. destruct (eq_dec a a'), (eq_dec b b'); [left|right..]; congruence. Defined.

#[export] Instance string_EqDec : EqDec string := string_dec.
#[export] Instance Z_EqDec : EqDec Z := Z.eq_dec.

Definition eqb {A} `{EqDec A} (x y : A) : bool := if eq_dec x y then true else false.

Definition mem {A} `{EqDec A} (x : A) (l : list A) : bool :=
  if in_dec eq_dec x l then true else false.

(** ** Python dictionaries *)

Section Dict.
Context {K V : Type} `{EqDec K}.

Definition dict := list (K * V).

(** [d.get(k)]: [None] for a missing key. *)
Fixpoint dict_get (d : dict) (k : K) : option V :=
  match d with
  | [] => None
  | (k', v) :: rest => if eq_dec k k' then Some v else dict_get rest k
  end.

(** [k in d] *)
Definition dict_mem (d : dict) (k : K) : bool :=
  match dict_get d k with Some _ => true | None => false end.

(** [d[k] = v]: an existing key keeps its position, a new key goes last. *)
Fixpoint dict_set (d : dict) (k : K) (v : V) : dict :=
  match d with
  | [] => [(k, v)]
  | (k', v') :: rest =>
      if eq_dec k k' then (k', v) :: rest else (k', v') :: dict_set rest k v
  end.

(** [d.keys()], in insertion order. *)
Definition dict_keys (d : dict) : list K := map fst d.

(** [d[k]] where the key is known to be present; [dflt] stands in for the
    [KeyError] that the call sites below cannot reach. *)
Definition getitem (dflt : V) (d : dict) (k : K) : V :=
  match dict_get d k with Some v => v | None => dflt end.

(** [{k: v for k in keys}] *)
Definition dict_fromkeys (keys : list K) (v : V) : dict :=
  fold_left (fun d k => dict_set d k v) keys [].
End Dict.

Arguments dict : clear implicits.

(** ** Python string methods used on the WKT text *)

(** [s.replace(old, new)] for a non-empty [old]: leftmost occurrences,
    not overlapping.  [skip] counts the characters of a match still to be
    dropped. *)
Fixpoint str_replace_from (old new s : string) (skip : nat) : string :=
  match s with
  | EmptyString => EmptyString
  | String c s' =>
      match skip with
      | S k => str_replace_from old new s' k
      | O =>
          if String.prefix old s
          then String.append new (str_replace_from old new s' (Nat.pred (String.length old)))
          else String c (str_replace_from old new s' 0)
      end
  end.

Definition str_replace (old new s : string) : string :=
  str_replace_from old new s 0.

(** [s.split(sep)] for a one-character separator. *)
Fixpoint split_on (sep : ascii) (s : string) : list string :=
  match s with
  | EmptyString => [EmptyString]
  | String c s' =>
      if Ascii.eqb c sep then EmptyString :: split_on sep s'
      else
        match split_on sep s' with
        | h :: t => String c h :: t
        | [] => [String c EmptyString]
        end
  end.

(** The ASCII characters that [str.split()] treats as white space. *)
Definition is_space (c : ascii) : bool :=
  let n := nat_of_ascii c in
  (Nat.leb 9 n && Nat.leb n 13) || (Nat.leb 28 n && Nat.leb n 32).

(** [s.split()]: split on runs of white space, no empty strings.  [cur] is
    the token being read. *)
Fixpoint split_ws (s : string) (cur : string) : list string :=
  match s with
  | EmptyString =>
      match cur with EmptyString => [] | _ => [cur] end
  | String c s' =>
      if is_space c
      then match cur with
           | EmptyString => split_ws s' EmptyString
           | _ => cur :: split_ws s' EmptyString
           end
      else split_ws s' (String.append cur (String c EmptyString))
  end.

(** ** Metre values *)

Definition Qltb (x y : Q) : bool :=
  match Qcompare x y with Lt => true | _ => false end.

(** A tentative distance: a float, or [float('inf')]. *)
Inductive dist : Type :=
| Fin (q : Q)
| Inf.

Definition dist_ltb (a b : dist) : bool :=
  match a, b with
  | Fin x, Fin y => Qltb x y
  | Fin _, Inf => true
  | Inf, _ => false
  end.

Definition is_inf (a : dist) : bool :=
  match a with Inf => true | Fin _ => false end.

Definition dist_add (a b : dist) : dist :=
  match a, b with
  | Fin x, Fin y => Fin (x + y)
  | _, _ => Inf
  end.

(** ** The environment: geopy, [float()] and set iteration *)

Class PyEnv := {
  coord : Type;
  coord_EqDec :: EqDec coord;
  (** [float(s)]; [None] is [ValueError]. *)
  py_float : string -> option coord;
  (** [great_circle(p, q).meters] on (latitude, longitude) pairs. *)
  great_circle_meters : coord * coord -> coord * coord -> Q;
  (** Iteration order of [set(keys)], a rearrangement of the keys. *)
  set_order : list (coord * coord) -> list (coord * coord);
  set_order_perm : forall l, Permutation (set_order l) l
}.

Section Model.
Context {env : PyEnv}.

(** A point or node: the tuple [(lon, lat)]. *)
Definition Point : Type := coord * coord.

(** [calculate_distance(point1, point2)] *)
Definition calculate_distance (point1 point2 : Point) : Q :=
  great_circle_meters (snd point1, fst point1) (snd point2, fst point2).

(** An entry of [self.edges]. *)
Record Edge := mkEdge {
  edge_id : string;
  edge_length : Q;
  edge_geometry : list Point
}.

(** [RoadGraph]: [self.nodes] maps a node to its adjacency list,
    [self.edges] maps an ordered node pair to its edge. *)
Record RoadGraph := mkGraph {
  nodes : dict Point (list Point);
  edges : dict (Point * Point) Edge
}.

Definition empty_graph : RoadGraph := mkGraph [] [].

(** A road row after its WKT text has been parsed. *)
Record RoadRecord := mkRoad {
  road_id : string;
  road_coords : list Point;
  length_m : option (list Q);
  is_oneway : bool
}.

(** *** Graph build *)

Definition SNAP_THRESHOLD_METERS : Q := 1.

(** [get_or_create_node(coord, node_map, threshold=1)]; [node_map] is
    given by its keys in iteration order. *)
Fixpoint get_or_create_node (c : Point) (node_map : list Point) : Point :=
  match node_map with
  | [] => c
  | existing :: rest =>
      if Qltb (calculate_distance c existing) SNAP_THRESHOLD_METERS
      then existing
      else get_or_create_node c rest
  end.

(** One round of the snapping loop (lines 885-889). *)
Definition snap_coord (st : dict Point (list Point) * list Point) (c : Point)
  : dict Point (list Point) * list Point :=
  let '(nds, snapped_coords) := st in
  let snapped := get_or_create_node c (dict_keys nds) in
  let nds' := if dict_mem nds snapped then nds else dict_set nds snapped [] in
  (nds', snapped_coords ++ [snapped]).

Definition snap_coords (nds : dict Point (list Point)) (coords_list : list Point)
  : dict Point (list Point) * list Point :=
  fold_left snap_coord coords_list (nds, []).

(** [segment_lengths[i] if segment_lengths and i < len(segment_lengths)
     else calculate_distance(start_node, end_node)] *)
Definition segment_length (segment_lengths : option (list Q)) (i : nat)
           (start_node end_node : Point) : Q :=
  match segment_lengths with
  | Some (x :: l) =>
      match nth_error (x :: l) i with
      | Some len => len
      | None => calculate_distance start_node end_node
      end
  | _ => calculate_distance start_node end_node
  end.

(** [self.nodes[u].append(v); self.edges[(u, v)] = {...}] *)
Definition add_edge (g : RoadGraph) (u v : Point) (rid : string) (len : Q) : RoadGraph :=
  mkGraph
    (match dict_get (nodes g) u with
     | Some adj => dict_set (nodes g) u (adj ++ [v])
     | None => nodes g
     end)
    (dict_set (edges g) (u, v) (mkEdge rid len [u; v])).

(** The edge loop (lines 891-910), [i] being the loop index. *)
Fixpoint link_segments (g : RoadGraph) (road : RoadRecord) (i : nat)
         (snapped_coords : list Point) : RoadGraph :=
  match snapped_coords with
  | start_node :: ((end_node :: _) as rest) =>
      let len := segment_length (length_m road) i start_node end_node in
      let g1 := add_edge g start_node end_node (road_id road) len in
      let g2 := if is_oneway road then g1
                else add_edge g1 end_node start_node (road_id road) len in
      link_segments g2 road (S i) rest
  | _ => g
  end.

(** The body of [for road in roads] once the coordinates are parsed. *)
Definition add_road (g : RoadGraph) (road : RoadRecord) : RoadGraph :=
  let '(nds, snapped_coords) := snap_coords (nodes g) (road_coords road) in
  link_segments (mkGraph nds (edges g)) road 0 snapped_coords.

(** [build_graph] over parsed road records. *)
Definition build_graph_from (roads : list RoadRecord) : RoadGraph :=
  fold_left add_road roads empty_graph.

(** *** Reading the rows of the [roads] table *)

(** A row of [SELECT id, ST_AsText(geom) AS wkt, length_m, is_oneway]. *)
Record Row := mkRow {
  row_id : string;
  row_wkt : string;
  row_length_m : option (list Q);
  row_is_oneway : bool
}.

(** [tuple(map(float, c.split()))]: [None] is the [ValueError] of the
    first token that [float] rejects. *)
Fixpoint map_float (tokens : list string) : option (list coord) :=
  match tokens with
  | [] => Some []
  | t :: rest =>
      match py_float t with
      | None => None
      | Some x =>
          match map_float rest with
          | None => None
          | Some xs => Some (x :: xs)
          end
      end
  end.

(** [[tuple(map(float, c.split())) for c in coords_str.split(',')]] *)
Fixpoint parse_groups (groups : list string) : option (list (list coord)) :=
  match groups with
  | [] => Some []
  | c :: rest =>
      match map_float (split_ws c EmptyString) with
      | None => None
      | Some t =>
          match parse_groups rest with
          | None => None
          | Some ts => Some (t :: ts)
          end
      end
  end.

(** Lines 881-882. *)
Definition parse_wkt (wkt : string) : option (list (list coord)) :=
  let coords_str :=
    str_replace ")" "" (str_replace "LINESTRING(" "" wkt) in
  parse_groups (split_on "," coords_str).

(** The tuples as [(lon, lat)] pairs.  A tuple of another length is
    outside this embedding, whose nodes are pairs. *)
Fixpoint as_points (tuples : list (list coord)) : option (list Point) :=
  match tuples with
  | [] => Some []
  | [lon; lat] :: rest =>
      match as_points rest with
      | Some ps => Some ((lon, lat) :: ps)
      | None => None
      end
  | _ => None
  end.

(** What a call of [build_graph] leaves behind.  The method has no
    [try]: an exception of the parsing line leaves the loop and the
    method, with [self.nodes] and [self.edges] as they were at that
    moment. *)
Inductive build_outcome : Type :=
| Built (g : RoadGraph)
| RaisedValueError (g : RoadGraph)
| NotPairs (g : RoadGraph).

(** [for road in roads: ...] *)
Fixpoint build_rows (g : RoadGraph) (rows : list Row) : build_outcome :=
  match rows with
  | [] => Built g
  | road :: rest =>
      match parse_wkt (row_wkt road) with
      | None => RaisedValueError g
      | Some tuples =>
          match as_points tuples with
          | None => NotPairs g
          | Some coords_list =>
              build_rows
                (add_road g (mkRoad (row_id road) coords_list
                                    (row_length_m road) (row_is_oneway road)))
                rest
          end
      end
  end.

(** [build_graph]: the graph is emptied, then every row is processed. *)
Definition build_graph (rows : list Row) : build_outcome :=
  build_rows empty_graph rows.

(** *** Nearest node *)

(** [find_nearest_node(point)] *)
Definition find_nearest_node (g : RoadGraph) (point : Point) : option Point :=
  let max_distance := Fin 500 in
  let '(nearest_node, min_distance) :=
    fold_left
      (fun (acc : option Point * dist) node =>
         let distance := Fin (calculate_distance point node) in
         if dist_ltb distance (snd acc) then (Some node, distance) else acc)
      (dict_keys (nodes g)) (None, Inf) in
  if dist_ltb max_distance min_distance then None else nearest_node.

(** *** Dijkstra search *)

(** The three mutable objects of the search loop. *)
Record search_state := mkSearch {
  distances : dict Point dist;
  previous_nodes : dict Point (option Point);
  unvisited : list Point
}.

(** [distances[node]] *)
Definition dist_of (st : search_state) (node : Point) : dist :=
  getitem Inf (distances st) node.

(** [previous_nodes.get(node)]: [None] for a missing key and for a
    stored [None]. *)
Definition prev_of (st : search_state) (node : Point) : option Point :=
  match dict_get (previous_nodes st) node with
  | Some p => p
  | None => None
  end.

(** [min(unvisited, key=lambda node: distances[node], default=None)]:
    the first element, in iteration order, of minimal key. *)
Definition min_by (key : Point -> dist) (l : list Point) : option Point :=
  match l with
  | [] => None
  | x :: rest =>
      Some (fold_left (fun best y => if dist_ltb (key y) (key best) then y else best)
                      rest x)
  end.

(** Lines 943-947. *)
Definition init_search (g : RoadGraph) (start_node : Point) : search_state :=
  let keys := dict_keys (nodes g) in
  mkSearch (dict_set (dict_fromkeys keys Inf) start_node (Fin 0))
           (dict_fromkeys keys None)
           (set_order keys).

(** The body of [for neighbor in self.nodes[current]] (lines 959-969). *)
Definition relax (g : RoadGraph) (current : Point) (st : search_state)
           (neighbor : Point) : search_state :=
  if negb (mem neighbor (unvisited st)) then st
  else
    match dict_get (edges g) (current, neighbor) with
    | Some edge =>
        let new_distance := dist_add (dist_of st current) (Fin (edge_length edge)) in
        if dist_ltb new_distance (dist_of st neighbor)
        then mkSearch (dict_set (distances st) neighbor new_distance)
                      (dict_set (previous_nodes st) neighbor (Some current))
                      (unvisited st)
        else st
    | None => st
    end.

(** [while unvisited: ...] (lines 949-969).  Every round that does not
    leave the loop removes a node from [unvisited]; [fuel] bounds the
    number of rounds.  Removing an element leaves the iteration order of
    the other elements of the set as it was. *)
Fixpoint dijkstra_loop (g : RoadGraph) (end_node : Point) (fuel : nat)
         (st : search_state) : search_state :=
  match fuel with
  | O => st
  | S fuel' =>
      match min_by (dist_of st) (unvisited st) with
      | None => st
      | Some current =>
          if is_inf (dist_of st current) then st
          else
            let st1 := mkSearch (distances st) (previous_nodes st)
                                (remove eq_dec current (unvisited st)) in
            if eqb current end_node then st1
            else dijkstra_loop g end_node fuel'
                   (fold_left (relax g current) (getitem [] (nodes g) current) st1)
      end
  end.

Definition dijkstra_search (g : RoadGraph) (start_node end_node : Point) : search_state :=
  let st := init_search g start_node in
  dijkstra_loop g end_node (List.length (unvisited st)) st.

(** [while current: path.insert(0, current); current =
    previous_nodes.get(current)] (lines 976-980).  A node is a pair and
    so is true; the loop ends at the first node without predecessor.
    [None] when [fuel] rounds did not reach it. *)
Fixpoint walk_back (st : search_state) (fuel : nat) (current : option Point)
         (path : list Point) : option (list Point) :=
  match current with
  | None => Some path
  | Some c =>
      match fuel with
      | O => None
      | S fuel' => walk_back st fuel' (prev_of st c) (c :: path)
      end
  end.

(** *** Path reconstruction *)

(** An entry of [road_segments]. *)
Record Segment := mkSegment {
  seg_road_id : string;
  seg_length : Q;
  seg_type : option string;
  seg_from : option Point;
  seg_to : option Point
}.

(** [for i in range(len(path) - 1)] (lines 1002-1022), on the pair of
    lists built so far. *)
Fixpoint path_segments (g : RoadGraph) (path : list Point)
         (acc : list Point * list Segment) : list Point * list Segment :=
  match path with
  | a :: ((b :: _) as rest) =>
      let '(line_coords, road_segments) := acc in
      match dict_get (edges g) (a, b) with
      | Some edge =>
          path_segments g rest
            (line_coords ++ [nth 1 (edge_geometry edge) b],
             road_segments ++ [mkSegment (edge_id edge) (edge_length edge) None None None])
      | None =>
          let segment_distance := calculate_distance a b in
          path_segments g rest
            (line_coords ++ [b],
             road_segments ++ [mkSegment "unknown_road" segment_distance
                                         (Some "unknown_segment") (Some a) (Some b)])
      end
  | _ => acc
  end.

(** The value returned by [dijkstra]: [(line_coords, total_distance,
    road_segments)], the first component being [None] on failure. *)
Definition route : Type := option (list Point) * dist * list Segment.

Definition no_route : route := (None, Fin 0, []).

(** Lines 982-1040. *)
Definition reconstruct (g : RoadGraph) (start end_ start_node end_node : Point)
           (path : list Point) (cost : dist) : route :=
  let line_coords := [start] in
  let start_to_first_node_distance := calculate_distance start start_node in
  let road_segments :=
    if negb (eqb start start_node) && Qltb 0 start_to_first_node_distance
    then [mkSegment "user_to_road" start_to_first_node_distance
                    (Some "user_segment") (Some start) (Some start_node)]
    else [] in
  let line_coords :=
    if negb (eqb start start_node) then line_coords ++ [start_node] else line_coords in
  let '(line_coords, road_segments) := path_segments g path (line_coords, road_segments) in
  let end_node_to_end_distance := calculate_distance end_node end_ in
  let road_segments :=
    if negb (eqb end_ end_node) && Qltb 0 end_node_to_end_distance
    then road_segments ++ [mkSegment "road_to_user" end_node_to_end_distance
                                     (Some "user_segment") (Some end_node) (Some end_)]
    else road_segments in
  let line_coords :=
    match rev line_coords with
    | [] => line_coords ++ [end_]
    | last :: _ => if eqb last end_ then line_coords else line_coords ++ [end_]
    end in
  let total_distance :=
    dist_add (dist_add (Fin start_to_first_node_distance) cost)
             (Fin end_node_to_end_distance) in
  (Some line_coords, total_distance, road_segments).

(** The search and the path loop of [dijkstra] (lines 943-980) for two
    resolved nodes: [Some None] is the early return for "no path",
    [Some (Some (path, distances[end_node]))] the node path and its cost.
    The outer [option] is [None] only if the path loop exceeds its bound,
    which [shortest_path_returns] rules out. *)
Definition shortest_path (g : RoadGraph) (start_node end_node : Point)
  : option (option (list Point * dist)) :=
  let st := dijkstra_search g start_node end_node in
  match prev_of st end_node with
  | None => Some None
  | Some _ =>
      match walk_back st (S (List.length (dict_keys (nodes g)))) (Some end_node) [] with
      | Some path => Some (Some (path, dist_of st end_node))
      | None => None
      end
  end.

(** [dijkstra(start, end)]. *)
Definition dijkstra (g : RoadGraph) (start end_ : Point) : option route :=
  match find_nearest_node g start, find_nearest_node g end_ with
  | Some start_node, Some end_node =>
      match shortest_path g start_node end_node with
      | None => None
      | Some None => Some no_route
      | Some (Some (path, cost)) =>
          Some (reconstruct g start end_ start_node end_node path cost)
      end
  | _, _ => Some no_route
  end.

(** *** The [/routes] handler, from [data = request.get_json()] on *)

(** A value of the JSON body, as far as [float()] tells values apart:
    absent or [null]; a float, or an int or boolean, that [float()]
    converts; an int beyond the range of a float; a string; an array; an
    object.  The body itself is a JSON object, so that [data.get] is
    defined. *)
Inductive jvalue : Type :=
| JNull
| JNumber (x : coord)
| JString (s : string)
| JBigInt
| JArray
| JObject.

Record route_request := mkRequest {
  start_lon : jvalue;
  start_lat : jvalue;
  end_lon : jvalue;
  end_lat : jvalue
}.

(** The exceptions that [float()] raises. *)
Inductive exception : Type :=
| ValueError
| TypeError
| OverflowError.

(** The handler's answers up to the annotation of a found route, which
    needs the database.  [Uncaught] is an exception that leaves the
    handler, which Flask answers with status 500. *)
Inductive response : Type :=
| Status400 (msg : string)
| Status404 (msg suggestion : string)
| RouteFound (path_coords : list Point) (total_distance : dist)
             (road_segments : list Segment)
| Uncaught (exc : exception).

Definition is_null (v : jvalue) : bool :=
  match v with JNull => true | _ => false end.

(** [float(v)]: the number, or the exception raised. *)
Definition float_result (v : jvalue) : coord + exception :=
  match v with
  | JNull => inr TypeError
  | JNumber x => inl x
  | JString s =>
      match py_float s with
      | Some x => inl x
      | None => inr ValueError
      end
  | JBigInt => inr OverflowError
  | JArray => inr TypeError
  | JObject => inr TypeError
  end.

(** [float(v)] where it converts. *)
Definition float_of (v : jvalue) : option coord :=
  match float_result v with
  | inl x => Some x
  | inr _ => None
  end.

Definition no_route_response : response :=
  Status404 "No valid route found between the points"
            "Try closer points or check road network data".

(** [except ValueError:] (lines 3055-3056): no other exception is
    caught. *)
Definition coordinates_failed (exc : exception) : response :=
  match exc with
  | ValueError => Status400 "Invalid coordinates"
  | _ => Uncaught exc
  end.

(** Lines 3043-3065; [None] as for [dijkstra].  The four calls of
    [float] run in the order of lines 3053-3054, and the first exception
    ends the [try] block. *)
Definition plan_route (g : RoadGraph) (data : route_request) : option response :=
  if is_null (start_lon data) || is_null (start_lat data)
     || is_null (end_lon data) || is_null (end_lat data)
  then Some (Status400 "Missing coordinates")
  else
    match float_result (start_lon data) with
    | inr exc => Some (coordinates_failed exc)
    | inl slon =>
    match float_result (start_lat data) with
    | inr exc => Some (coordinates_failed exc)
    | inl slat =>
    match float_result (end_lon data) with
    | inr exc => Some (coordinates_failed exc)
    | inl elon =>
    match float_result (end_lat data) with
    | inr exc => Some (coordinates_failed exc)
    | inl elat =>
        match dijkstra g (slon, slat) (elon, elat) with
        | None => None
        | Some (path_coords, total_distance, road_segments) =>
            match path_coords with
            | Some (p :: q :: rest) =>
                Some (RouteFound (p :: q :: rest) total_distance road_segments)
            | _ => Some no_route_response
            end
        end
    end
    end
    end
    end.

End Model.

(** ** A concrete environment for the examples

    Coordinates are integers counting micro-degrees, [float] reads a
    decimal literal with at most six fractional digits, a set iterates in
    key order, and the distance is measured along the grid lines at
    0.111195 m per micro-degree: the great-circle length of geopy's sphere
    (radius 6371.009 km) for two points on the equator or on one meridian. *)

Module Grid.

Definition digit_of (c : ascii) : option Z :=
  let n := nat_of_ascii c in
  if (Nat.leb 48 n && Nat.leb n 57)%bool then Some (Z.of_nat (n - 48)) else None.

(** Reads digits up to the end or a dot: the value, the number of digits
    read, and the text after the dot if there is one. *)
Fixpoint read_digits (s : string) (acc : Z) (count : nat)
  : option (Z * nat * option string) :=
  match s with
  | EmptyString => Some (acc, count, None)
  | String c s' =>
      if Ascii.eqb c "."%char then Some (acc, count, Some s')
      else
        match digit_of c with
        | Some d => read_digits s' (10 * acc + d)%Z (S count)
        | None => None
        end
  end.

Definition read_unsigned (s : string) : option Z :=
  match read_digits s 0%Z 0%nat with
  | Some (whole, n, None) =>
      if Nat.eqb n 0 then None else Some (whole * 1000000)%Z
  | Some (whole, n, Some frac) =>
      match read_digits frac 0%Z 0%nat with
      | Some (f, m, None) =>
          if (Nat.eqb (n + m) 0 || Nat.ltb 6 m)%bool then None
          else Some (whole * 1000000 + f * 10 ^ Z.of_nat (6 - m))%Z
      | _ => None
      end
  | None => None
  end.

Definition read_decimal (s : string) : option Z :=
  match s with
  | String "-"%char s' =>
      match read_unsigned s' with Some z => Some (- z)%Z | None => None end
  | _ => read_unsigned s
  end.

Definition grid_meters (p q : Z * Z) : Q :=
  inject_Z (Z.abs (fst p - fst q) + Z.abs (snd p - snd q)) * (111195 # 1000000).

Definition grid_env : PyEnv :=
  {| coord := Z;
     coord_EqDec := Z.eq_dec;
     py_float := read_decimal;
     great_circle_meters := grid_meters;
     set_order := fun l => l;
     set_order_perm := fun l => Permutation_refl l |}.

#[local] Existing Instance grid_env.

(** Three roads near the equator: a two-way road with three vertices,
    a one-way road leaving its last vertex with a stored length, and a
    two-way road one degree away. *)
Definition road1 : RoadRecord :=
  mkRoad "r1" [(0, 0); (1000, 0); (2000, 0)]%Z None false.
Definition road2 : RoadRecord :=
  mkRoad "r2" [(2000, 0); (2000, 1000)]%Z (Some [50]) true.
Definition road3 : RoadRecord :=
  mkRoad "r3" [(1000000, 1000000); (1000000, 1001000)]%Z None false.

Definition town : RoadGraph := build_graph_from [road1; road2; road3].

(** The same roads as rows of the table, and a row without geometry as
    [ST_AsText] prints it. *)
Definition row1 : Row := mkRow "r1" "LINESTRING(0 0,0.001 0,0.002 0)" None false.
Definition row2 : Row := mkRow "r2" "LINESTRING(0.002 0,0.002 0.001)" (Some [50]) true.
Definition row3 : Row := mkRow "r3" "LINESTRING(1 1,1 1.001)" None false.
Definition row_empty : Row := mkRow "r0" "LINESTRING EMPTY" None false.

(** Nodes about 1.45 m apart and a coordinate between them, 0.89 m from
    the first and 0.56 m from the second. *)
Definition node_a : Point := (0, 0)%Z.
Definition node_b : Point := (13, 0)%Z.
Definition between_ab : Point := (8, 0)%Z.

(** A road whose second vertex is 0.67 m from the first and from the
    third, the first and third being 1.33 m apart. *)
Definition road_close : RoadRecord :=
  mkRoad "r4" [(0, 0); (6, 0); (12, 0)]%Z None false.

(** A road stored with a negative segment length. *)
Definition road_negative : RoadRecord :=
  mkRoad "r5" [(0, 0); (1000, 0)]%Z (Some [-5]) true.

(** A one-way road over the first segment of [road1]. *)
Definition road_over : RoadRecord :=
  mkRoad "r6" [(0, 0); (1000, 0)]%Z (Some [7]) true.



End Grid.

(** ** Vocabulary of the statements *)

Section Vocabulary.
Context {env : PyEnv}.

(** [c] is strictly inside the snapping threshold of [e]. *)
Definition within (c e : Point) : Prop :=
  calculate_distance c e < SNAP_THRESHOLD_METERS.

(** Adjacency list of a node, empty for a node that is not registered. *)
Definition adjacency (nds : dict Point (list Point)) (u : Point) : list Point :=
  getitem [] nds u.

(** One execution of [self.nodes[u].append(v); self.edges[(u, v)] = e]. *)
Definition write : Type := Point * Point * Edge.

Definition write_key (w : write) : Point * Point := fst w.

Definition apply_write (g : RoadGraph) (w : write) : RoadGraph :=
  let '(u, v, e) := w in
  mkGraph
    (match dict_get (nodes g) u with
     | Some adj => dict_set (nodes g) u (adj ++ [v])
     | None => nodes g
     end)
    (dict_set (edges g) (u, v) e).

(** The writes of the edge loop of one road, in execution order. *)
Fixpoint road_writes (road : RoadRecord) (i : nat) (snapped_coords : list Point)
  : list write :=
  match snapped_coords with
  | start_node :: ((end_node :: _) as rest) =>
      let len := segment_length (length_m road) i start_node end_node in
      ((start_node, end_node, mkEdge (road_id road) len [start_node; end_node])
         :: (if is_oneway road then []
             else [(end_node, start_node,
                    mkEdge (road_id road) len [end_node; start_node])]))
        ++ road_writes road (S i) rest
  | _ => []
  end.

(** The snapped coordinate sequence of [road] when it is processed on
    top of [g]. *)
Definition snapped_of (g : RoadGraph) (road : RoadRecord) : list Point :=
  snd (snap_coords (nodes g) (road_coords road)).

(** All writes of a build that starts from [g], in execution order. *)
Fixpoint build_writes (g : RoadGraph) (roads : list RoadRecord) : list write :=
  match roads with
  | [] => []
  | road :: rest =>
      road_writes road 0 (snapped_of g road) ++ build_writes (add_road g road) rest
  end.

(** The edge of the last write to [key], if any. *)
Fixpoint last_write (key : Point * Point) (ws : list write) : option Edge :=
  match ws with
  | [] => None
  | w :: rest =>
      match last_write key rest with
      | Some e => Some e
      | None => if eq_dec (write_key w) key then Some (snd w) else None
      end
  end.

(** Number of writes to [key]. *)
Definition count_writes (key : Point * Point) (ws : list write) : nat :=
  List.length (filter (fun w => eqb (write_key w) key) ws).

(** Each node is at least the threshold away from every node registered
    before it. *)
Definition separated (keys : list Point) : Prop :=
  ForallOrdPairs (fun earlier later => ~ within later earlier) keys.

(** The lengths of the edges joining the consecutive nodes of [path];
    [None] if some consecutive pair is not an edge. *)
Fixpoint path_lengths (g : RoadGraph) (path : list Point) : option (list Q) :=
  match path with
  | a :: ((b :: _) as rest) =>
      match dict_get (edges g) (a, b), path_lengths g rest with
      | Some e, Some ls => Some (edge_length e :: ls)
      | _, _ => None
      end
  | _ => Some []
  end.

(** [sum] with float addition read as exact addition: the left fold
    from 0, the order in which the search accumulates a cost. *)
Definition Qsum (ls : list Q) : Q := fold_left Qplus ls 0.

(** [path] leads from [start_node] to a node along predecessor links. *)
Inductive tree_path (st : search_state) (start_node : Point)
  : Point -> list Point -> Prop :=
| tree_root : tree_path st start_node start_node [start_node]
| tree_step n p path :
    prev_of st n = Some p ->
    tree_path st start_node p path ->
    tree_path st start_node n (path ++ [n]).

(** What every round of the search loop preserves. *)
Record search_inv (g : RoadGraph) (start_node : Point) (st : search_state) : Prop := {
  inv_start_prev : prev_of st start_node = None;
  inv_start_dist : dist_of st start_node = Fin 0;
  inv_prev : forall n p, prev_of st n = Some p ->
      ~ In p (unvisited st)
      /\ dist_of st p <> Inf
      /\ exists e, dict_get (edges g) (p, n) = Some e
                   /\ dist_of st n = dist_add (dist_of st p) (Fin (edge_length e));
  inv_reached : forall n, dist_of st n <> Inf ->
      n = start_node \/ exists p, prev_of st n = Some p;
  inv_first : In start_node (unvisited st) ->
      forall n, n <> start_node -> dist_of st n = Inf;
  inv_bound : (List.length (unvisited st) <= List.length (dict_keys (nodes g)))%nat;
  inv_tree : forall n, ~ In n (unvisited st) -> dist_of st n <> Inf ->
      exists path, tree_path st start_node n path
                   /\ Forall (fun x => ~ In x (unvisited st)) path
                   /\ (List.length path + List.length (unvisited st)
                       <= List.length (dict_keys (nodes g)))%nat
}.

(** The state after [unvisited.remove(current)]. *)
Definition popped (st : search_state) (current : Point) : search_state :=
  mkSearch (distances st) (previous_nodes st) (remove eq_dec current (unvisited st)).

(** The invariant together with what holds between the removal of
    [current] and the end of its round. *)
Definition round_inv (g : RoadGraph) (start_node current : Point)
           (st : search_state) : Prop :=
  search_inv g start_node st
  /\ ~ In start_node (unvisited st)
  /\ ~ In current (unvisited st)
  /\ dist_of st current <> Inf.

(** A row whose text parses into [(lon, lat)] pairs, as a road record. *)
Definition parse_row (row : Row) : option RoadRecord :=
  match parse_wkt (row_wkt row) with
  | Some tuples =>
      match as_points tuples with
      | Some coords_list =>
          Some (mkRoad (row_id row) coords_list (row_length_m row) (row_is_oneway row))
      | None => None
      end
  | None => None
  end.

(** Both ends of every edge are registered nodes. *)
Definition closed (g : RoadGraph) : Prop :=
  forall a b, In (a, b) (dict_keys (edges g)) ->
              In a (dict_keys (nodes g)) /\ In b (dict_keys (nodes g)).

End Vocabulary.

(** ** Further code around the graph *)

Section Extended.
Context {env : PyEnv}.

(** [compute_segment_lengths(coords)] (lines 461-467), the lengths stored
    with a road that is created or edited through the API. *)
Fixpoint compute_segment_lengths (coords : list Point) : list Q :=
  match coords with
  | a :: ((b :: _) as rest) => calculate_distance a b :: compute_segment_lengths rest
  | _ => []
  end.

(** A row of [SELECT name, address, ST_X(...) AS lon, ST_Y(...) AS lat
    FROM locations].  Name and address are JSON objects that the search
    below only carries along; they are kept as text. *)
Record Location := mkLocation {
  loc_name : string;
  loc_address : string;
  loc_lon : coord;
  loc_lat : coord
}.

(** [find_nearest_location(point, locations, max_dist=500)] of
    [plan_route] (lines 3137-3145); the state of the loop is
    [(min_dist, nearest)]. *)
Definition find_nearest_location (point : Point) (locations : list Location)
           (max_dist : Q) : option Location :=
  snd (fold_left
         (fun (acc : dist * option Location) loc =>
            let d := calculate_distance point (loc_lon loc, loc_lat loc) in
            if dist_ltb (Fin d) (fst acc) && Qle_bool d max_dist
            then (Fin d, Some loc) else acc)
         locations (Inf, None)).

End Extended.

(** ** Vocabulary of the further statements *)

Section Vocabulary2.
Context {env : PyEnv}.

(** [n] is the first element of [l] whose key is minimal among the
    elements of [l] that pass [ok]. *)
Definition first_least {A : Type} (key : A -> Q) (ok : A -> Prop) (l : list A) (n : A)
  : Prop :=
  ok n
  /\ exists pre post,
       l = pre ++ n :: post
       /\ (forall m, In m pre -> ok m -> key n < key m)
       /\ (forall m, In m post -> ok m -> key n <= key m).

(** Distance from a point to a location, the key of
    [find_nearest_location]. *)
Definition loc_distance (point : Point) (loc : Location) : Q :=
  calculate_distance point (loc_lon loc, loc_lat loc).

(** [a <= b] on tentative distances. *)
Definition dist_le (a b : dist) : Prop := dist_ltb b a = false.

(** One round of a loop that keeps the first element of least key among
    those that pass [okb]; the state is [(least key, element)]. *)
Definition scan_step {A : Type} (key : A -> Q) (okb : A -> bool)
           (acc : dist * option A) (x : A) : dist * option A :=
  if dist_ltb (Fin (key x)) (fst acc) && okb x then (Fin (key x), Some x) else acc.

(** Every edge has its mirror image, with the same road id and length. *)
Definition mirrored (g : RoadGraph) : Prop :=
  forall a b e, dict_get (edges g) (a, b) = Some e ->
    exists e', dict_get (edges g) (b, a) = Some e'
               /\ edge_id e' = edge_id e /\ edge_length e' = edge_length e.

(** The geometry stored with every edge is the pair of its key, as in
    every built graph. *)
Definition geometry_ok (g : RoadGraph) : Prop :=
  forall a b e, dict_get (edges g) (a, b) = Some e -> edge_geometry e = [a; b].

(** The search loop follows the pair [(a, b)]: [b] is listed as a
    neighbour of [a] and the pair has the edge [e]. *)
Definition usable (g : RoadGraph) (a b : Point) (e : Edge) : Prop :=
  In b (adjacency (nodes g) a) /\ dict_get (edges g) (a, b) = Some e.

(** A walk from [a] along such pairs, with the lengths of its edges in
    order. *)
Inductive walk (g : RoadGraph) (a : Point) : Point -> list Q -> Prop :=
| walk_here : walk g a a []
| walk_on b c e ls :
    walk g a b ls -> usable g b c e -> walk g a c (ls ++ [edge_length e]).

(** A node that the search has removed from [unvisited]. *)
Definition popped_node (g : RoadGraph) (st : search_state) (v : Point) : Prop :=
  In v (dict_keys (nodes g)) /\ ~ In v (unvisited st).

(** What the search loop preserves about the order in which it settles
    nodes, for a relation [R] on tentative distances.  [pending] is the
    node removed last while its neighbours are still being relaxed. *)
Record settle_inv (R : dist -> dist -> Prop) (g : RoadGraph)
       (pending : option Point) (st : search_state) : Prop := {
  si_sub : forall n, In n (unvisited st) -> In n (dict_keys (nodes g));
  si_fin : forall n, dist_of st n <> Inf -> In n (dict_keys (nodes g));
  si_cover : forall n, In n (dict_keys (nodes g)) ->
      In n (unvisited st) \/ dist_of st n <> Inf;
  si_order : forall v n, popped_node g st v -> In n (unvisited st) ->
      R (dist_of st v) (dist_of st n);
  si_relaxed : forall v n e, popped_node g st v -> pending <> Some v ->
      usable g v n e -> In n (dict_keys (nodes g)) ->
      R (dist_of st n) (dist_add (dist_of st v) (Fin (edge_length e)));
  si_pending : forall x, pending = Some x ->
      popped_node g st x
      /\ forall v, popped_node g st v -> R (dist_of st v) (dist_of st x);
  si_adj : forall n p, prev_of st n = Some p -> In n (adjacency (nodes g) p)
}.

(** The same while the neighbours in [done] of the pending node have been
    relaxed. *)
Definition settle_round (R : dist -> dist -> Prop) (g : RoadGraph)
           (current : Point) (done : list Point) (st : search_state) : Prop :=
  settle_inv R g (Some current) st
  /\ forall n e, In n done -> usable g current n e -> In n (dict_keys (nodes g)) ->
       R (dist_of st n) (dist_add (dist_of st current) (Fin (edge_length e))).

(** How the search loop was left: at the end node, or with nothing
    reachable left to select. *)
Definition stopped (end_node : Point) (pending : option Point)
           (st : search_state) : Prop :=
  pending = Some end_node
  \/ (pending = None /\ forall n, In n (unvisited st) -> dist_of st n = Inf).

(** A tentative distance that is a number when the other one is. *)
Definition finite_when (a b : dist) : Prop := b <> Inf -> a <> Inf.

End Vocabulary2.

Arguments si_order {env} [R g pending st] _ v n _ _.
Arguments si_relaxed {env} [R g pending st] _ v n e _ _ _ _.
Arguments si_pending {env} [R g pending st] _ x _.
Arguments si_adj {env} [R g pending st] _ n p _.

(** ** Further example data on the grid environment *)

Module GridMore.
Import Grid.
#[local] Existing Instance grid_env.

(** Two places, 33 m and 1.1 m from the origin. *)
Definition school : Location := mkLocation "school" "river road" 300%Z 0%Z.
Definition market : Location := mkLocation "market" "main street" 10%Z 0%Z.
Definition places : list Location := [school; market].

(** A road stored with the lengths that the create handler computes from
    its raw coordinates; its second vertex is 0.56 m from the first. *)
Definition road_measured : RoadRecord :=
  mkRoad "r7" [(0, 0); (5, 0); (1000, 0)]%Z
         (Some (compute_segment_lengths [(0, 0); (5, 0); (1000, 0)]%Z)) false.

(** A road with a single vertex. *)
Definition road_point : RoadRecord := mkRoad "r8" [(500, 500)]%Z None false.

(** The route in [town] between two points five micro-degrees off the
    road network. *)
Definition route_line : list Point :=
  [(0, 5); (0, 0); (1000, 0); (2000, 0); (2000, 1000); (2000, 1005)]%Z.
Definition route_cost : Q :=
  Qsum [calculate_distance (0, 0)%Z (1000, 0)%Z;
        calculate_distance (1000, 0)%Z (2000, 0)%Z; 50].
Definition route_total : dist :=
  Fin (calculate_distance (0, 5)%Z (0, 0)%Z + route_cost
       + calculate_distance (2000, 1000)%Z (2000, 1005)%Z).
Definition route_real : list Segment :=
  [mkSegment "r1" (calculate_distance (0, 0)%Z (1000, 0)%Z) None None None;
   mkSegment "r1" (calculate_distance (1000, 0)%Z (2000, 0)%Z) None None None;
   mkSegment "r2" 50 None None None].
Definition route_segs : list Segment :=
  mkSegment "user_to_road" (calculate_distance (0, 5)%Z (0, 0)%Z)
            (Some "user_segment") (Some (0, 5)%Z) (Some (0, 0)%Z)
  :: route_real
  ++ [mkSegment "road_to_user" (calculate_distance (2000, 1000)%Z (2000, 1005)%Z)
                (Some "user_segment") (Some (2000, 1000)%Z) (Some (2000, 1005)%Z)].

End GridMore.

(** * Properties *)

Unset Implicit Arguments.

(** ** Dictionaries *)

Section DictFacts.
Context {K V : Type} `{EqDec K}.
Implicit Types (d : dict K V) (k : K) (v : V).

Lemma dict_get_set_eq d k v : dict_get (dict_set d k v) k = Some v.
Proof.
  induction d as [|[k' v'] d IH]; simpl.
  - destruct (eq_dec k k); congruence.
  - destruct (eq_dec k k') as [->|Hne]; simpl.
    + destruct (eq_dec k' k'); congruence.
    + destruct (eq_dec k k'); [contradiction|exact IH].
Qed.

Lemma dict_get_set_neq d k k' v :
  k <> k' -> dict_get (dict_set d k v) k' = dict_get d k'.
Proof.
  intros Hne. induction d as [|[k0 v0] d IH]; simpl.
  - destruct (eq_dec k' k); congruence.
  - destruct (eq_dec k k0) as [->|Hk]; simpl.
    + destruct (eq_dec k' k0); congruence.
    + destruct (eq_dec k' k0); [reflexivity|exact IH].
Qed.

Lemma dict_get_In d k v : dict_get d k = Some v -> In k (dict_keys d).
Proof.
  induction d as [|[k0 v0] d IH]; simpl; [discriminate|].
  destruct (eq_dec k k0); auto.
Qed.

Lemma dict_In_get d k : In k (dict_keys d) -> exists v, dict_get d k = Some v.
Proof.
  induction d as [|[k0 v0] d IH]; simpl; [tauto|].
  intros [->|Hin].
  - destruct (eq_dec k k); [eauto|congruence].
  - destruct (eq_dec k k0); eauto.
Qed.

Lemma dict_get_None d k : dict_get d k = None <-> ~ In k (dict_keys d).
Proof.
  split.
  - intros Hn Hin. destruct (dict_In_get _ _ Hin) as [v Hv]. congruence.
  - intros Hn. destruct (dict_get d k) eqn:E; [|reflexivity].
    exfalso. eauto using dict_get_In.
Qed.

Lemma dict_mem_true d k : dict_mem d k = true <-> In k (dict_keys d).
Proof.
  unfold dict_mem. split.
  - destruct (dict_get d k) eqn:E; [eauto using dict_get_In|discriminate].
  - intros Hin. destruct (dict_In_get _ _ Hin) as [v ->]. reflexivity.
Qed.

Lemma dict_keys_set_present d k v :
  In k (dict_keys d) -> dict_keys (dict_set d k v) = dict_keys d.
Proof.
  induction d as [|[k0 v0] d IH]; simpl; [tauto|].
  intros Hin. destruct (eq_dec k k0) as [->|Hne]; simpl; [reflexivity|].
  f_equal. apply IH. destruct Hin; congruence.
Qed.

Lemma dict_keys_set_absent d k v :
  ~ In k (dict_keys d) -> dict_keys (dict_set d k v) = dict_keys d ++ [k].
Proof.
  induction d as [|[k0 v0] d IH]; simpl; [reflexivity|].
  intros Hn. destruct (eq_dec k k0) as [->|Hne]; simpl; [tauto|].
  f_equal. apply IH. tauto.
Qed.

Lemma dict_keys_set_incl d k v : incl (dict_keys d) (dict_keys (dict_set d k v)).
Proof.
  destruct (in_dec eq_dec k (dict_keys d)) as [Hin|Hn].
  - rewrite dict_keys_set_present by assumption. apply incl_refl.
  - rewrite dict_keys_set_absent by assumption. apply incl_appl, incl_refl.
Qed.

Lemma dict_keys_set_In d k v k' :
  In k' (dict_keys (dict_set d k v)) <-> k' = k \/ In k' (dict_keys d).
Proof.
  destruct (in_dec eq_dec k (dict_keys d)) as [Hin|Hn].
  - rewrite dict_keys_set_present by assumption. intuition congruence.
  - rewrite dict_keys_set_absent by assumption. rewrite in_app_iff. simpl.
    intuition congruence.
Qed.

Lemma dict_set_NoDup d k v : NoDup (dict_keys d) -> NoDup (dict_keys (dict_set d k v)).
Proof.
  intros Hnd. destruct (in_dec eq_dec k (dict_keys d)) as [Hin|Hn].
  - rewrite dict_keys_set_present by assumption. exact Hnd.
  - rewrite dict_keys_set_absent by assumption.
    apply NoDup_app; [exact Hnd|repeat constructor; simpl; tauto|].
    intros x Hx [<-|[]]. contradiction.
Qed.

Lemma getitem_set_eq dflt d k v : getitem dflt (dict_set d k v) k = v.
Proof. unfold getitem. now rewrite dict_get_set_eq. Qed.

Lemma getitem_set_neq dflt d k k' v :
  k <> k' -> getitem dflt (dict_set d k v) k' = getitem dflt d k'.
Proof. intros Hne. unfold getitem. now rewrite dict_get_set_neq. Qed.

Lemma dict_fromkeys_get keys v k :
  dict_get (dict_fromkeys keys v) k = if in_dec eq_dec k keys then Some v else None.
Proof.
  unfold dict_fromkeys.
  assert (Hgen : forall d0,
    dict_get (fold_left (fun d k => dict_set d k v) keys d0) k =
    if in_dec eq_dec k keys then Some v else dict_get d0 k).
  { induction keys as [|k0 keys IH]; intros d0; simpl; [reflexivity|].
    rewrite IH. destruct (eq_dec k0 k) as [->|Hne].
    - rewrite dict_get_set_eq. destruct (in_dec eq_dec k keys); reflexivity.
    - rewrite dict_get_set_neq by assumption.
      destruct (in_dec eq_dec k keys); [reflexivity|congruence]. }
  rewrite Hgen. destruct (in_dec eq_dec k keys); reflexivity.
Qed.
End DictFacts.

(** ** Metre comparisons *)

Lemma Qltb_lt x y : Qltb x y = true <-> x < y.
Proof.
  unfold Qltb. rewrite Qlt_alt. destruct (x ?= y); split; congruence.
Qed.

Lemma Qltb_ge x y : Qltb x y = false <-> y <= x.
Proof.
  split; intros Hf.
  - apply Qnot_lt_le. intros Hlt. apply Qltb_lt in Hlt. congruence.
  - destruct (Qltb x y) eqn:E; [|reflexivity].
    apply Qltb_lt in E. exfalso. eapply Qlt_not_le; eauto.
Qed.

(** ** Graph build: snapping *)

Section SnapFacts.
Context {env : PyEnv}.

Lemma within_dec c e : {within c e} + {~ within c e}.
Proof.
  unfold within. destruct (Qltb (calculate_distance c e) SNAP_THRESHOLD_METERS) eqn:E.
  - left. now apply Qltb_lt.
  - right. intros Hlt. apply Qltb_lt in Hlt. congruence.
Qed.

Lemma get_or_create_node_none c node_map :
  (forall e, In e node_map -> ~ within c e) -> get_or_create_node c node_map = c.
Proof.
  induction node_map as [|e rest IH]; simpl; intros Hall; [reflexivity|].
  destruct (Qltb _ _) eqn:E.
  - apply Qltb_lt in E. exfalso. apply (Hall e); [now left|exact E].
  - apply IH. intros e' He'. apply Hall. now right.
Qed.

Lemma get_or_create_node_some c node_map :
  (exists e, In e node_map /\ within c e) ->
  exists pre post,
    node_map = pre ++ get_or_create_node c node_map :: post
    /\ within c (get_or_create_node c node_map)
    /\ forall e, In e pre -> ~ within c e.
Proof.
  induction node_map as [|e rest IH]; simpl; intros [x [Hin Hx]]; [tauto|].
  destruct (Qltb _ _) eqn:E.
  - exists [], rest. repeat split; simpl; [now apply Qltb_lt|tauto].
  - destruct Hin as [->|Hin].
    + apply Qltb_lt in Hx. congruence.
    + destruct IH as (pre & post & Heq & Hw & Hpre); [eauto|].
      exists (e :: pre), post. repeat split.
      * simpl. now f_equal.
      * exact Hw.
      * intros e' [<-|He']; [|now apply Hpre].
        intros Hlt. apply Qltb_lt in Hlt. congruence.
Qed.

Lemma get_or_create_node_cases c node_map :
  (In (get_or_create_node c node_map) node_map
   /\ within c (get_or_create_node c node_map))
  \/ (get_or_create_node c node_map = c /\ forall e, In e node_map -> ~ within c e).
Proof.
  induction node_map as [|e rest IH]; simpl.
  - right. split; [reflexivity|tauto].
  - destruct (Qltb _ _) eqn:E.
    + left. split; [now left|now apply Qltb_lt].
    + destruct IH as [[Hin Hw]|[Heq Hall]].
      * left. split; [now right|exact Hw].
      * right. split; [exact Heq|].
        intros e' [<-|He']; [|now apply Hall].
        intros Hlt. apply Qltb_lt in Hlt. congruence.
Qed.

(** The keys after one snapping round. *)
Lemma snap_coord_keys nds acc c :
  let n := get_or_create_node c (dict_keys nds) in
  dict_keys (fst (snap_coord (nds, acc) c)) =
    (if in_dec eq_dec n (dict_keys nds) then dict_keys nds else dict_keys nds ++ [n])
  /\ snd (snap_coord (nds, acc) c) = acc ++ [n].
Proof.
  simpl. split; [|reflexivity].
  destruct (dict_mem nds _) eqn:E.
  - apply dict_mem_true in E. destruct (in_dec _ _ _); [reflexivity|contradiction].
  - assert (Hn : ~ In (get_or_create_node c (dict_keys nds)) (dict_keys nds)).
    { intros Hin. apply dict_mem_true in Hin. congruence. }
    destruct (in_dec _ _ _); [contradiction|].
    now apply dict_keys_set_absent.
Qed.

Lemma snap_coord_get nds acc c k adj :
  dict_get nds k = Some adj -> dict_get (fst (snap_coord (nds, acc) c)) k = Some adj.
Proof.
  simpl. intros Hget. destruct (dict_mem nds _) eqn:E; [exact Hget|].
  rewrite dict_get_set_neq; [exact Hget|].
  intros <-. unfold dict_mem in E. now rewrite Hget in E.
Qed.

Lemma snap_coord_adjacency nds acc c u :
  adjacency (fst (snap_coord (nds, acc) c)) u = adjacency nds u.
Proof.
  simpl. destruct (dict_mem nds _) eqn:E; [reflexivity|].
  unfold adjacency. destruct (eq_dec (get_or_create_node c (dict_keys nds)) u) as [<-|Hne].
  - rewrite getitem_set_eq. unfold getitem. unfold dict_mem in E.
    destruct (dict_get nds _); [discriminate|reflexivity].
  - now rewrite getitem_set_neq.
Qed.

Lemma snap_coords_app nds cs acc :
  fold_left snap_coord cs (nds, acc) =
    (fst (snap_coords nds cs), acc ++ snd (snap_coords nds cs)).
Proof.
  unfold snap_coords. revert nds acc.
  induction cs as [|c cs IH]; intros nds acc.
  - simpl. now rewrite app_nil_r.
  - cbn [fold_left].
    set (n := get_or_create_node c (dict_keys nds)).
    set (nds1 := if dict_mem nds n then nds else dict_set nds n []).
    change (snap_coord (nds, acc) c) with (nds1, acc ++ [n]).
    change (snap_coord (nds, []) c) with (nds1, [] ++ [n]).
    rewrite (IH nds1 (acc ++ [n])), (IH nds1 ([] ++ [n])).
    cbn [fst snd app]. now rewrite <- app_assoc.
Qed.

Lemma snap_coords_cons nds c cs :
  snap_coords nds (c :: cs) =
    let nds1 := fst (snap_coord (nds, []) c) in
    (fst (snap_coords nds1 cs),
     get_or_create_node c (dict_keys nds) :: snd (snap_coords nds1 cs)).
Proof.
  unfold snap_coords at 1. simpl fold_left.
  change (dict_mem nds (get_or_create_node c (dict_keys nds)))
    with (dict_mem nds (get_or_create_node c (dict_keys nds))).
  rewrite snap_coords_app. reflexivity.
Qed.

Lemma snap_coords_incl nds cs :
  incl (dict_keys nds) (dict_keys (fst (snap_coords nds cs))).
Proof.
  revert nds. induction cs as [|c cs IH]; intros nds.
  - apply incl_refl.
  - rewrite snap_coords_cons. cbv zeta. cbn [fst snd].
    eapply incl_tran; [|apply IH].
    destruct (snap_coord_keys nds [] c) as [Hk _]. rewrite Hk.
    destruct (in_dec _ _ _); [apply incl_refl|apply incl_appl, incl_refl].
Qed.

Lemma snap_coords_get nds cs k adj :
  dict_get nds k = Some adj -> dict_get (fst (snap_coords nds cs)) k = Some adj.
Proof.
  revert nds. induction cs as [|c cs IH]; intros nds Hget; [exact Hget|].
  rewrite snap_coords_cons. cbv zeta. cbn [fst snd].
  apply IH. now apply snap_coord_get.
Qed.

Lemma snap_coords_adjacency nds cs u :
  adjacency (fst (snap_coords nds cs)) u = adjacency nds u.
Proof.
  revert nds. induction cs as [|c cs IH]; intros nds; [reflexivity|].
  rewrite snap_coords_cons. cbv zeta. cbn [fst snd].
  rewrite IH. apply snap_coord_adjacency.
Qed.

Lemma snap_coords_NoDup nds cs :
  NoDup (dict_keys nds) -> NoDup (dict_keys (fst (snap_coords nds cs))).
Proof.
  revert nds. induction cs as [|c cs IH]; intros nds Hnd; [exact Hnd|].
  rewrite snap_coords_cons. cbv zeta. cbn [fst snd]. apply IH.
  simpl. destruct (dict_mem nds _); [exact Hnd|now apply dict_set_NoDup].
Qed.

(** Every snapped coordinate is a registered node. *)
Lemma snap_coords_registered nds cs :
  Forall (fun n => In n (dict_keys (fst (snap_coords nds cs)))) (snd (snap_coords nds cs)).
Proof.
  revert nds. induction cs as [|c cs IH]; intros nds; [constructor|].
  rewrite snap_coords_cons. cbv zeta. cbn [fst snd].
  constructor; [|apply IH].
  apply snap_coords_incl.
  destruct (snap_coord_keys nds [] c) as [Hk _]. rewrite Hk.
  destruct (in_dec _ _ _); [assumption|]. apply in_or_app. right. now left.
Qed.

Lemma snap_coords_length nds cs :
  List.length (snd (snap_coords nds cs)) = List.length cs.
Proof.
  revert nds. induction cs as [|c cs IH]; intros nds; [reflexivity|].
  rewrite snap_coords_cons. cbv zeta. cbn [fst snd List.length]. now rewrite IH.
Qed.
End SnapFacts.

(** ** Graph build: the edge loop as a sequence of writes *)

Section WriteFacts.
Context {env : PyEnv}.

Lemma add_edge_as_write g u v rid len :
  add_edge g u v rid len = apply_write g (u, v, mkEdge rid len [u; v]).
Proof. reflexivity. Qed.

Lemma link_segments_cons g road i s e rest :
  link_segments g road i (s :: e :: rest) =
    let len := segment_length (length_m road) i s e in
    let g1 := add_edge g s e (road_id road) len in
    link_segments (if is_oneway road then g1 else add_edge g1 e s (road_id road) len)
                  road (S i) (e :: rest).
Proof. reflexivity. Qed.

Lemma road_writes_cons road i s e rest :
  road_writes road i (s :: e :: rest) =
    let len := segment_length (length_m road) i s e in
    ((s, e, mkEdge (road_id road) len [s; e])
       :: (if is_oneway road then []
           else [(e, s, mkEdge (road_id road) len [e; s])]))
      ++ road_writes road (S i) (e :: rest).
Proof. reflexivity. Qed.

Lemma link_segments_writes road sn : forall g i,
  link_segments g road i sn = fold_left apply_write (road_writes road i sn) g.
Proof.
  induction sn as [|s rest IH]; intros g i; [reflexivity|].
  destruct rest as [|e rest']; [reflexivity|].
  rewrite link_segments_cons, road_writes_cons. cbv zeta.
  rewrite IH, fold_left_app.
  f_equal. destruct (is_oneway road); reflexivity.
Qed.

Lemma add_road_writes g road :
  add_road g road =
    fold_left apply_write (road_writes road 0 (snapped_of g road))
              (mkGraph (fst (snap_coords (nodes g) (road_coords road))) (edges g)).
Proof.
  unfold add_road, snapped_of.
  destruct (snap_coords (nodes g) (road_coords road)) as [nds sn].
  apply link_segments_writes.
Qed.

Lemma apply_write_node_keys g w :
  dict_keys (nodes (apply_write g w)) = dict_keys (nodes g).
Proof.
  destruct w as [[u v] e]. simpl.
  destruct (dict_get (nodes g) u) eqn:E; [|reflexivity].
  apply dict_keys_set_present. eauto using dict_get_In.
Qed.

Lemma fold_writes_node_keys ws : forall g,
  dict_keys (nodes (fold_left apply_write ws g)) = dict_keys (nodes g).
Proof.
  induction ws as [|w ws IH]; intros g; [reflexivity|].
  simpl. rewrite IH. apply apply_write_node_keys.
Qed.

Lemma apply_write_adjacency g u v e x :
  In u (dict_keys (nodes g)) ->
  adjacency (nodes (apply_write g (u, v, e))) x =
    if eq_dec x u then adjacency (nodes g) u ++ [v] else adjacency (nodes g) x.
Proof.
  intros Hin. destruct (dict_In_get _ _ Hin) as [adj Hadj].
  unfold adjacency. simpl. rewrite Hadj.
  destruct (eq_dec x u) as [->|Hne].
  - rewrite getitem_set_eq. unfold getitem. now rewrite Hadj.
  - rewrite getitem_set_neq; congruence.
Qed.

Lemma last_write_app key ws1 ws2 :
  last_write key (ws1 ++ ws2) =
    match last_write key ws2 with
    | Some e => Some e
    | None => last_write key ws1
    end.
Proof.
  induction ws1 as [|w ws1 IH]; simpl.
  - destruct (last_write key ws2); reflexivity.
  - rewrite IH. destruct (last_write key ws2); reflexivity.
Qed.

Lemma count_writes_app key ws1 ws2 :
  count_writes key (ws1 ++ ws2) = (count_writes key ws1 + count_writes key ws2)%nat.
Proof. unfold count_writes. now rewrite filter_app, length_app. Qed.

Lemma last_write_In key ws e :
  last_write key ws = Some e -> In (key, e) ws.
Proof.
  induction ws as [|w ws IH]; simpl; [discriminate|].
  destruct (last_write key ws) as [e'|].
  - intros [= <-]. right. now apply IH.
  - destruct (eq_dec (write_key w) key) as [<-|]; [|discriminate].
    intros [= <-]. left. unfold write_key. now destruct w.
Qed.

Lemma last_write_None key ws :
  last_write key ws = None <-> forall w, In w ws -> write_key w <> key.
Proof.
  induction ws as [|w ws IH]; simpl.
  - split; [intros _ w []|reflexivity].
  - destruct (last_write key ws) as [e|].
    + split; [discriminate|]. intros Hall. exfalso.
      assert (Hn : Some e = None) by (apply IH; intros w' Hw'; apply Hall; now right).
      discriminate.
    + destruct (eq_dec (write_key w) key) as [Heq|Hne].
      * split; [discriminate|]. intros Hall. exfalso. apply (Hall w); [now left|exact Heq].
      * split; [|reflexivity]. intros _ w' [<-|Hw']; [exact Hne|].
        now apply IH.
Qed.

Lemma last_write_split key ws e :
  last_write key ws = Some e <->
  exists pre post, ws = pre ++ (key, e) :: post
                   /\ forall w, In w post -> write_key w <> key.
Proof.
  split.
  - induction ws as [|w ws IH]; simpl; [discriminate|].
    destruct (last_write key ws) as [e'|] eqn:E.
    + intros [= <-]. destruct IH as (pre & post & -> & Hpost); [reflexivity|].
      exists (w :: pre), post. split; [reflexivity|exact Hpost].
    + destruct (eq_dec (write_key w) key) as [<-|]; [|discriminate].
      intros [= <-]. exists [], ws. split; [now destruct w|].
      now apply last_write_None.
  - intros (pre & post & -> & Hpost). rewrite last_write_app. simpl.
    apply last_write_None in Hpost. rewrite Hpost. unfold write_key. simpl.
    destruct (eq_dec key key); [reflexivity|congruence].
Qed.

Lemma fold_writes_edges_get ws k : forall g,
  dict_get (edges (fold_left apply_write ws g)) k =
    match last_write k ws with
    | Some e => Some e
    | None => dict_get (edges g) k
    end.
Proof.
  induction ws as [|w ws IH]; intros g; [reflexivity|].
  simpl. rewrite IH. destruct (last_write k ws); [reflexivity|].
  destruct w as [[u v] e]. unfold write_key. simpl.
  destruct (eq_dec (u, v) k) as [<-|Hne].
  - apply dict_get_set_eq.
  - now apply dict_get_set_neq.
Qed.

Lemma fold_writes_edge_keys_NoDup ws : forall g,
  NoDup (dict_keys (edges g)) ->
  NoDup (dict_keys (edges (fold_left apply_write ws g))).
Proof.
  induction ws as [|w ws IH]; intros g Hnd; [exact Hnd|].
  simpl. apply IH. destruct w as [[u v] e]. simpl. now apply dict_set_NoDup.
Qed.

Lemma count_writes_cons key w ws :
  count_writes key (w :: ws) =
    ((if eq_dec (write_key w) key then 1 else 0) + count_writes key ws)%nat.
Proof.
  unfold count_writes, eqb. simpl.
  destruct (eq_dec (write_key w) key); reflexivity.
Qed.

Lemma count_writes_split key pre e post :
  (forall w, In w post -> write_key w <> key) ->
  count_writes key (pre ++ (key, e) :: post) = S (count_writes key pre).
Proof.
  intros Hpost. rewrite count_writes_app, count_writes_cons.
  unfold write_key at 1. cbn [fst].
  destruct (eq_dec key key); [|congruence].
  assert (Hz : count_writes key post = 0%nat).
  { induction post as [|w post IH]; [reflexivity|].
    rewrite count_writes_cons.
    destruct (eq_dec (write_key w) key) as [Heq|Hne].
    - exfalso. apply (Hpost w); [now left|exact Heq].
    - apply IH. intros w' Hw'. apply Hpost. now right. }
  rewrite Hz. lia.
Qed.

Lemma fold_writes_adjacency_count ws A B : forall g,
  Forall (fun w => In (fst (write_key w)) (dict_keys (nodes g))) ws ->
  count_occ eq_dec (adjacency (nodes (fold_left apply_write ws g)) A) B =
    (count_occ eq_dec (adjacency (nodes g) A) B + count_writes (A, B) ws)%nat.
Proof.
  induction ws as [|w ws IH]; intros g Hall.
  - simpl. unfold count_writes. simpl. lia.
  - inversion Hall as [|w' ws' Hw Hws]; subst. simpl fold_left.
    rewrite IH by (rewrite apply_write_node_keys; exact Hws).
    rewrite count_writes_cons.
    destruct w as [[u v] e]. unfold write_key in *. cbn [fst snd] in *.
    rewrite apply_write_adjacency by exact Hw.
    destruct (eq_dec (u, v) (A, B)) as [Heq|Hne].
    + injection Heq as -> ->. destruct (eq_dec A A); [|congruence].
      rewrite count_occ_app. cbn [count_occ].
      destruct (eq_dec B B); [|congruence]. lia.
    + destruct (eq_dec A u) as [->|HA]; [|lia].
      rewrite count_occ_app. cbn [count_occ].
      destruct (eq_dec v B); [congruence|]. lia.
Qed.

(** The writes of a road join consecutive snapped coordinates. *)
Lemma road_writes_origin road sn : forall i w,
  In w (road_writes road i sn) ->
  exists j u v,
    nth_error sn j = Some u /\ nth_error sn (S j) = Some v
    /\ edge_id (snd w) = road_id road
    /\ edge_length (snd w) = segment_length (length_m road) (i + j) u v
    /\ ((write_key w = (u, v) /\ edge_geometry (snd w) = [u; v])
        \/ (write_key w = (v, u) /\ edge_geometry (snd w) = [v; u]
            /\ is_oneway road = false)).
Proof.
  induction sn as [|s rest IH]; intros i w Hin; [contradiction|].
  destruct rest as [|e rest']; [contradiction|].
  rewrite road_writes_cons in Hin. cbv zeta in Hin. apply in_app_or in Hin. destruct Hin as [Hin|Hin].
  - exists 0%nat, s, e. rewrite Nat.add_0_r.
    destruct Hin as [<-|Hin].
    + repeat split; try reflexivity. left. split; reflexivity.
    + destruct (is_oneway road) eqn:Eo; [contradiction|].
      destruct Hin as [<-|[]].
      repeat split; try reflexivity. right. repeat split; reflexivity.
  - destruct (IH _ _ Hin) as (j & u & v & Hu & Hv & Hid & Hlen & Hkey).
    exists (S j), u, v. repeat split; try assumption.
    rewrite Hlen. f_equal. lia.
Qed.

Lemma road_writes_registered road sn (P : Point -> Prop) : forall i,
  Forall P sn ->
  Forall (fun w => P (fst (write_key w)) /\ P (snd (write_key w))) (road_writes road i sn).
Proof.
  induction sn as [|s rest IH]; intros i Hall; [constructor|].
  destruct rest as [|e rest']; [constructor|].
  inversion Hall as [|? ? Hs Hrest]; subst.
  inversion Hrest as [|? ? He Hrest']; subst.
  rewrite road_writes_cons. cbv zeta. apply Forall_app. split; [|now apply IH].
  constructor; [now split|].
  destruct (is_oneway road); constructor; [now split|constructor].
Qed.
End WriteFacts.

(** ** Graph build: invariants of the whole build *)

Section BuildFacts.
Context {env : PyEnv}.

Lemma segment_length_spec lens i u v :
  segment_length lens i u v =
    match lens with
    | Some l =>
        match nth_error l i with
        | Some x => x
        | None => calculate_distance u v
        end
    | None => calculate_distance u v
    end.
Proof.
  unfold segment_length. destruct lens as [[|x l]|]; try reflexivity.
  now destruct i.
Qed.

Lemma add_road_node_keys g road :
  dict_keys (nodes (add_road g road)) =
    dict_keys (fst (snap_coords (nodes g) (road_coords road))).
Proof. rewrite add_road_writes. now rewrite fold_writes_node_keys. Qed.

Lemma add_road_keys_incl g road :
  incl (dict_keys (nodes g)) (dict_keys (nodes (add_road g road))).
Proof. rewrite add_road_node_keys. apply snap_coords_incl. Qed.

Lemma build_keys_incl roads : forall g,
  incl (dict_keys (nodes g)) (dict_keys (nodes (fold_left add_road roads g))).
Proof.
  induction roads as [|road roads IH]; intros g; [apply incl_refl|].
  simpl. eapply incl_tran; [apply add_road_keys_incl|apply IH].
Qed.

(** The writes of a road touch registered nodes only. *)
Lemma road_writes_in_keys g road :
  Forall (fun w =>
            In (fst (write_key w)) (dict_keys (fst (snap_coords (nodes g) (road_coords road))))
            /\ In (snd (write_key w)) (dict_keys (fst (snap_coords (nodes g) (road_coords road)))))
         (road_writes road 0 (snapped_of g road)).
Proof.
  apply road_writes_registered
    with (P := fun n => In n (dict_keys (fst (snap_coords (nodes g) (road_coords road))))).
  apply snap_coords_registered.
Qed.

Lemma fold_writes_edge_key ws k : forall g,
  In k (dict_keys (edges (fold_left apply_write ws g))) ->
  In k (dict_keys (edges g)) \/ exists w, In w ws /\ write_key w = k.
Proof.
  intros g Hin. destruct (dict_In_get _ _ Hin) as [e He].
  rewrite fold_writes_edges_get in He.
  destruct (last_write k ws) as [e'|] eqn:E.
  - right. exists (k, e'). split; [now apply last_write_In|reflexivity].
  - left. eauto using dict_get_In.
Qed.

Lemma add_road_closed g road : closed g -> closed (add_road g road).
Proof.
  intros Hc a b Hin. rewrite add_road_node_keys.
  rewrite add_road_writes in Hin.
  apply fold_writes_edge_key in Hin. simpl in Hin.
  destruct Hin as [Hin|[w [Hw Hk]]].
  - destruct (Hc a b Hin) as [Ha Hb].
    split; now apply snap_coords_incl.
  - pose proof (road_writes_in_keys g road) as Hall.
    rewrite Forall_forall in Hall. specialize (Hall w Hw).
    rewrite Hk in Hall. exact Hall.
Qed.

Lemma build_closed roads : forall g,
  closed g -> closed (fold_left add_road roads g).
Proof.
  induction roads as [|road roads IH]; intros g Hc; [exact Hc|].
  simpl. apply IH. now apply add_road_closed.
Qed.

Lemma build_edges_get roads k : forall g,
  dict_get (edges (fold_left add_road roads g)) k =
    match last_write k (build_writes g roads) with
    | Some e => Some e
    | None => dict_get (edges g) k
    end.
Proof.
  induction roads as [|road roads IH]; intros g; [reflexivity|].
  simpl. rewrite IH, last_write_app.
  destruct (last_write k (build_writes (add_road g road) roads)); [reflexivity|].
  rewrite add_road_writes. now rewrite fold_writes_edges_get.
Qed.

Lemma build_edge_keys_NoDup roads : forall g,
  NoDup (dict_keys (edges g)) ->
  NoDup (dict_keys (edges (fold_left add_road roads g))).
Proof.
  induction roads as [|road roads IH]; intros g Hnd; [exact Hnd|].
  simpl. apply IH. rewrite add_road_writes.
  now apply fold_writes_edge_keys_NoDup.
Qed.

Lemma build_adjacency_count roads A B : forall g,
  count_occ eq_dec (adjacency (nodes (fold_left add_road roads g)) A) B =
    (count_occ eq_dec (adjacency (nodes g) A) B
     + count_writes (A, B) (build_writes g roads))%nat.
Proof.
  induction roads as [|road roads IH]; intros g.
  - simpl. unfold count_writes. simpl. lia.
  - simpl. rewrite IH, count_writes_app.
    rewrite add_road_writes at 1.
    rewrite fold_writes_adjacency_count.
    + simpl. rewrite snap_coords_adjacency. lia.
    + simpl. eapply Forall_impl; [|apply road_writes_in_keys].
      intros w [Hu _]. exact Hu.
Qed.

Lemma build_writes_origin roads w : forall g,
  In w (build_writes g roads) ->
  exists pre road post,
    roads = pre ++ road :: post
    /\ In w (road_writes road 0 (snapped_of (fold_left add_road pre g) road)).
Proof.
  induction roads as [|road roads IH]; intros g Hin; [contradiction|].
  simpl in Hin. apply in_app_or in Hin. destruct Hin as [Hin|Hin].
  - exists [], road, roads. split; [reflexivity|exact Hin].
  - destruct (IH _ Hin) as (pre & r & post & -> & Hr).
    exists (road :: pre), r, post. split; [reflexivity|exact Hr].
Qed.

Lemma separated_snoc keys c :
  separated keys -> (forall e, In e keys -> ~ within c e) -> separated (keys ++ [c]).
Proof.
  unfold separated. intros Hs Hall.
  induction keys as [|k keys IH]; simpl.
  - constructor; constructor.
  - inversion Hs as [|? ? Hk Hrest]; subst. constructor.
    + apply Forall_app. split; [exact Hk|].
      constructor; [|constructor]. apply Hall. now left.
    + apply IH; [exact Hrest|]. intros e He. apply Hall. now right.
Qed.

Lemma snap_coord_separated nds acc c :
  separated (dict_keys nds) -> separated (dict_keys (fst (snap_coord (nds, acc) c))).
Proof.
  intros Hs. destruct (snap_coord_keys nds acc c) as [-> _].
  destruct (in_dec _ _ _) as [|Hn]; [exact Hs|].
  destruct (get_or_create_node_cases c (dict_keys nds)) as [[Hin _]|[-> Hall]];
    [contradiction|].
  now apply separated_snoc.
Qed.

Lemma snap_coords_separated nds cs :
  separated (dict_keys nds) -> separated (dict_keys (fst (snap_coords nds cs))).
Proof.
  revert nds. induction cs as [|c cs IH]; intros nds Hs; [exact Hs|].
  rewrite snap_coords_cons. cbv zeta. cbn [fst snd]. apply IH.
  now apply snap_coord_separated.
Qed.

Lemma snap_coords_represented nds cs c :
  In c cs ->
  exists n, In n (dict_keys (fst (snap_coords nds cs))) /\ (n = c \/ within c n).
Proof.
  revert nds. induction cs as [|c0 cs IH]; intros nds Hin; [contradiction|].
  rewrite snap_coords_cons. cbv zeta. cbn [fst snd].
  destruct Hin as [->|Hin]; [|now apply IH].
  exists (get_or_create_node c (dict_keys nds)). split.
  - apply snap_coords_incl. destruct (snap_coord_keys nds [] c) as [-> _].
    destruct (in_dec _ _ _); [assumption|]. apply in_or_app. right. now left.
  - destruct (get_or_create_node_cases c (dict_keys nds)) as [[_ Hw]|[Heq _]]; auto.
Qed.

(** The state of the snapping loop when it reaches a coordinate in the
    middle of a linestring. *)
Lemma snap_coords_middle nds cs1 c cs2 :
  incl (dict_keys (fst (snap_coord (fst (snap_coords nds cs1), []) c)))
       (dict_keys (fst (snap_coords nds (cs1 ++ c :: cs2))))
  /\ nth_error (snd (snap_coords nds (cs1 ++ c :: cs2))) (List.length cs1)
     = Some (get_or_create_node c (dict_keys (fst (snap_coords nds cs1)))).
Proof.
  pose proof (snap_coords_length nds cs1) as Hlen.
  unfold snap_coords at 2 3. rewrite fold_left_app.
  rewrite (snap_coords_app nds cs1 []). cbn [app fold_left].
  set (nds1 := fst (snap_coords nds cs1)) in *.
  set (s1 := snd (snap_coords nds cs1)) in *.
  set (n := get_or_create_node c (dict_keys nds1)).
  change (snap_coord (nds1, s1) c)
    with (fst (snap_coord (nds1, []) c), s1 ++ [n]).
  rewrite snap_coords_app. cbn [fst snd]. split.
  - apply snap_coords_incl.
  - rewrite <- app_assoc, nth_error_app2 by lia.
    rewrite Hlen, Nat.sub_diag. reflexivity.
Qed.

Lemma build_node_keys_NoDup roads : forall g,
  NoDup (dict_keys (nodes g)) ->
  NoDup (dict_keys (nodes (fold_left add_road roads g))).
Proof.
  induction roads as [|road roads IH]; intros g Hnd; [exact Hnd|].
  simpl. apply IH. rewrite add_road_node_keys. now apply snap_coords_NoDup.
Qed.

Lemma build_separated roads : forall g,
  separated (dict_keys (nodes g)) ->
  separated (dict_keys (nodes (fold_left add_road roads g))).
Proof.
  induction roads as [|road roads IH]; intros g Hs; [exact Hs|].
  simpl. apply IH. rewrite add_road_node_keys. now apply snap_coords_separated.
Qed.

Lemma build_represented roads road c : forall g,
  In road roads -> In c (road_coords road) ->
  exists n, In n (dict_keys (nodes (fold_left add_road roads g)))
            /\ (n = c \/ within c n).
Proof.
  induction roads as [|r roads IH]; intros g Hin Hc; [contradiction|].
  simpl. destruct Hin as [->|Hin]; [|now apply IH].
  destruct (snap_coords_represented (nodes g) _ _ Hc) as [n [Hn Hrel]].
  exists n. split; [|exact Hrel].
  apply build_keys_incl. now rewrite add_road_node_keys.
Qed.
End BuildFacts.

(** ** Graph build: the statements about snapping, edges and closure *)

Section BuildClaims.
Context {env : PyEnv}.

(** C3 (as amended).  One round of the snapping loop.  When some
    registered node lies strictly within the threshold of the raw
    coordinate, the coordinate is snapped to the first such node in
    registration order (whether or not a later node is nearer) and the
    node map is unchanged.  When no registered node lies strictly within
    the threshold, the coordinate snaps to itself and is registered as the
    newest node unless it is a key already. *)
Theorem snap_coord_first_within nds acc c :
  let keys := dict_keys nds in
  let st' := snap_coord (nds, acc) c in
  ((exists e, In e keys /\ within c e) ->
   exists pre n post,
     keys = pre ++ n :: post
     /\ within c n
     /\ (forall e, In e pre -> ~ within c e)
     /\ st' = (nds, acc ++ [n]))
  /\ ((forall e, In e keys -> ~ within c e) ->
      snd st' = acc ++ [c]
      /\ dict_keys (fst st') =
           if in_dec eq_dec c keys then keys else keys ++ [c]).
Proof.
  cbv zeta. split.
  - intros Hex.
    destruct (get_or_create_node_some c (dict_keys nds) Hex) as (pre & post & Heq & Hw & Hpre).
    exists pre, (get_or_create_node c (dict_keys nds)), post.
    repeat split; try assumption.
    unfold snap_coord.
    assert (Hin : In (get_or_create_node c (dict_keys nds)) (dict_keys nds)).
    { rewrite Heq at 2. apply in_or_app. right. now left. }
    apply dict_mem_true in Hin. now rewrite Hin.
  - intros Hall.
    destruct (snap_coord_keys nds acc c) as [Hk Hs]. cbv zeta in Hk, Hs.
    rewrite (get_or_create_node_none c (dict_keys nds) Hall) in Hk, Hs.
    split; assumption.
Qed.

(** C4 (as amended).  In the graph built from any road records the nodes
    are pairwise distinct, every node is at least the threshold away from
    each node registered before it, and every raw coordinate of every
    road is represented by a node that is the coordinate itself or lies
    strictly within the threshold of it.  A raw coordinate that, when the
    build reaches it, is at least the threshold away from every node
    registered so far (and closer than that to itself) is none of these
    nodes and becomes a node of the graph, snapped to itself. *)
Theorem build_snapping_consistent roads :
  let keys := dict_keys (nodes (build_graph_from roads)) in
  NoDup keys
  /\ separated keys
  /\ (forall road c, In road roads -> In c (road_coords road) ->
        exists n, In n keys /\ (n = c \/ within c n))
  /\ (forall pre road post cs1 c cs2,
        roads = pre ++ road :: post ->
        road_coords road = cs1 ++ c :: cs2 ->
        let existing :=
          dict_keys (fst (snap_coords (nodes (build_graph_from pre)) cs1)) in
        within c c ->
        (forall e, In e existing -> ~ within c e) ->
        ~ In c existing
        /\ In c keys
        /\ nth_error (snapped_of (build_graph_from pre) road) (List.length cs1) = Some c).
Proof.
  cbv zeta. unfold build_graph_from. split; [|split; [|split]].
  - apply build_node_keys_NoDup. constructor.
  - apply build_separated. constructor.
  - intros road c Hr Hc. now apply build_represented with (road := road).
  - intros pre road post cs1 c cs2 -> Hcs Hself Hfar.
    set (g := fold_left add_road pre empty_graph) in *.
    assert (Hnew : ~ In c (dict_keys (fst (snap_coords (nodes g) cs1)))).
    { intros Hin. now apply (Hfar c). }
    destruct (snap_coords_middle (nodes g) cs1 c cs2) as [Hincl Hnth].
    rewrite (get_or_create_node_none _ _ Hfar) in Hnth.
    split; [exact Hnew|split].
    + rewrite fold_left_app. cbn [fold_left]. fold g.
      apply build_keys_incl. rewrite add_road_node_keys, Hcs.
      apply Hincl.
      destruct (snap_coord_keys (fst (snap_coords (nodes g) cs1)) [] c) as [Hk _].
      cbv zeta in Hk. rewrite (get_or_create_node_none _ _ Hfar) in Hk.
      rewrite Hk. destruct (in_dec _ _ _); [contradiction|].
      apply in_or_app. right. now left.
    + unfold snapped_of. rewrite Hcs. exact Hnth.
Qed.

(** C8 (as amended).  Every edge of the built graph comes from a segment
    [i] of some road: it joins the snapped coordinates [i] and [i + 1] of
    that road (in this or, for a two-way road, in the opposite order),
    carries the road's id, and its length is entry [i] of the road's
    length list when the list has such an entry, and otherwise the
    distance computed between the two snapped coordinates.  The length is
    non-negative as soon as the distance function and the provided
    lengths are. *)
Theorem build_edge_length roads a b e :
  dict_get (edges (build_graph_from roads)) (a, b) = Some e ->
  (exists pre road post i u v,
      roads = pre ++ road :: post
      /\ nth_error (snapped_of (build_graph_from pre) road) i = Some u
      /\ nth_error (snapped_of (build_graph_from pre) road) (S i) = Some v
      /\ ((a, b) = (u, v) \/ ((a, b) = (v, u) /\ is_oneway road = false))
      /\ edge_id e = road_id road
      /\ edge_length e =
           match length_m road with
           | Some l =>
               match nth_error l i with
               | Some x => x
               | None => calculate_distance u v
               end
           | None => calculate_distance u v
           end)
  /\ ((forall p q, 0 <= calculate_distance p q) ->
      (forall road l x, In road roads -> length_m road = Some l -> In x l -> 0 <= x) ->
      0 <= edge_length e).
Proof.
  intros Hget. unfold build_graph_from in Hget.
  rewrite build_edges_get in Hget. simpl in Hget.
  destruct (last_write (a, b) (build_writes empty_graph roads)) as [e'|] eqn:E;
    [|discriminate].
  injection Hget as ->.
  apply last_write_In in E.
  destruct (build_writes_origin _ _ _ E) as (pre & road & post & Hroads & Hin).
  destruct (road_writes_origin _ _ _ _ Hin)
    as (j & u & v & Hu & Hv & Hid & Hlen & Hkey).
  unfold write_key in Hkey. simpl in Hid, Hlen, Hkey.
  rewrite segment_length_spec in Hlen.
  assert (Hform :
    edge_length e =
      match length_m road with
      | Some l => match nth_error l j with
                  | Some x => x
                  | None => calculate_distance u v
                  end
      | None => calculate_distance u v
      end) by exact Hlen.
  split.
  - exists pre, road, post, j, u, v. unfold build_graph_from.
    repeat split; try assumption.
    destruct Hkey as [[Hk _]|[Hk [_ Ho]]]; [left|right]; auto.
  - intros Hd Hl. rewrite Hform.
    destruct (length_m road) as [l|] eqn:El; [|apply Hd].
    destruct (nth_error l j) as [x|] eqn:Ex; [|apply Hd].
    apply (Hl road l x); [|exact El|eapply nth_error_In; eauto].
    rewrite Hroads. apply in_or_app. right. now left.
Qed.

(** C9.  The graph built from any road records is referentially closed:
    both end nodes of every key of the edge mapping are keys of the
    node mapping, and every node key has an adjacency list. *)
Theorem build_referentially_closed roads :
  let g := build_graph_from roads in
  (forall a b, In (a, b) (dict_keys (edges g)) ->
               In a (dict_keys (nodes g)) /\ In b (dict_keys (nodes g)))
  /\ (forall n, In n (dict_keys (nodes g)) ->
                exists adj, dict_get (nodes g) n = Some adj).
Proof.
  cbv zeta. split.
  - apply (build_closed roads empty_graph). intros a b [].
  - intros n Hin. now apply dict_In_get.
Qed.

(** C10.  When the writes of a build end, for the ordered pair [(A, B)],
    with the write of edge [e] (no later segment produces that pair),
    the built graph holds exactly one edge under [(A, B)], namely [e],
    whatever earlier segments wrote there, and the adjacency list of [A]
    holds one entry [B] per write to [(A, B)]. *)
Theorem build_last_edge_wins roads A B e (pre post : list write) :
  build_writes empty_graph roads = pre ++ ((A, B, e) : write) :: post ->
  (forall w, In w post -> write_key w <> (A, B)) ->
  let g := build_graph_from roads in
  dict_get (edges g) (A, B) = Some e
  /\ count_occ eq_dec (dict_keys (edges g)) (A, B) = 1%nat
  /\ count_occ eq_dec (adjacency (nodes g) A) B = S (count_writes (A, B) pre).
Proof.
  intros Hws Hpost. cbv zeta. unfold build_graph_from.
  assert (Hlast : last_write (A, B) (build_writes empty_graph roads) = Some e).
  { apply last_write_split. eauto. }
  assert (Hget : dict_get (edges (fold_left add_road roads empty_graph)) (A, B) = Some e).
  { rewrite build_edges_get. now rewrite Hlast. }
  repeat split.
  - exact Hget.
  - apply NoDup_count_occ'.
    + apply build_edge_keys_NoDup. constructor.
    + eauto using dict_get_In.
  - rewrite build_adjacency_count, Hws.
    change (count_occ eq_dec (adjacency (nodes empty_graph) A) B) with 0%nat.
    exact (count_writes_split (A, B) pre e post Hpost).
Qed.
End BuildClaims.

(** ** Dijkstra search: what the loop preserves *)

Section SearchFacts.
Context {env : PyEnv}.
Variable g : RoadGraph.
Variable s : Point.

Lemma fold_min_In (key : Point -> dist) rest : forall x0,
  In (fold_left (fun best y => if dist_ltb (key y) (key best) then y else best) rest x0)
     (x0 :: rest).
Proof.
  induction rest as [|y rest IH]; intros x0; [now left|].
  cbn [fold_left]. destruct (dist_ltb (key y) (key x0)).
  - right. apply IH.
  - destruct (IH x0) as [<-|Hin]; [now left|right; now right].
Qed.

Lemma min_by_In key l x : min_by key l = Some x -> In x l.
Proof.
  destruct l as [|x0 rest]; [discriminate|].
  unfold min_by. intros [= <-]. apply fold_min_In.
Qed.

Lemma init_prev n : prev_of (init_search g s) n = None.
Proof.
  unfold prev_of, init_search. cbn [previous_nodes].
  rewrite dict_fromkeys_get. now destruct (in_dec _ _ _).
Qed.

Lemma init_dist_start : dist_of (init_search g s) s = Fin 0.
Proof. unfold dist_of, init_search. cbn [distances]. apply getitem_set_eq. Qed.

Lemma init_dist_other n : n <> s -> dist_of (init_search g s) n = Inf.
Proof.
  intros Hne. unfold dist_of, init_search. cbn [distances].
  rewrite getitem_set_neq by congruence.
  unfold getitem. rewrite dict_fromkeys_get. now destruct (in_dec _ _ _).
Qed.

Lemma init_unvisited_In x :
  In x (unvisited (init_search g s)) <-> In x (dict_keys (nodes g)).
Proof.
  unfold init_search. cbn [unvisited]. split; intros Hin.
  - eapply Permutation_in; [apply set_order_perm|exact Hin].
  - eapply Permutation_in; [apply Permutation_sym, set_order_perm|exact Hin].
Qed.

Lemma init_unvisited_length :
  List.length (unvisited (init_search g s)) = List.length (dict_keys (nodes g)).
Proof. unfold init_search. cbn [unvisited]. apply Permutation_length, set_order_perm. Qed.

Lemma search_inv_init :
  In s (dict_keys (nodes g)) -> search_inv g s (init_search g s).
Proof.
  intros Hs. constructor.
  - apply init_prev.
  - apply init_dist_start.
  - intros n p Hp. rewrite init_prev in Hp. discriminate.
  - intros n Hn. destruct (eq_dec n s) as [->|Hne]; [now left|].
    now rewrite init_dist_other in Hn.
  - intros _ n Hne. now apply init_dist_other.
  - rewrite init_unvisited_length. lia.
  - intros n Hnv Hn. destruct (eq_dec n s) as [->|Hne].
    + exfalso. apply Hnv. now apply init_unvisited_In.
    + now rewrite init_dist_other in Hn.
Qed.

Lemma tree_path_ext st st' n path :
  tree_path st s n path ->
  (forall x, In x path -> prev_of st' x = prev_of st x) ->
  tree_path st' s n path.
Proof.
  induction 1 as [|n p path Hp Htp IH]; intros Hext; [constructor|].
  apply tree_step with (p := p).
  - rewrite Hext; [exact Hp|]. apply in_or_app. right. now left.
  - apply IH. intros x Hx. apply Hext. apply in_or_app. now left.
Qed.

Lemma search_inv_pop st current :
  search_inv g s st ->
  In current (unvisited st) ->
  dist_of st current <> Inf ->
  search_inv g s (popped st current)
  /\ ~ In s (unvisited (popped st current))
  /\ ~ In current (unvisited (popped st current)).
Proof.
  intros Hinv Hcur Hd.
  assert (Hsub : forall x, In x (unvisited (popped st current)) ->
                           In x (unvisited st) /\ x <> current).
  { intros x Hx. cbn [popped unvisited] in Hx. now apply in_remove in Hx. }
  assert (Hlen : (List.length (unvisited (popped st current))
                  < List.length (unvisited st))%nat).
  { cbn [popped unvisited]. now apply remove_length_lt. }
  assert (Hs : ~ In s (unvisited (popped st current))).
  { intros Hin. destruct (Hsub _ Hin) as [Hin' Hne].
    apply Hd. apply (inv_first Hinv Hin'). congruence. }
  split; [|split; [exact Hs|]].
  2:{ cbn [popped unvisited]. apply remove_In. }
  constructor.
  - exact (inv_start_prev Hinv).
  - exact (inv_start_dist Hinv).
  - intros n p Hp. destruct (inv_prev Hinv _ Hp) as (Hnv & Hdp & He).
    split; [|split; assumption].
    intros Hin. apply Hnv. now apply Hsub.
  - exact (inv_reached Hinv).
  - intros Hin. contradiction.
  - pose proof (inv_bound Hinv). lia.
  - intros n Hnv Hn. pose proof (inv_bound Hinv) as Hbound.
    assert (Hold : forall m, ~ In m (unvisited st) -> dist_of st m <> Inf ->
              exists path, tree_path (popped st current) s m path
                /\ Forall (fun x => ~ In x (unvisited (popped st current))) path
                /\ (List.length path + List.length (unvisited st)
                    <= List.length (dict_keys (nodes g)))%nat).
    { intros m Hm Hdm. destruct (inv_tree Hinv m Hm Hdm) as (path & Htp & Hall & Hb).
      exists path. split; [|split].
      - apply (tree_path_ext st _ _ _ Htp). reflexivity.
      - eapply Forall_impl; [|exact Hall]. intros x Hx Hin. apply Hx. now apply Hsub.
      - exact Hb. }
    destruct (in_dec eq_dec n (unvisited st)) as [Hin|Hnin].
    + assert (n = current) as ->.
      { destruct (eq_dec n current) as [|Hne]; [assumption|].
        exfalso. apply Hnv. cbn [popped unvisited]. now apply in_in_remove. }
      destruct (inv_reached Hinv _ Hd) as [->|[p Hp]].
      * exists [s]. split; [constructor|split].
        -- constructor; [exact Hs|constructor].
        -- cbn [List.length]. lia.
      * destruct (inv_prev Hinv _ Hp) as (Hpv & Hdp & _).
        destruct (Hold p Hpv Hdp) as (path & Htp & Hall & Hb).
        exists (path ++ [current]). split; [|split].
        -- now apply tree_step with (p := p).
        -- apply Forall_app. split; [exact Hall|].
           constructor; [|constructor]. cbn [popped unvisited]. apply remove_In.
        -- rewrite length_app. cbn [List.length]. lia.
    + destruct (Hold n Hnin Hn) as (path & Htp & Hall & Hb).
      exists path. split; [exact Htp|split; [exact Hall|lia]].
Qed.

Lemma relax_cases current st neighbor :
  relax g current st neighbor = st
  \/ (In neighbor (unvisited st)
      /\ exists e, dict_get (edges g) (current, neighbor) = Some e
         /\ relax g current st neighbor =
              mkSearch (dict_set (distances st) neighbor
                          (dist_add (dist_of st current) (Fin (edge_length e))))
                       (dict_set (previous_nodes st) neighbor (Some current))
                       (unvisited st)).
Proof.
  unfold relax, mem. destruct (in_dec eq_dec neighbor (unvisited st)) as [Hin|];
    [|now left]. cbn [negb].
  destruct (dict_get (edges g) (current, neighbor)) as [e|]; [|now left].
  destruct (dist_ltb _ _); [|now left].
  right. split; [exact Hin|]. exists e. split; reflexivity.
Qed.

Lemma relax_unvisited current st neighbor :
  unvisited (relax g current st neighbor) = unvisited st.
Proof.
  destruct (relax_cases current st neighbor) as [->|(_ & e & _ & ->)]; reflexivity.
Qed.

Lemma relax_round_inv current st neighbor :
  round_inv g s current st -> round_inv g s current (relax g current st neighbor).
Proof.
  intros (Hinv & Hs & Hc & Hd).
  destruct (relax_cases current st neighbor) as [->|(Hin & e & He & ->)];
    [exact (conj Hinv (conj Hs (conj Hc Hd)))|].
  set (nd := dist_add (dist_of st current) (Fin (edge_length e))).
  set (st' := mkSearch (dict_set (distances st) neighbor nd)
                       (dict_set (previous_nodes st) neighbor (Some current))
                       (unvisited st)).
  assert (Hnd : nd <> Inf).
  { unfold nd. destruct (dist_of st current); [discriminate|congruence]. }
  assert (Hdn : dist_of st' neighbor = nd).
  { unfold dist_of, st'. cbn [distances]. apply getitem_set_eq. }
  assert (Hdo : forall x, x <> neighbor -> dist_of st' x = dist_of st x).
  { intros x Hx. unfold dist_of, st'. cbn [distances].
    apply getitem_set_neq. congruence. }
  assert (Hpn : prev_of st' neighbor = Some current).
  { unfold prev_of, st'. cbn [previous_nodes]. now rewrite dict_get_set_eq. }
  assert (Hpo : forall x, x <> neighbor -> prev_of st' x = prev_of st x).
  { intros x Hx. unfold prev_of, st'. cbn [previous_nodes].
    rewrite dict_get_set_neq; [reflexivity|congruence]. }
  assert (Hnv : forall x, ~ In x (unvisited st) -> x <> neighbor).
  { intros x Hx ->. contradiction. }
  split; [constructor|split; [|split]].
  - rewrite Hpo by auto. exact (inv_start_prev Hinv).
  - rewrite Hdo by auto. exact (inv_start_dist Hinv).
  - intros n p Hp. destruct (eq_dec n neighbor) as [->|Hne].
    + rewrite Hpn in Hp. injection Hp as <-.
      rewrite Hdn, (Hdo current) by auto.
      split; [exact Hc|split; [exact Hd|]]. exists e. split; [exact He|reflexivity].
    + rewrite Hpo in Hp by exact Hne.
      destruct (inv_prev Hinv _ Hp) as (Hpv & Hdp & e' & He' & Heq).
      rewrite (Hdo p), (Hdo n) by auto.
      split; [exact Hpv|split; [exact Hdp|]]. exists e'. split; assumption.
  - intros n Hn. destruct (eq_dec n neighbor) as [->|Hne].
    + right. exists current. exact Hpn.
    + rewrite Hdo in Hn by exact Hne. rewrite Hpo by exact Hne.
      exact (inv_reached Hinv _ Hn).
  - intros Hin'. contradiction.
  - exact (inv_bound Hinv).
  - intros n Hn Hdn'. cbn [st' unvisited] in Hn.
    rewrite Hdo in Hdn' by auto.
    destruct (inv_tree Hinv n Hn Hdn') as (path & Htp & Hall & Hb).
    exists path. split; [|split; assumption].
    apply (tree_path_ext st _ _ _ Htp). intros x Hx. apply Hpo, Hnv.
    rewrite Forall_forall in Hall. now apply Hall.
  - exact Hs.
  - exact Hc.
  - rewrite Hdo by auto. exact Hd.
Qed.

Lemma fold_relax_round_inv current adj : forall st,
  round_inv g s current st -> round_inv g s current (fold_left (relax g current) adj st).
Proof.
  induction adj as [|neighbor adj IH]; intros st Hst; [exact Hst|].
  cbn [fold_left]. apply IH. now apply relax_round_inv.
Qed.

Lemma fold_relax_unvisited current adj : forall st,
  unvisited (fold_left (relax g current) adj st) = unvisited st.
Proof.
  induction adj as [|neighbor adj IH]; intros st; [reflexivity|].
  cbn [fold_left]. rewrite IH. apply relax_unvisited.
Qed.

Lemma dijkstra_loop_inv end_node fuel : forall st,
  search_inv g s st -> search_inv g s (dijkstra_loop g end_node fuel st).
Proof.
  induction fuel as [|fuel IH]; intros st Hinv; [exact Hinv|].
  cbn [dijkstra_loop].
  destruct (min_by (dist_of st) (unvisited st)) as [current|] eqn:Emin; [|exact Hinv].
  destruct (is_inf (dist_of st current)) eqn:Einf; [exact Hinv|].
  assert (Hd : dist_of st current <> Inf).
  { intros Heq. rewrite Heq in Einf. discriminate. }
  destruct (search_inv_pop st current Hinv (min_by_In _ _ _ Emin) Hd) as (Hpop & Hs & Hc).
  fold (popped st current).
  destruct (eqb current end_node); [exact Hpop|].
  apply IH.
  apply (fold_relax_round_inv current (getitem [] (nodes g) current) (popped st current)).
  exact (conj Hpop (conj Hs (conj Hc Hd))).
Qed.

(** With as many rounds as there are unvisited nodes the loop has run to
    its end: more rounds change nothing. *)
Lemma dijkstra_loop_enough end_node fuel : forall st extra,
  (List.length (unvisited st) <= fuel)%nat ->
  dijkstra_loop g end_node (fuel + extra) st = dijkstra_loop g end_node fuel st.
Proof.
  induction fuel as [|fuel IH]; intros st extra Hlen.
  - destruct (unvisited st) as [|x l] eqn:E; [|cbn in Hlen; lia].
    destruct extra; [reflexivity|]. cbn [Nat.add dijkstra_loop]. now rewrite E.
  - cbn [Nat.add dijkstra_loop].
    destruct (min_by (dist_of st) (unvisited st)) as [current|] eqn:Emin; [|reflexivity].
    destruct (is_inf (dist_of st current)); [reflexivity|].
    destruct (eqb current end_node); [reflexivity|].
    apply IH. rewrite fold_relax_unvisited. cbn [unvisited].
    pose proof (remove_length_lt eq_dec (unvisited st) current (min_by_In _ _ _ Emin)).
    lia.
Qed.

Lemma dijkstra_search_inv end_node :
  In s (dict_keys (nodes g)) -> search_inv g s (dijkstra_search g s end_node).
Proof. intros Hs. apply dijkstra_loop_inv, search_inv_init, Hs. Qed.

(** A start node that is not registered is never selected. *)
Lemma dijkstra_loop_unregistered end_node fuel :
  ~ In s (dict_keys (nodes g)) ->
  dijkstra_loop g end_node fuel (init_search g s) = init_search g s.
Proof.
  intros Hs. destruct fuel as [|fuel]; [reflexivity|]. cbn [dijkstra_loop].
  destruct (min_by _ _) as [current|] eqn:Emin; [|reflexivity].
  apply min_by_In, init_unvisited_In in Emin.
  rewrite init_dist_other; [reflexivity|]. intros ->. contradiction.
Qed.
End SearchFacts.

(** ** Dijkstra search: the path and its cost *)

Section PathFacts.
Context {env : PyEnv}.
Variable g : RoadGraph.

Lemma eqb_true (x y : Point) : eqb x y = true <-> x = y.
Proof. unfold eqb. destruct (eq_dec x y); split; congruence. Qed.

Lemma eqb_refl (x : Point) : eqb x x = true.
Proof. now apply eqb_true. Qed.

Lemma find_nearest_node_In point n :
  find_nearest_node g point = Some n -> In n (dict_keys (nodes g)).
Proof.
  unfold find_nearest_node. cbv zeta.
  assert (Hfold : forall l acc,
    (forall m, fst acc = Some m -> In m (dict_keys (nodes g))) ->
    incl l (dict_keys (nodes g)) ->
    forall m,
      fst (fold_left
             (fun (acc : option Point * dist) node =>
                if dist_ltb (Fin (calculate_distance point node)) (snd acc)
                then (Some node, Fin (calculate_distance point node)) else acc)
             l acc) = Some m ->
      In m (dict_keys (nodes g))).
  { induction l as [|x l IH]; intros acc Hacc Hincl m Hm; [now apply Hacc|].
    cbn [fold_left] in Hm.
    assert (Hl : incl l (dict_keys (nodes g))) by (intros y Hy; apply Hincl; now right).
    destruct (dist_ltb (Fin (calculate_distance point x)) (snd acc)).
    - apply (IH (Some x, Fin (calculate_distance point x))); [|exact Hl|exact Hm].
      intros m' Hm'. cbn in Hm'. injection Hm' as <-. apply Hincl. now left.
    - now apply (IH acc). }
  specialize (Hfold (dict_keys (nodes g)) (None, Inf)).
  destruct (fold_left _ _ _) as [nearest min_distance].
  destruct (dist_ltb (Fin 500) min_distance); [discriminate|].
  intros ->. apply Hfold; [discriminate|apply incl_refl|reflexivity].
Qed.

Lemma tree_path_last st s n path :
  tree_path st s n path -> exists pre, path = pre ++ [n].
Proof. intros [|m p path' _ _]; [now exists []|now exists path']. Qed.

Lemma tree_path_hd st s n path :
  tree_path st s n path -> exists tl, path = s :: tl.
Proof.
  induction 1 as [|n p path _ _ [tl ->]]; [now exists []|].
  now exists (tl ++ [n]).
Qed.

Lemma walk_back_tree st s n path :
  prev_of st s = None ->
  tree_path st s n path ->
  forall fuel acc, (List.length path <= fuel)%nat ->
    walk_back st fuel (Some n) acc = Some (path ++ acc).
Proof.
  intros Hs. induction 1 as [|n p path Hp _ IH]; intros fuel acc Hlen.
  - destruct fuel as [|fuel]; [cbn in Hlen; lia|].
    cbn [walk_back]. rewrite Hs. destruct fuel; reflexivity.
  - rewrite length_app in Hlen. cbn [List.length] in Hlen.
    destruct fuel as [|fuel]; [lia|].
    cbn [walk_back]. rewrite Hp, IH by lia. now rewrite <- app_assoc.
Qed.

Lemma path_lengths_cons a b rest :
  path_lengths g (a :: b :: rest) =
    match dict_get (edges g) (a, b), path_lengths g (b :: rest) with
    | Some e, Some ls => Some (edge_length e :: ls)
    | _, _ => None
    end.
Proof. reflexivity. Qed.

Lemma path_lengths_snoc pre : forall p n ls e,
  path_lengths g (pre ++ [p]) = Some ls ->
  dict_get (edges g) (p, n) = Some e ->
  path_lengths g ((pre ++ [p]) ++ [n]) = Some (ls ++ [edge_length e]).
Proof.
  induction pre as [|a pre IH]; intros p n ls e Hls He.
  - cbn in Hls. injection Hls as <-. cbn. now rewrite He.
  - specialize (IH p n).
    cbn [app] in *. destruct (pre ++ [p]) as [|b rest] eqn:E.
    + now destruct pre.
    + cbn [app] in *. rewrite path_lengths_cons in Hls |- *.
      destruct (dict_get (edges g) (a, b)) as [eab|]; [|discriminate].
      destruct (path_lengths g (b :: rest)) as [ls'|] eqn:El; [|discriminate].
      injection Hls as <-.
      now rewrite (IH ls' e eq_refl He).
Qed.

Lemma Qsum_snoc ls x : Qsum (ls ++ [x]) = Qsum ls + x.
Proof. unfold Qsum. now rewrite fold_left_app. Qed.

(** Along predecessor links the tentative distance is the sum, taken
    from the start node on, of the lengths of the edges walked. *)
Lemma tree_path_cost s st n path :
  search_inv g s st ->
  tree_path st s n path ->
  exists ls, path_lengths g path = Some ls /\ dist_of st n = Fin (Qsum ls).
Proof.
  intros Hinv. induction 1 as [|n p path Hp Htp (ls & Hls & Hd)].
  - exists []. split; [reflexivity|exact (inv_start_dist Hinv)].
  - destruct (inv_prev Hinv _ Hp) as (_ & _ & e & He & Heq).
    destruct (tree_path_last _ _ _ _ Htp) as [pre ->].
    exists (ls ++ [edge_length e]). split.
    + now apply path_lengths_snoc.
    + rewrite Heq, Hd, Qsum_snoc. reflexivity.
Qed.

Lemma shortest_path_unregistered s end_node :
  ~ In s (dict_keys (nodes g)) -> shortest_path g s end_node = Some None.
Proof.
  intros Hs. unfold shortest_path, dijkstra_search.
  rewrite dijkstra_loop_unregistered by exact Hs. now rewrite init_prev.
Qed.

(** A recorded predecessor of the end node yields the whole node path. *)
Lemma search_path s end_node p :
  In s (dict_keys (nodes g)) ->
  prev_of (dijkstra_search g s end_node) end_node = Some p ->
  exists path,
    tree_path (dijkstra_search g s end_node) s end_node path
    /\ walk_back (dijkstra_search g s end_node)
                 (S (List.length (dict_keys (nodes g)))) (Some end_node) [] = Some path.
Proof.
  intros Hs Hp. pose proof (dijkstra_search_inv g s end_node Hs) as Hinv.
  destruct (inv_prev Hinv _ Hp) as (Hpv & Hdp & _).
  destruct (inv_tree Hinv p Hpv Hdp) as (path & Htp & _ & Hb).
  exists (path ++ [end_node]).
  assert (Htree : tree_path (dijkstra_search g s end_node) s end_node (path ++ [end_node]))
    by now apply tree_step with (p := p).
  split; [exact Htree|].
  rewrite (walk_back_tree _ _ _ _ (inv_start_prev Hinv) Htree).
  - now rewrite app_nil_r.
  - rewrite length_app. cbn [List.length]. lia.
Qed.

Lemma shortest_path_returns s end_node : shortest_path g s end_node <> None.
Proof.
  destruct (in_dec eq_dec s (dict_keys (nodes g))) as [Hs|Hs].
  - unfold shortest_path.
    destruct (prev_of (dijkstra_search g s end_node) end_node) as [p|] eqn:Hp;
      [|discriminate].
    destruct (search_path s end_node p Hs Hp) as (path & _ & ->). discriminate.
  - rewrite shortest_path_unregistered by exact Hs. discriminate.
Qed.

Lemma shortest_path_found s end_node path cost :
  shortest_path g s end_node = Some (Some (path, cost)) ->
  In s (dict_keys (nodes g))
  /\ tree_path (dijkstra_search g s end_node) s end_node path
  /\ cost = dist_of (dijkstra_search g s end_node) end_node
  /\ prev_of (dijkstra_search g s end_node) end_node <> None.
Proof.
  intros Hsp. destruct (in_dec eq_dec s (dict_keys (nodes g))) as [Hs|Hs].
  2:{ rewrite shortest_path_unregistered in Hsp by exact Hs. discriminate. }
  unfold shortest_path in Hsp.
  destruct (prev_of (dijkstra_search g s end_node) end_node) as [p|] eqn:Hp;
    [|discriminate].
  destruct (search_path s end_node p Hs Hp) as (path' & Htp & Hwb).
  rewrite Hwb in Hsp. injection Hsp as <- <-.
  repeat split; [exact Hs|exact Htp|discriminate].
Qed.

Lemma shortest_path_cost s end_node path cost :
  shortest_path g s end_node = Some (Some (path, cost)) ->
  exists ls, path_lengths g path = Some ls /\ cost = Fin (Qsum ls).
Proof.
  intros Hsp. destruct (shortest_path_found _ _ _ _ Hsp) as (Hs & Htp & -> & _).
  apply (tree_path_cost s); [now apply dijkstra_search_inv|exact Htp].
Qed.

(** Start and end resolved to one node: the node is selected first, the
    loop stops there, and no predecessor was recorded. *)
Lemma search_same_node n fuel :
  prev_of (dijkstra_loop g n fuel (init_search g n)) n = None
  /\ dist_of (dijkstra_loop g n fuel (init_search g n)) n = Fin 0.
Proof.
  assert (Hinit : prev_of (init_search g n) n = None
                  /\ dist_of (init_search g n) n = Fin 0)
    by (split; [apply init_prev|apply init_dist_start]).
  destruct fuel as [|fuel]; [exact Hinit|]. cbn [dijkstra_loop].
  destruct (min_by _ _) as [current|]; [|exact Hinit].
  destruct (is_inf _) eqn:Einf; [exact Hinit|].
  destruct (eq_dec current n) as [->|Hne].
  - rewrite eqb_refl. exact Hinit.
  - rewrite init_dist_other in Einf by exact Hne. discriminate.
Qed.

Lemma shortest_path_same_node n : shortest_path g n n = Some None.
Proof.
  unfold shortest_path, dijkstra_search.
  now rewrite (proj1 (search_same_node n _)).
Qed.
End PathFacts.

(** ** Path reconstruction *)

Section RouteFacts.
Context {env : PyEnv}.
Variable g : RoadGraph.

Lemma fold_Qplus_acc l : forall a, fold_left Qplus l a == a + Qsum l.
Proof.
  unfold Qsum. induction l as [|x l IH]; intros a; cbn [fold_left].
  - ring.
  - rewrite (IH (a + x)), (IH (0 + x)). ring.
Qed.

Lemma Qsum_app l1 l2 : Qsum (l1 ++ l2) == Qsum l1 + Qsum l2.
Proof. unfold Qsum at 1. rewrite fold_left_app. apply fold_Qplus_acc. Qed.

Lemma Qsum_single x : Qsum [x] == x.
Proof. unfold Qsum. cbn. ring. Qed.

Lemma path_segments_cons a b rest acc :
  path_segments g (a :: b :: rest) acc =
    match dict_get (edges g) (a, b) with
    | Some edge =>
        path_segments g (b :: rest)
          (fst acc ++ [nth 1 (edge_geometry edge) b],
           snd acc ++ [mkSegment (edge_id edge) (edge_length edge) None None None])
    | None =>
        path_segments g (b :: rest)
          (fst acc ++ [b],
           snd acc ++ [mkSegment "unknown_road" (calculate_distance a b)
                                 (Some "unknown_segment") (Some a) (Some b)])
    end.
Proof. destruct acc. reflexivity. Qed.

(** On a path made of edges the loop appends one segment per edge, with
    the edge's length. *)
Lemma path_segments_lengths path : forall ls acc,
  path_lengths g path = Some ls ->
  map seg_length (snd (path_segments g path acc)) = map seg_length (snd acc) ++ ls.
Proof.
  induction path as [|a path IH]; intros ls acc Hls.
  - cbn in Hls. injection Hls as <-. cbn. now rewrite app_nil_r.
  - destruct path as [|b rest].
    + cbn in Hls. injection Hls as <-. cbn. now rewrite app_nil_r.
    + rewrite path_lengths_cons in Hls. rewrite path_segments_cons.
      destruct (dict_get (edges g) (a, b)) as [e|]; [|discriminate].
      destruct (path_lengths g (b :: rest)) as [ls'|] eqn:El; [|discriminate].
      injection Hls as <-.
      rewrite (IH ls' _ eq_refl). cbn [snd].
      rewrite map_app. cbn [map seg_length]. now rewrite <- app_assoc.
Qed.

(** The segment lengths of a reconstructed route, in order. *)
Lemma reconstruct_lengths start end_ start_node end_node path ls cost line total segs :
  path_lengths g path = Some ls ->
  reconstruct g start end_ start_node end_node path cost = (Some line, total, segs) ->
  total = dist_add (dist_add (Fin (calculate_distance start start_node)) cost)
                   (Fin (calculate_distance end_node end_))
  /\ map seg_length segs =
       (if negb (eqb start start_node) && Qltb 0 (calculate_distance start start_node)
        then [calculate_distance start start_node] else [])
       ++ ls
       ++ (if negb (eqb end_ end_node) && Qltb 0 (calculate_distance end_node end_)
           then [calculate_distance end_node end_] else []).
Proof.
  intros Hls. unfold reconstruct.
  match goal with
  | |- context [path_segments g path ?acc] =>
      pose proof (path_segments_lengths path ls acc Hls) as Hseg;
      destruct (path_segments g path acc) as [lc rs]
  end.
  cbn [snd] in Hseg. intros Heq. injection Heq as _ <- <-.
  split; [reflexivity|].
  destruct (negb (eqb end_ end_node) && Qltb 0 (calculate_distance end_node end_)).
  - rewrite map_app, Hseg. cbn [map seg_length].
    destruct (negb (eqb start start_node) && Qltb 0 _); cbn [map seg_length];
      now rewrite <- app_assoc.
  - rewrite Hseg, app_nil_r.
    destruct (negb (eqb start start_node) && Qltb 0 _); reflexivity.
Qed.

(** A leg off the road network counts in the segment list exactly when
    it has positive length; a leg of length zero adds nothing to a sum. *)
Lemma leg_sum (a b : Point) (d : Q) :
  0 <= d -> (a = b -> d == 0) ->
  Qsum (if negb (eqb a b) && Qltb 0 d then [d] else []) == d.
Proof.
  intros Hnn Hself. destruct (negb (eqb a b)) eqn:Eab; cbn [andb].
  - destruct (Qltb 0 d) eqn:Ed; [apply Qsum_single|].
    apply Qltb_ge in Ed. unfold Qsum. cbn. now apply Qle_antisym.
  - apply negb_false_iff, eqb_true in Eab.
    unfold Qsum. cbn. symmetry. now apply Hself.
Qed.

Lemma dijkstra_found start end_ line total segs :
  dijkstra g start end_ = Some (Some line, total, segs) ->
  exists start_node end_node path cost,
    find_nearest_node g start = Some start_node
    /\ find_nearest_node g end_ = Some end_node
    /\ shortest_path g start_node end_node = Some (Some (path, cost))
    /\ reconstruct g start end_ start_node end_node path cost = (Some line, total, segs).
Proof.
  unfold dijkstra.
  destruct (find_nearest_node g start) as [start_node|]; [|discriminate].
  destruct (find_nearest_node g end_) as [end_node|]; [|discriminate].
  destruct (shortest_path g start_node end_node) as [[[path cost]|]|] eqn:Esp;
    [|discriminate..].
  intros [= Hrec]. exists start_node, end_node, path, cost. auto.
Qed.

Lemma dijkstra_returns start end_ : dijkstra g start end_ <> None.
Proof.
  unfold dijkstra.
  destruct (find_nearest_node g start) as [start_node|]; [|discriminate].
  destruct (find_nearest_node g end_) as [end_node|]; [|discriminate].
  pose proof (shortest_path_returns g start_node end_node) as Hret.
  destruct (shortest_path g start_node end_node) as [[[path cost]|]|];
    [discriminate..|contradiction].
Qed.
End RouteFacts.

(** ** Reading the request *)

Section RequestFacts.
Context {env : PyEnv}.

Lemma float_of_Some v x : float_of v = Some x <-> float_result v = inl x.
Proof.
  unfold float_of. destruct (float_result v) as [y|e]; split; intros H;
    try discriminate H; injection H as ->; reflexivity.
Qed.

Lemma float_of_not_null v x : float_of v = Some x -> is_null v = false.
Proof. destruct v; try reflexivity. discriminate. Qed.

Lemma plan_route_not_null data slon slat elon elat :
  float_of (start_lon data) = Some slon -> float_of (start_lat data) = Some slat ->
  float_of (end_lon data) = Some elon -> float_of (end_lat data) = Some elat ->
  is_null (start_lon data) || is_null (start_lat data)
  || is_null (end_lon data) || is_null (end_lat data) = false.
Proof.
  intros H1 H2 H3 H4.
  now rewrite (float_of_not_null _ _ H1), (float_of_not_null _ _ H2),
    (float_of_not_null _ _ H3), (float_of_not_null _ _ H4).
Qed.
End RequestFacts.

(** ** Reading rows *)

Section RowFacts.
Context {env : PyEnv}.

Lemma build_rows_app pre rest : forall g0 g,
  build_rows g0 pre = Built g -> build_rows g0 (pre ++ rest) = build_rows g rest.
Proof.
  induction pre as [|row pre IH]; intros g0 g Hpre.
  - cbn in Hpre. injection Hpre as ->. reflexivity.
  - cbn [app build_rows] in *.
    destruct (parse_wkt (row_wkt row)) as [tuples|]; [|discriminate].
    destruct (as_points tuples) as [coords_list|]; [|discriminate].
    now apply IH.
Qed.

(** On rows that all parse into pairs, [build_graph] is the build over
    the parsed road records. *)
Lemma build_rows_parsed rows : forall roads g0,
  Forall2 (fun row road => parse_row row = Some road) rows roads ->
  build_rows g0 rows = Built (fold_left add_road roads g0).
Proof.
  induction rows as [|row rows IH]; intros roads g0 Hall;
    inversion Hall as [|? road ? roads' Hrow Hrest]; subst; [reflexivity|].
  cbn [build_rows fold_left]. unfold parse_row in Hrow.
  destruct (parse_wkt (row_wkt row)) as [tuples|]; [|discriminate].
  destruct (as_points tuples) as [coords_list|]; [|discriminate].
  injection Hrow as <-. now apply IH.
Qed.

Lemma build_graph_parsed rows roads :
  Forall2 (fun row road => parse_row row = Some road) rows roads ->
  build_graph rows = Built (build_graph_from roads).
Proof. apply build_rows_parsed. Qed.
End RowFacts.

(** ** The statements about routes, errors and rebuilds *)

Section RouteClaims.
Context {env : PyEnv}.

(** C1.  Whenever the search returns a node path from [start_node] to
    [end_node], every two consecutive nodes of the path are joined by an
    edge of the graph and the reported cost [distances[end_node]] is the
    sum of the lengths of these edges, added up from the start node on.
    This holds for every graph, whatever the sign of its edge lengths. *)
Theorem dijkstra_cost_is_path_sum g start_node end_node path cost :
  shortest_path g start_node end_node = Some (Some (path, cost)) ->
  exists ls mid,
    path = start_node :: mid ++ [end_node]
    /\ path_lengths g path = Some ls
    /\ cost = Fin (Qsum ls).
Proof.
  intros Hsp.
  destruct (shortest_path_cost g _ _ _ _ Hsp) as (ls & Hls & Hcost).
  destruct (shortest_path_found g _ _ _ _ Hsp) as (Hs & Htp & _ & Hprev).
  pose proof (dijkstra_search_inv g start_node end_node Hs) as Hinv.
  exists ls.
  assert (Hmid : exists mid, path = start_node :: mid ++ [end_node]).
  { inversion Htp as [Heq|n p path' Hp Htp' Hn Hpath]; subst.
    - exfalso. apply Hprev. exact (inv_start_prev Hinv).
    - destruct (tree_path_hd _ _ _ _ Htp') as [tl ->]. now exists tl. }
  destruct Hmid as [mid Hmid]. exists mid. auto.
Qed.

(** C2.  For every route that [dijkstra] returns, with geopy's distance
    non-negative and zero from a point to itself, the total distance is
    the distance from the start point to its node, plus the search cost
    at the end node, plus the distance from the end node to the end
    point; and, metre values being exact, that number is the sum of the
    lengths of the returned segments. *)
Theorem route_total_is_segment_sum g start end_ line total segs :
  (forall p q, 0 <= calculate_distance p q) ->
  (forall p, calculate_distance p p == 0) ->
  dijkstra g start end_ = Some (Some line, total, segs) ->
  exists start_node end_node path cost,
    find_nearest_node g start = Some start_node
    /\ find_nearest_node g end_ = Some end_node
    /\ shortest_path g start_node end_node = Some (Some (path, Fin cost))
    /\ total = Fin (calculate_distance start start_node + cost
                    + calculate_distance end_node end_)
    /\ calculate_distance start start_node + cost + calculate_distance end_node end_
       == Qsum (map seg_length segs).
Proof.
  intros Hnn Hself Hd.
  destruct (dijkstra_found g _ _ _ _ _ Hd)
    as (start_node & end_node & path & cost & Hs & He & Hsp & Hrec).
  destruct (shortest_path_cost g _ _ _ _ Hsp) as (ls & Hls & ->).
  destruct (reconstruct_lengths g _ _ _ _ _ _ _ _ _ _ Hls Hrec) as [-> Hsegs].
  exists start_node, end_node, path, (Qsum ls).
  repeat split; try assumption.
  rewrite Hsegs, !Qsum_app.
  rewrite (leg_sum start start_node), (leg_sum end_ end_node).
  - ring.
  - apply Hnn.
  - intros ->. apply Hself.
  - apply Hnn.
  - intros ->. apply Hself.
Qed.

(** C5, on the code.  When the start point and the end point resolve to
    the same graph node, the search leaves that node with distance 0 and
    without predecessor, and [dijkstra] returns its "no path" value. *)
Theorem same_node_no_path g start end_ n :
  find_nearest_node g start = Some n ->
  find_nearest_node g end_ = Some n ->
  dist_of (dijkstra_search g n n) n = Fin 0
  /\ dijkstra g start end_ = Some no_route.
Proof.
  intros Hs He. split.
  - apply search_same_node.
  - unfold dijkstra. rewrite Hs, He. now rewrite shortest_path_same_node.
Qed.


(** C7 (as amended).  [build_graph] has no handler around the parsing of
    a row.  At the first row whose text [float] rejects, the rebuild
    stops with the [ValueError]: the graph holds what the rows before it
    contributed, and no later row is processed. *)
Theorem build_stops_at_malformed_row pre bad post g :
  build_graph pre = Built g ->
  parse_wkt (row_wkt bad) = None ->
  build_graph (pre ++ bad :: post) = RaisedValueError g.
Proof.
  intros Hpre Hbad. unfold build_graph in *.
  rewrite (build_rows_app pre (bad :: post) empty_graph g Hpre).
  cbn [build_rows]. now rewrite Hbad.
Qed.
End RouteClaims.

(** * Further properties *)

(** ** Loops that keep the first nearest element *)

Section ScanFacts.
Context {A : Type} (key : A -> Q) (okb : A -> bool).

Let ok (x : A) : Prop := okb x = true.

Lemma scan_from_some l : forall pre n post,
  ok n ->
  (forall m, In m pre -> ok m -> key n < key m) ->
  (forall m, In m post -> ok m -> key n <= key m) ->
  exists n',
    fold_left (scan_step key okb) l (Fin (key n), Some n) = (Fin (key n'), Some n')
    /\ first_least key ok (pre ++ n :: post ++ l) n'.
Proof.
  induction l as [|x l IH]; intros pre n post Hn Hpre Hpost.
  - exists n. split; [reflexivity|]. rewrite app_nil_r.
    split; [exact Hn|]. exists pre, post. auto.
  - cbn [fold_left]. unfold scan_step at 2. cbn [fst dist_ltb].
    destruct (Qltb (key x) (key n)) eqn:Elt; [destruct (okb x) eqn:Eok|]; cbn [andb].
    + apply Qltb_lt in Elt.
      destruct (IH (pre ++ n :: post) x [] Eok) as (n' & Hfold & Hleast).
      * intros m Hm Hokm. apply in_app_or in Hm. destruct Hm as [Hm|[<-|Hm]].
        -- eapply Qlt_trans; [exact Elt|]. now apply Hpre.
        -- exact Elt.
        -- eapply Qlt_le_trans; [exact Elt|]. now apply Hpost.
      * intros m [].
      * exists n'. split; [exact Hfold|].
        cbn [app] in Hleast. now rewrite <- app_assoc in Hleast.
    + destruct (IH pre n (post ++ [x]) Hn Hpre) as (n' & Hfold & Hleast).
      * intros m Hm Hokm. apply in_app_or in Hm. destruct Hm as [Hm|[<-|[]]].
        -- now apply Hpost.
        -- unfold ok in Hokm. congruence.
      * exists n'. split; [exact Hfold|].
        now rewrite <- app_assoc in Hleast.
    + apply Qltb_ge in Elt.
      destruct (IH pre n (post ++ [x]) Hn Hpre) as (n' & Hfold & Hleast).
      * intros m Hm Hokm. apply in_app_or in Hm. destruct Hm as [Hm|[<-|[]]].
        -- now apply Hpost.
        -- exact Elt.
      * exists n'. split; [exact Hfold|].
        now rewrite <- app_assoc in Hleast.
Qed.

Lemma scan_from_none l : forall pre,
  (forall m, In m pre -> okb m = false) ->
  (fold_left (scan_step key okb) l (Inf, None) = (Inf, None)
   /\ forall m, In m (pre ++ l) -> okb m = false)
  \/ exists n,
       fold_left (scan_step key okb) l (Inf, None) = (Fin (key n), Some n)
       /\ first_least key ok (pre ++ l) n.
Proof.
  induction l as [|x l IH]; intros pre Hpre.
  - left. split; [reflexivity|]. now rewrite app_nil_r.
  - cbn [fold_left]. unfold scan_step at 2 4. cbn [fst dist_ltb andb].
    destruct (okb x) eqn:Eok.
    + right. destruct (scan_from_some l pre x [] Eok) as (n' & Hfold & Hleast).
      * intros m Hm Hokm. unfold ok in Hokm. rewrite (Hpre m Hm) in Hokm. discriminate.
      * intros m [].
      * exists n'. split; [exact Hfold|exact Hleast].
    + destruct (IH (pre ++ [x])) as [[Hfold Hall]|(n & Hfold & Hleast)].
      * intros m Hm. apply in_app_or in Hm. destruct Hm as [Hm|[<-|[]]]; auto.
      * left. split; [exact Hfold|]. now rewrite <- app_assoc in Hall.
      * right. exists n. split; [exact Hfold|]. now rewrite <- app_assoc in Hleast.
Qed.

(** What the loop returns, from its initial state. *)
Lemma scan_result l :
  (fold_left (scan_step key okb) l (Inf, None) = (Inf, None)
   /\ forall m, In m l -> okb m = false)
  \/ exists n,
       fold_left (scan_step key okb) l (Inf, None) = (Fin (key n), Some n)
       /\ first_least key ok l n.
Proof. apply (scan_from_none l []). intros m []. Qed.

Lemma first_least_le (P : A -> Prop) l n m :
  first_least key P l n -> In m l -> P m -> key n <= key m.
Proof.
  intros (_ & pre & post & -> & Hpre & Hpost) Hm HP.
  apply in_app_or in Hm. destruct Hm as [Hm|[<-|Hm]].
  - apply Qlt_le_weak. now apply Hpre.
  - apply Qle_refl.
  - now apply Hpost.
Qed.

Lemma first_least_In (P : A -> Prop) l n : first_least key P l n -> In n l.
Proof.
  intros (_ & pre & post & -> & _). apply in_or_app. right. now left.
Qed.

Lemma first_least_unique (P : A -> Prop) l n n' :
  first_least key P l n -> first_least key P l n' -> n = n'.
Proof.
  intros (Hn & pre & post & Hl & Hpre & Hpost) (Hn' & pre' & post' & Hl' & Hpre' & Hpost').
  assert (Hnth : nth_error l (List.length pre) = Some n).
  { rewrite Hl, nth_error_app2, Nat.sub_diag by lia. reflexivity. }
  assert (Hnth' : nth_error l (List.length pre') = Some n').
  { rewrite Hl', nth_error_app2, Nat.sub_diag by lia. reflexivity. }
  destruct (Nat.lt_trichotomy (List.length pre) (List.length pre')) as [Hlt|[Heq|Hlt]].
  - exfalso.
    assert (Hin : In n pre').
    { rewrite Hl', nth_error_app1 in Hnth by exact Hlt. eapply nth_error_In; eauto. }
    assert (Hin' : In n' post).
    { rewrite Hl, nth_error_app2 in Hnth' by lia.
      destruct (List.length pre' - List.length pre)%nat as [|k] eqn:Ek; [lia|].
      cbn in Hnth'. eapply nth_error_In; eauto. }
    apply (Qlt_not_le _ _ (Hpre' n Hin Hn)). now apply Hpost.
  - rewrite Heq in Hnth. congruence.
  - exfalso.
    assert (Hin : In n' pre).
    { rewrite Hl, nth_error_app1 in Hnth' by exact Hlt. eapply nth_error_In; eauto. }
    assert (Hin' : In n post').
    { rewrite Hl', nth_error_app2 in Hnth by lia.
      destruct (List.length pre - List.length pre')%nat as [|k] eqn:Ek; [lia|].
      cbn in Hnth. eapply nth_error_In; eauto. }
    apply (Qlt_not_le _ _ (Hpre n' Hin Hn')). now apply Hpost'.
Qed.
Lemma first_least_ext (P P' : A -> Prop) l n :
  (forall x, P x <-> P' x) -> first_least key P l n -> first_least key P' l n.
Proof.
  intros Hext (Hn & pre & post & Hl & Hpre & Hpost).
  split; [now apply Hext|]. exists pre, post. split; [exact Hl|].
  split; intros m Hm HP; [apply Hpre|apply Hpost]; auto; now apply Hext.
Qed.

Lemma scan_some_iff l n :
  snd (fold_left (scan_step key okb) l (Inf, None)) = Some n <-> first_least key ok l n.
Proof.
  destruct (scan_result l) as [[Hfold Hall]|(n' & Hfold & Hleast)]; rewrite Hfold; cbn [snd].
  - split; [discriminate|]. intros Hl.
    pose proof (first_least_In _ _ _ Hl) as Hin. destruct Hl as [Hl _].
    unfold ok in Hl. rewrite (Hall n Hin) in Hl. discriminate.
  - split.
    + intros [= <-]. exact Hleast.
    + intros Hl. f_equal. eapply first_least_unique; eauto.
Qed.

Lemma scan_none_iff l :
  snd (fold_left (scan_step key okb) l (Inf, None)) = None
  <-> forall m, In m l -> okb m = false.
Proof.
  destruct (scan_result l) as [[Hfold Hall]|(n' & Hfold & Hleast)]; rewrite Hfold; cbn [snd].
  - split; [intros _; exact Hall|reflexivity].
  - split; [discriminate|]. intros Hall. exfalso.
    pose proof (first_least_In _ _ _ Hleast) as Hin. destruct Hleast as [Hn _].
    unfold ok in Hn. rewrite (Hall n' Hin) in Hn. discriminate.
Qed.
End ScanFacts.

(** ** Nearest node and nearest location *)

Section NearestFacts.
Context {env : PyEnv}.

(** The loop of [find_nearest_node] keeps its state as
    [(nearest_node, min_distance)]. *)
Lemma nearest_node_scan point l : forall nearest min_distance,
  fold_left
    (fun (acc : option Point * dist) node =>
       let distance := Fin (calculate_distance point node) in
       if dist_ltb distance (snd acc) then (Some node, distance) else acc)
    l (nearest, min_distance)
  = (snd (fold_left (scan_step (calculate_distance point) (fun _ => true)) l
                    (min_distance, nearest)),
     fst (fold_left (scan_step (calculate_distance point) (fun _ => true)) l
                    (min_distance, nearest))).
Proof.
  induction l as [|x l IH]; intros nearest min_distance; [reflexivity|].
  cbn [fold_left]. cbv zeta. unfold scan_step at 2 4. cbn [fst snd].
  rewrite andb_true_r.
  destruct (dist_ltb (Fin (calculate_distance point x)) min_distance); apply IH.
Qed.

Lemma find_nearest_node_unfold g point :
  find_nearest_node g point =
    let r := fold_left (scan_step (calculate_distance point) (fun _ => true))
                       (dict_keys (nodes g)) (Inf, None) in
    if dist_ltb (Fin 500) (fst r) then None else snd r.
Proof.
  unfold find_nearest_node. cbv zeta. now rewrite nearest_node_scan.
Qed.

(** X1.  [find_nearest_node] returns a node exactly when that node is the
    first node, in registration order, of least distance to the point and
    that distance is at most 500 m. *)
Theorem find_nearest_node_first_least g point n :
  find_nearest_node g point = Some n
  <-> first_least (calculate_distance point) (fun _ => True) (dict_keys (nodes g)) n
      /\ calculate_distance point n <= 500.
Proof.
  rewrite find_nearest_node_unfold. cbv zeta.
  destruct (scan_result (calculate_distance point) (fun _ => true) (dict_keys (nodes g)))
    as [[Hfold Hall]|(n' & Hfold & Hleast)]; rewrite Hfold; cbn [fst snd dist_ltb].
  - split; [discriminate|]. intros [Hl _]. apply first_least_In in Hl.
    specialize (Hall n Hl). discriminate.
  - assert (Hleast' : first_least (calculate_distance point) (fun _ => True)
                                  (dict_keys (nodes g)) n').
    { destruct Hleast as (_ & pre & post & Hl & Hpre & Hpost).
      split; [exact I|]. exists pre, post. repeat split; auto. }
    destruct (Qltb 500 (calculate_distance point n')) eqn:E.
    + split; [discriminate|]. intros [Hl Hd].
      rewrite (first_least_unique _ _ _ _ _ Hl Hleast') in Hd.
      apply Qltb_lt in E. exfalso. eapply Qlt_not_le; eauto.
    + apply Qltb_ge in E. split.
      * intros [= <-]. split; assumption.
      * intros [Hl _]. f_equal. eapply first_least_unique; eauto.
Qed.

(** X2.  [find_nearest_node] returns [None] exactly when every node of the
    graph is more than 500 m from the point, in particular on an empty
    graph. *)
Theorem find_nearest_node_none g point :
  find_nearest_node g point = None
  <-> forall m, In m (dict_keys (nodes g)) -> 500 < calculate_distance point m.
Proof.
  rewrite find_nearest_node_unfold. cbv zeta.
  destruct (scan_result (calculate_distance point) (fun _ => true) (dict_keys (nodes g)))
    as [[Hfold Hall]|(n' & Hfold & Hleast)]; rewrite Hfold; cbn [fst snd dist_ltb].
  - split; [|reflexivity]. intros _ m Hm. specialize (Hall m Hm). discriminate.
  - destruct (Qltb 500 (calculate_distance point n')) eqn:E.
    + apply Qltb_lt in E. split; [|reflexivity]. intros _ m Hm.
      eapply Qlt_le_trans; [exact E|].
      apply (first_least_le _ _ _ _ _ Hleast Hm). reflexivity.
    + apply Qltb_ge in E. split; [discriminate|]. intros Hall. exfalso.
      apply (Qlt_not_le _ _ (Hall n' (first_least_In _ _ _ _ Hleast))). exact E.
Qed.

Lemma find_nearest_location_unfold point locations max_dist :
  find_nearest_location point locations max_dist =
    snd (fold_left (scan_step (loc_distance point)
                              (fun loc => Qle_bool (loc_distance point loc) max_dist))
                   locations (Inf, None)).
Proof. reflexivity. Qed.

(** X3.  [find_nearest_location] returns a location exactly when it is the
    first location of the list of least distance among those at most
    [max_dist] from the point; it returns [None] exactly when every
    location is farther than [max_dist]. *)
Theorem find_nearest_location_first_least point locations max_dist :
  (forall loc,
     find_nearest_location point locations max_dist = Some loc
     <-> first_least (loc_distance point) (fun l => loc_distance point l <= max_dist)
                     locations loc)
  /\ (find_nearest_location point locations max_dist = None
      <-> forall loc, In loc locations -> max_dist < loc_distance point loc).
Proof.
  rewrite find_nearest_location_unfold. split.
  - intros loc. rewrite scan_some_iff.
    split; apply first_least_ext; intros x; [|symmetry]; apply Qle_bool_iff.
  - rewrite scan_none_iff. split; intros Hall loc Hin.
    + apply Qnot_le_lt. intros Hle. apply Qle_bool_iff in Hle.
      rewrite (Hall loc Hin) in Hle. discriminate.
    + destruct (Qle_bool (loc_distance point loc) max_dist) eqn:E; [|reflexivity].
      apply Qle_bool_iff in E. exfalso.
      apply (Qlt_not_le _ _ (Hall loc Hin)). exact E.
Qed.

(** X4.  A location found with a smaller bound is the one found with a
    larger bound: in [plan_route], when there is a location within 50 m
    of a point, the search within 500 m returns the same location. *)
Theorem find_nearest_location_widen point locations small large loc :
  small <= large ->
  find_nearest_location point locations small = Some loc ->
  find_nearest_location point locations large = Some loc.
Proof.
  intros Hle. rewrite !find_nearest_location_unfold, !scan_some_iff.
  intros (Hn & pre & post & Hl & Hpre & Hpost).
  apply Qle_bool_iff in Hn.
  assert (Hlarge : loc_distance point loc <= large) by (eapply Qle_trans; eauto).
  split; [now apply Qle_bool_iff|]. exists pre, post. split; [exact Hl|].
  assert (Hcase : forall m, Qle_bool (loc_distance point m) small = true
                            \/ small < loc_distance point m).
  { intros m. destruct (Qlt_le_dec small (loc_distance point m)); [now right|].
    left. now apply Qle_bool_iff. }
  split; intros m Hm _.
  - destruct (Hcase m) as [Hs|Hs]; [now apply Hpre|].
    now apply Qle_lt_trans with small.
  - destruct (Hcase m) as [Hs|Hs]; [now apply Hpost|].
    apply Qlt_le_weak. now apply Qle_lt_trans with small.
Qed.
End NearestFacts.

(** ** More about the built graph *)

Section BuildMore.
Context {env : PyEnv}.

Lemma compute_segment_lengths_cons a b rest :
  compute_segment_lengths (a :: b :: rest) =
    calculate_distance a b :: compute_segment_lengths (b :: rest).
Proof. reflexivity. Qed.

Lemma compute_segment_lengths_length coords :
  List.length (compute_segment_lengths coords) = (List.length coords - 1)%nat.
Proof.
  induction coords as [|a coords IH]; [reflexivity|].
  destruct coords as [|b rest]; [reflexivity|].
  rewrite compute_segment_lengths_cons. cbn [List.length] in *. lia.
Qed.

Lemma compute_segment_lengths_nth coords : forall i a b,
  nth_error coords i = Some a -> nth_error coords (S i) = Some b ->
  nth_error (compute_segment_lengths coords) i = Some (calculate_distance a b).
Proof.
  induction coords as [|a coords IH]; [intros [|i] ? ?; discriminate|].
  destruct coords as [|b rest].
  - intros [|i] x y Hx Hy; [discriminate|]. now destruct i.
  - rewrite compute_segment_lengths_cons. intros [|i] x y Hx Hy.
    + cbn in Hx, Hy. injection Hx as <-. injection Hy as <-. reflexivity.
    + cbn [nth_error]. apply IH; assumption.
Qed.

(** X5.  [compute_segment_lengths] returns one length per consecutive pair
    of coordinates, none for fewer than two coordinates, and entry [i] is
    the distance from coordinate [i] to coordinate [i + 1]. *)
Theorem compute_segment_lengths_entries coords :
  List.length (compute_segment_lengths coords) = (List.length coords - 1)%nat
  /\ forall i a b,
       nth_error coords i = Some a -> nth_error coords (S i) = Some b ->
       nth_error (compute_segment_lengths coords) i = Some (calculate_distance a b).
Proof.
  split; [apply compute_segment_lengths_length|apply compute_segment_lengths_nth].
Qed.

Lemma nth_error_some_lt {A : Type} (l : list A) i x :
  nth_error l i = Some x -> (i < List.length l)%nat.
Proof. intros H. apply nth_error_Some. congruence. Qed.

Lemma nth_error_lt_some {A : Type} (l : list A) i :
  (i < List.length l)%nat -> exists x, nth_error l i = Some x.
Proof.
  intros H. destruct (nth_error l i) eqn:E; [eauto|].
  apply nth_error_None in E. lia.
Qed.

(** Where an edge of the built graph comes from. *)
Lemma build_edge_origin roads a b e :
  dict_get (edges (build_graph_from roads)) (a, b) = Some e ->
  exists pre road post j u v,
    roads = pre ++ road :: post
    /\ nth_error (snapped_of (build_graph_from pre) road) j = Some u
    /\ nth_error (snapped_of (build_graph_from pre) road) (S j) = Some v
    /\ edge_id e = road_id road
    /\ edge_length e = segment_length (length_m road) j u v
    /\ (((a, b) = (u, v) /\ edge_geometry e = [u; v])
        \/ ((a, b) = (v, u) /\ edge_geometry e = [v; u] /\ is_oneway road = false)).
Proof.
  intros Hget. unfold build_graph_from in Hget.
  rewrite build_edges_get in Hget. cbn [edges empty_graph dict_get] in Hget.
  destruct (last_write (a, b) (build_writes empty_graph roads)) as [e'|] eqn:E;
    [|discriminate].
  injection Hget as ->. apply last_write_In in E.
  destruct (build_writes_origin _ _ _ E) as (pre & road & post & Hroads & Hin).
  destruct (road_writes_origin _ _ _ _ Hin) as (j & u & v & Hu & Hv & Hid & Hlen & Hkey).
  exists pre, road, post, j, u, v. unfold build_graph_from.
  unfold write_key in Hkey. cbn [fst snd Nat.add] in *.
  repeat split; assumption.
Qed.

Lemma build_edge_nonneg roads k e :
  (forall p q, 0 <= calculate_distance p q) ->
  (forall road l x, In road roads -> length_m road = Some l -> In x l -> 0 <= x) ->
  dict_get (edges (build_graph_from roads)) k = Some e ->
  0 <= edge_length e.
Proof.
  intros Hnn Hlens Hget. destruct k as [a b].
  destruct (build_edge_origin _ _ _ _ Hget)
    as (pre & road & post & j & u & v & -> & _ & _ & _ & Hlen & _).
  rewrite Hlen, segment_length_spec.
  destruct (length_m road) as [l|] eqn:El; [|apply Hnn].
  destruct (nth_error l j) as [x|] eqn:Ex; [|apply Hnn].
  apply (Hlens road l x); [apply in_or_app; right; now left|exact El|].
  eapply nth_error_In; eauto.
Qed.

(** X6.  When every road carries the lengths that
    [compute_segment_lengths] gives for its own coordinates, as the
    create and edit handlers store them, every edge of the built graph
    has the distance between two consecutive raw coordinates of its road
    as length, wherever these coordinates were snapped to. *)
Theorem build_lengths_from_raw_coordinates roads a b e :
  (forall road, In road roads ->
     length_m road = Some (compute_segment_lengths (road_coords road))) ->
  dict_get (edges (build_graph_from roads)) (a, b) = Some e ->
  exists road i p q,
    In road roads
    /\ edge_id e = road_id road
    /\ nth_error (road_coords road) i = Some p
    /\ nth_error (road_coords road) (S i) = Some q
    /\ edge_length e = calculate_distance p q.
Proof.
  intros Hlens Hget.
  destruct (build_edge_origin _ _ _ _ Hget)
    as (pre & road & post & j & u & v & -> & Hu & Hv & Hid & Hlen & _).
  assert (Hin : In road (pre ++ road :: post)) by (apply in_or_app; right; now left).
  apply nth_error_some_lt in Hv. unfold snapped_of in Hv.
  rewrite snap_coords_length in Hv.
  destruct (nth_error_lt_some (road_coords road) (S j) Hv) as [q Hq].
  destruct (nth_error_lt_some (road_coords road) j) as [p Hp]; [lia|].
  exists road, j, p, q. repeat split; try assumption.
  rewrite Hlen, segment_length_spec, (Hlens road Hin).
  now rewrite (compute_segment_lengths_nth (road_coords road) j p q Hp Hq).
Qed.

Lemma count_writes_zero key ws :
  count_writes key ws = 0%nat <-> last_write key ws = None.
Proof.
  rewrite last_write_None. induction ws as [|w ws IH].
  - split; [intros _ w []|reflexivity].
  - rewrite count_writes_cons. destruct (eq_dec (write_key w) key) as [Heq|Hne].
    + split; [discriminate|]. intros Hall. exfalso. apply (Hall w); [now left|exact Heq].
    + cbn [Nat.add]. rewrite IH. split.
      * intros Hall w' [<-|Hw']; auto.
      * intros Hall w' Hw'. apply Hall. now right.
Qed.

Lemma build_adjacent_iff_edge roads a b :
  In b (adjacency (nodes (build_graph_from roads)) a)
  <-> In (a, b) (dict_keys (edges (build_graph_from roads))).
Proof.
  rewrite (count_occ_In eq_dec). unfold build_graph_from.
  rewrite build_adjacency_count.
  change (count_occ eq_dec (adjacency (nodes empty_graph) a) b) with 0%nat.
  cbn [Nat.add]. split.
  - intros Hpos.
    destruct (last_write (a, b) (build_writes empty_graph roads)) as [e|] eqn:E.
    + apply dict_get_In with (v := e). rewrite build_edges_get. now rewrite E.
    + apply count_writes_zero in E. lia.
  - intros Hin. destruct (dict_In_get _ _ Hin) as [e He].
    rewrite build_edges_get in He. cbn [edges empty_graph dict_get] in He.
    destruct (last_write (a, b) (build_writes empty_graph roads)) as [e'|] eqn:E;
      [|discriminate].
    destruct (count_writes (a, b) (build_writes empty_graph roads)) eqn:Ec; [|lia].
    apply count_writes_zero in Ec. congruence.
Qed.

(** X7.  In the graph built from any road records the adjacency lists and
    the edge mapping agree: [b] is listed as a neighbour of [a] exactly
    when [(a, b)] is a key of the edge mapping, and the geometry stored
    with an edge is the pair of its key. *)
Theorem build_adjacency_matches_edges roads a b :
  let g := build_graph_from roads in
  (In b (adjacency (nodes g) a) <-> In (a, b) (dict_keys (edges g)))
  /\ (forall e, dict_get (edges g) (a, b) = Some e -> edge_geometry e = [a; b]).
Proof.
  cbv zeta. split; [apply build_adjacent_iff_edge|].
  intros e Hget.
  destruct (build_edge_origin _ _ _ _ Hget)
    as (pre & road & post & j & u & v & _ & _ & _ & _ & _ & Hkey).
  destruct Hkey as [[Hk Hg]|[Hk [Hg _]]]; injection Hk as -> ->; exact Hg.
Qed.

Lemma add_edge_pair_mirrored g u v rid len :
  mirrored g -> mirrored (add_edge (add_edge g u v rid len) v u rid len).
Proof.
  intros Hm a b e. cbn [add_edge edges].
  destruct (eq_dec (v, u) (a, b)) as [Hvu|Hvu].
  - injection Hvu as <- <-. rewrite dict_get_set_eq. intros [= <-].
    destruct (eq_dec (v, u) (u, v)) as [Heq|Hne].
    + rewrite <- Heq, dict_get_set_eq. eauto.
    + rewrite dict_get_set_neq by exact Hne. rewrite dict_get_set_eq. eauto.
  - rewrite dict_get_set_neq by exact Hvu.
    destruct (eq_dec (u, v) (a, b)) as [Huv|Huv].
    + injection Huv as <- <-. rewrite dict_get_set_eq. intros [= <-].
      rewrite dict_get_set_eq. eauto.
    + rewrite dict_get_set_neq by exact Huv. intros Hget.
      destruct (Hm a b e Hget) as (e' & He' & Hid & Hlen).
      exists e'. repeat split; try assumption.
      rewrite !dict_get_set_neq; [exact He'| |]; congruence.
Qed.

Lemma link_segments_mirrored road sn : forall g i,
  is_oneway road = false -> mirrored g -> mirrored (link_segments g road i sn).
Proof.
  induction sn as [|s rest IH]; intros g i Ho Hm; [exact Hm|].
  destruct rest as [|e rest']; [exact Hm|].
  rewrite link_segments_cons. cbv zeta. rewrite Ho.
  apply IH; [exact Ho|]. now apply add_edge_pair_mirrored.
Qed.

Lemma build_mirrored roads :
  (forall road, In road roads -> is_oneway road = false) ->
  mirrored (build_graph_from roads).
Proof.
  intros Hall. unfold build_graph_from.
  assert (Hgen : forall g, mirrored g -> mirrored (fold_left add_road roads g)).
  { induction roads as [|road roads IH]; intros g Hm; [exact Hm|].
    cbn [fold_left]. apply IH.
    - intros r Hr. apply Hall. now right.
    - unfold add_road.
      destruct (snap_coords (nodes g) (road_coords road)) as [nds sn].
      apply link_segments_mirrored; [apply Hall; now left|exact Hm]. }
  apply Hgen. intros a b e Hget. discriminate.
Qed.

(** X8.  When every road is two-way, every edge of the built graph has a
    reverse edge with the same road id and the same length, also where
    later roads have overwritten earlier edges. *)
Theorem build_two_way_mirrored roads a b e :
  (forall road, In road roads -> is_oneway road = false) ->
  dict_get (edges (build_graph_from roads)) (a, b) = Some e ->
  exists e', dict_get (edges (build_graph_from roads)) (b, a) = Some e'
             /\ edge_id e' = edge_id e /\ edge_length e' = edge_length e.
Proof.
  intros Hall. exact (build_mirrored roads Hall a b e).
Qed.

(** X9.  A road with fewer than two coordinates adds no edge and no
    neighbour: the edge mapping and all adjacency lists stay as they
    were; its coordinate, if it has one, is still snapped and may become
    a node. *)
Theorem add_road_short g road :
  (List.length (road_coords road) < 2)%nat ->
  edges (add_road g road) = edges g
  /\ (forall u, adjacency (nodes (add_road g road)) u = adjacency (nodes g) u)
  /\ nodes (add_road g road) = fst (snap_coords (nodes g) (road_coords road)).
Proof.
  intros Hlen. unfold add_road.
  pose proof (snap_coords_length (nodes g) (road_coords road)) as Hsn.
  pose proof (snap_coords_adjacency (nodes g) (road_coords road)) as Hadj.
  destruct (snap_coords (nodes g) (road_coords road)) as [nds sn].
  cbn [fst snd] in *.
  assert (Hlink : link_segments (mkGraph nds (edges g)) road 0 sn = mkGraph nds (edges g)).
  { destruct sn as [|x [|y sn]]; [reflexivity|reflexivity|cbn [List.length] in Hsn; lia]. }
  rewrite Hlink. cbn [edges nodes]. auto.
Qed.

Lemma separated_before pre n post e :
  separated (pre ++ n :: post) -> In e pre -> ~ within n e.
Proof.
  unfold separated. induction pre as [|x pre IH]; intros Hs Hin; [contradiction|].
  cbn [app] in Hs. inversion Hs as [|? ? Hx Hrest]; subst.
  destruct Hin as [->|Hin]; [|now apply IH].
  rewrite Forall_forall in Hx. apply Hx. apply in_or_app. right. now left.
Qed.

Lemma get_or_create_node_first c pre post :
  within c c -> (forall e, In e pre -> ~ within c e) ->
  get_or_create_node c (pre ++ c :: post) = c.
Proof.
  intros Hself Hpre. induction pre as [|x pre IH]; cbn [app get_or_create_node].
  - apply Qltb_lt in Hself. now rewrite Hself.
  - destruct (Qltb _ _) eqn:E.
    + apply Qltb_lt in E. exfalso. apply (Hpre x); [now left|exact E].
    + apply IH. intros e He. apply Hpre. now right.
Qed.

(** X10.  With a distance that is below the threshold from a point to
    itself, the coordinate of a node of the built graph snaps to that very
    node and registers nothing: a road that passes exactly through an
    existing node is joined to it. *)
Theorem registered_node_snaps_to_itself roads n acc :
  (forall p, within p p) ->
  In n (dict_keys (nodes (build_graph_from roads))) ->
  snap_coord (nodes (build_graph_from roads), acc) n
    = (nodes (build_graph_from roads), acc ++ [n]).
Proof.
  intros Hself Hin.
  assert (Hsep : separated (dict_keys (nodes (build_graph_from roads))))
    by (apply build_separated; constructor).
  destruct (in_split _ _ Hin) as (pre & post & Hkeys).
  assert (Hsnap : get_or_create_node n (dict_keys (nodes (build_graph_from roads))) = n).
  { rewrite Hkeys. apply get_or_create_node_first; [apply Hself|].
    intros e He. rewrite Hkeys in Hsep. now apply (separated_before pre n post). }
  unfold snap_coord. rewrite Hsnap.
  apply dict_mem_true in Hin. now rewrite Hin.
Qed.
End BuildMore.

(** ** More about returned routes *)

Section RouteMore.
Context {env : PyEnv}.

Lemma shortest_path_shape g s e path cost :
  shortest_path g s e = Some (Some (path, cost)) ->
  exists mid, path = s :: mid ++ [e].
Proof.
  intros Hsp.
  destruct (shortest_path_found g _ _ _ _ Hsp) as (Hs & Htp & _ & Hprev).
  pose proof (dijkstra_search_inv g s e Hs) as Hinv.
  inversion Htp as [Heq|n p path' Hp Htp' Hn Hpath]; subst.
  - exfalso. apply Hprev. exact (inv_start_prev Hinv).
  - destruct (tree_path_hd _ _ _ _ Htp') as [tl ->]. now exists tl.
Qed.

Lemma path_segments_length g path : forall acc,
  List.length (fst (path_segments g path acc))
    = (List.length (fst acc) + (List.length path - 1))%nat.
Proof.
  induction path as [|a path IH]; intros acc; [cbn; lia|].
  destruct path as [|b rest]; [cbn; lia|].
  rewrite path_segments_cons.
  destruct (dict_get (edges g) (a, b)); rewrite IH; cbn [fst List.length];
    rewrite length_app; cbn [List.length]; lia.
Qed.

Lemma path_segments_coords g path : forall ls acc,
  geometry_ok g ->
  path_lengths g path = Some ls ->
  fst (path_segments g path acc) = fst acc ++ tl path.
Proof.
  induction path as [|a path IH]; intros ls acc Hgeo Hls.
  - cbn. now rewrite app_nil_r.
  - destruct path as [|b rest]; [cbn; now rewrite app_nil_r|].
    rewrite path_lengths_cons in Hls. rewrite path_segments_cons.
    destruct (dict_get (edges g) (a, b)) as [e|] eqn:He; [|discriminate].
    destruct (path_lengths g (b :: rest)) as [ls'|] eqn:El; [|discriminate].
    rewrite (IH ls' _ Hgeo eq_refl). cbn [fst tl].
    rewrite (Hgeo a b e He). cbn [nth]. now rewrite <- app_assoc.
Qed.

(** On a path made of edges no segment comes from the branch for a
    missing edge: each segment carries the id of the edge it stands for. *)
Lemma path_segments_real g path : forall ls acc,
  path_lengths g path = Some ls ->
  exists real,
    snd (path_segments g path acc) = snd acc ++ real
    /\ List.length real = (List.length path - 1)%nat
    /\ Forall (fun sg => seg_type sg = None
                         /\ exists a b e, dict_get (edges g) (a, b) = Some e
                                          /\ seg_road_id sg = edge_id e
                                          /\ seg_length sg = edge_length e) real.
Proof.
  induction path as [|a path IH]; intros ls acc Hls.
  - exists []. cbn. now rewrite app_nil_r.
  - destruct path as [|b rest].
    + exists []. cbn. now rewrite app_nil_r.
    + rewrite path_lengths_cons in Hls. rewrite path_segments_cons.
      destruct (dict_get (edges g) (a, b)) as [e|] eqn:He; [|discriminate].
      destruct (path_lengths g (b :: rest)) as [ls'|] eqn:El; [|discriminate].
      destruct (IH ls' (fst acc ++ [nth 1 (edge_geometry e) b],
                        snd acc ++ [mkSegment (edge_id e) (edge_length e) None None None])
                   eq_refl) as (real & Hsnd & Hlen & Hall).
      exists (mkSegment (edge_id e) (edge_length e) None None None :: real).
      rewrite Hsnd. cbn [snd]. split; [now rewrite <- app_assoc|]. split.
      * cbn [List.length] in *. lia.
      * constructor; [|exact Hall]. split; [reflexivity|]. exists a, b, e. auto.
Qed.

(** X11.  On a built graph the coordinate list of a returned route is the
    node path of the search, preceded by the start point unless the start
    point is the first node, and followed by the end point unless the end
    point is the last node. *)
Theorem route_line_is_node_path roads start end_ line total segs :
  dijkstra (build_graph_from roads) start end_ = Some (Some line, total, segs) ->
  exists start_node end_node path cost,
    find_nearest_node (build_graph_from roads) start = Some start_node
    /\ find_nearest_node (build_graph_from roads) end_ = Some end_node
    /\ shortest_path (build_graph_from roads) start_node end_node = Some (Some (path, cost))
    /\ line = (if eqb start start_node then [] else [start])
              ++ path
              ++ (if eqb end_node end_ then [] else [end_]).
Proof.
  intros Hd. set (g := build_graph_from roads) in *.
  destruct (dijkstra_found g _ _ _ _ _ Hd)
    as (start_node & end_node & path & cost & Hs & He & Hsp & Hrec).
  exists start_node, end_node, path, cost. repeat split; try assumption.
  destruct (shortest_path_cost g _ _ _ _ Hsp) as (ls & Hls & _).
  destruct (shortest_path_shape g _ _ _ _ Hsp) as [mid Hpath].
  assert (Hgeo : geometry_ok g).
  { intros a b e Hget. unfold g in Hget.
    destruct (build_edge_origin _ _ _ _ Hget)
      as (pre & road & post & j & u & v & _ & _ & _ & _ & _ & Hkey).
    destruct Hkey as [[Hk Hg]|[Hk [Hg _]]]; injection Hk as -> ->; exact Hg. }
  unfold reconstruct in Hrec.
  match type of Hrec with
  | context [path_segments g path ?acc] =>
      pose proof (path_segments_coords g path ls acc Hgeo Hls) as Hlc;
      destruct (path_segments g path acc) as [lc rs]
  end.
  cbn [fst] in Hlc. injection Hrec as Hline _ _. subst line lc.
  rewrite Hpath. cbn [tl].
  destruct (eqb start start_node) eqn:Es; cbn [negb app].
  - apply eqb_true in Es. subst start_node.
    assert (Hrev : rev (start :: mid ++ [end_node]) = end_node :: rev (start :: mid))
      by apply (rev_unit (start :: mid)).
    rewrite Hrev.
    destruct (eqb end_node end_); cbn [app]; rewrite ?app_nil_r, <- ?app_assoc; reflexivity.
  - assert (Hrev : rev (start :: start_node :: mid ++ [end_node])
                   = end_node :: rev (start :: start_node :: mid))
      by apply (rev_unit (start :: start_node :: mid)).
    rewrite Hrev.
    destruct (eqb end_node end_); cbn [app]; rewrite ?app_nil_r, <- ?app_assoc; reflexivity.
Qed.

(** X12.  On every graph, the segments of a returned route are an
    optional [user_to_road] segment, one segment per pair of consecutive
    path nodes carrying the id and length of an edge of the graph, and an
    optional [road_to_user] segment: the [unknown_road] branch is not
    taken. *)
Theorem route_segments_are_edges g start end_ line total segs :
  dijkstra g start end_ = Some (Some line, total, segs) ->
  exists start_node end_node path cost real,
    find_nearest_node g start = Some start_node
    /\ find_nearest_node g end_ = Some end_node
    /\ shortest_path g start_node end_node = Some (Some (path, cost))
    /\ segs =
         (if negb (eqb start start_node) && Qltb 0 (calculate_distance start start_node)
          then [mkSegment "user_to_road" (calculate_distance start start_node)
                          (Some "user_segment") (Some start) (Some start_node)]
          else [])
         ++ real
         ++ (if negb (eqb end_ end_node) && Qltb 0 (calculate_distance end_node end_)
             then [mkSegment "road_to_user" (calculate_distance end_node end_)
                             (Some "user_segment") (Some end_node) (Some end_)]
             else [])
    /\ List.length real = (List.length path - 1)%nat
    /\ Forall (fun sg => seg_type sg = None
                         /\ exists a b e, dict_get (edges g) (a, b) = Some e
                                          /\ seg_road_id sg = edge_id e
                                          /\ seg_length sg = edge_length e) real.
Proof.
  intros Hd.
  destruct (dijkstra_found g _ _ _ _ _ Hd)
    as (start_node & end_node & path & cost & Hs & He & Hsp & Hrec).
  destruct (shortest_path_cost g _ _ _ _ Hsp) as (ls & Hls & _).
  unfold reconstruct in Hrec.
  match type of Hrec with
  | context [path_segments g path ?acc] =>
      destruct (path_segments_real g path ls acc Hls) as (real & Hsnd & Hlen & Hall);
      destruct (path_segments g path acc) as [lc rs]
  end.
  cbn [snd] in Hsnd. injection Hrec as _ _ Hsegs. subst segs rs.
  exists start_node, end_node, path, cost, real.
  repeat split; try assumption.
  destruct (negb (eqb end_ end_node) && Qltb 0 (calculate_distance end_node end_)).
  - now rewrite <- app_assoc.
  - now rewrite app_nil_r.
Qed.

(** X13.  The handler answers with a route exactly when all four
    coordinates convert and [dijkstra] finds a route for them; the test
    on the length of the coordinate list never turns a found route down. *)
Theorem plan_route_found g data line total segs :
  plan_route g data = Some (RouteFound line total segs)
  <-> exists slon slat elon elat,
        float_of (start_lon data) = Some slon /\ float_of (start_lat data) = Some slat
        /\ float_of (end_lon data) = Some elon /\ float_of (end_lat data) = Some elat
        /\ dijkstra g (slon, slat) (elon, elat) = Some (Some line, total, segs).
Proof.
  unfold plan_route. split.
  - destruct (is_null (start_lon data) || is_null (start_lat data)
              || is_null (end_lon data) || is_null (end_lat data)); [discriminate|].
    unfold float_of.
    destruct (float_result (start_lon data)) as [slon|e1];
      [|destruct e1; discriminate].
    destruct (float_result (start_lat data)) as [slat|e2];
      [|destruct e2; discriminate].
    destruct (float_result (end_lon data)) as [elon|e3];
      [|destruct e3; discriminate].
    destruct (float_result (end_lat data)) as [elat|e4];
      [|destruct e4; discriminate].
    destruct (dijkstra g (slon, slat) (elon, elat)) as [[[pc td] rs]|] eqn:Ed;
      [|discriminate].
    destruct pc as [[|p [|q rest]]|]; try discriminate.
    intros [= <- <- <-]. exists slon, slat, elon, elat. repeat split; auto.
  - intros (slon & slat & elon & elat & H1 & H2 & H3 & H4 & Hd).
    rewrite (plan_route_not_null data slon slat elon elat H1 H2 H3 H4).
    apply float_of_Some in H1, H2, H3, H4.
    rewrite H1, H2, H3, H4, Hd.
    destruct (dijkstra_found g _ _ _ _ _ Hd)
      as (start_node & end_node & path & cost & _ & _ & Hsp & Hrec).
    destruct (shortest_path_shape g _ _ _ _ Hsp) as [mid Hpath].
    assert (Hlen : (2 <= List.length line)%nat).
    { unfold reconstruct in Hrec.
      match type of Hrec with
      | context [path_segments g path ?acc] =>
          pose proof (path_segments_length g path acc) as Hl;
          destruct (path_segments g path acc) as [lc rs]
      end.
      cbn [fst] in Hl. injection Hrec as Hline _ _.
      assert (Hlc : (2 <= List.length lc)%nat).
      { rewrite Hl, Hpath. cbn [List.length]. rewrite length_app. cbn [List.length].
        destruct (negb _); simpl; lia. }
      rewrite <- Hline.
      destruct (rev lc) as [|last ?]; [rewrite length_app; lia|].
      destruct (eqb last (elon, elat)); [exact Hlc|rewrite length_app; lia]. }
    destruct line as [|p [|q rest]]; cbn [List.length] in Hlen; try lia.
    reflexivity.
Qed.

(** X14.  Both loops of the search end within their bounds: the state of
    the selection loop after one round per node does not change with
    further rounds, and the walk back along the predecessor links ends
    within one step per node plus one, so that [dijkstra] returns for
    every graph and every pair of points. *)
Theorem search_loops_end g start end_ :
  (forall start_node end_node extra,
     dijkstra_loop g end_node (List.length (dict_keys (nodes g)) + extra)
                   (init_search g start_node)
     = dijkstra_search g start_node end_node)
  /\ exists r, dijkstra g start end_ = Some r.
Proof.
  split.
  - intros start_node end_node extra. unfold dijkstra_search.
    rewrite init_unvisited_length.
    apply dijkstra_loop_enough. rewrite init_unvisited_length. lia.
  - pose proof (dijkstra_returns g start end_) as Hret.
    destruct (dijkstra g start end_) as [r|]; [eauto|contradiction].
Qed.
End RouteMore.

(** ** Order of tentative distances *)

Lemma dist_le_fin x y : dist_le (Fin x) (Fin y) <-> x <= y.
Proof. unfold dist_le. cbn. apply Qltb_ge. Qed.

Lemma dist_le_inf a : dist_le a Inf.
Proof. now destruct a. Qed.

Lemma dist_le_inf_l b : dist_le Inf b -> b = Inf.
Proof. destruct b; [discriminate|reflexivity]. Qed.

Lemma dist_le_refl a : dist_le a a.
Proof. destruct a; [apply dist_le_fin, Qle_refl|reflexivity]. Qed.

Lemma dist_le_trans a b c : dist_le a b -> dist_le b c -> dist_le a c.
Proof.
  destruct a as [x|], b as [y|], c as [z|]; intros Hab Hbc;
    try reflexivity; try discriminate.
  apply dist_le_fin in Hab, Hbc. apply dist_le_fin. eapply Qle_trans; eauto.
Qed.

Lemma dist_ltb_le a b : dist_ltb a b = true -> dist_le a b.
Proof.
  destruct a as [x|], b as [y|]; intros H; try reflexivity; try discriminate.
  cbn in H. apply Qltb_lt in H. apply dist_le_fin. now apply Qlt_le_weak.
Qed.

Lemma dist_le_add_nonneg a q : 0 <= q -> dist_le a (dist_add a (Fin q)).
Proof.
  intros Hq. destruct a as [x|]; [|reflexivity]. cbn [dist_add].
  apply dist_le_fin. rewrite <- (Qplus_0_r x) at 1. now apply Qplus_le_r.
Qed.

Lemma dist_le_add a b q : dist_le a b -> dist_le (dist_add a (Fin q)) (dist_add b (Fin q)).
Proof.
  destruct a as [x|], b as [y|]; intros H; try reflexivity; try discriminate.
  cbn [dist_add]. apply dist_le_fin in H. apply dist_le_fin. now apply Qplus_le_l.
Qed.

Lemma finite_when_ltb a b : dist_ltb a b = true -> finite_when a b.
Proof. destruct a; [discriminate|discriminate]. Qed.

Lemma finite_when_nltb a b : dist_ltb a b = false -> finite_when b a.
Proof. destruct a, b; intros H; try discriminate; intros Hn; congruence. Qed.

(** ** Dijkstra search: the order in which nodes are settled *)

Section SettleFacts.
Context {env : PyEnv}.
Variable g : RoadGraph.
Variable s : Point.
Variable R : dist -> dist -> Prop.
Hypothesis R_refl : forall a, R a a.
Hypothesis R_trans : forall a b c, R a b -> R b c -> R a c.
Hypothesis R_ltb : forall a b, dist_ltb a b = true -> R a b.
Hypothesis R_nltb : forall a b, dist_ltb a b = false -> R b a.
Hypothesis R_edge : forall a k e,
  dict_get (edges g) k = Some e -> R a (dist_add a (Fin (edge_length e))).
Hypothesis R_add : forall a b q, R a b -> R (dist_add a (Fin q)) (dist_add b (Fin q)).

Lemma fold_min_least (key : Point -> dist) rest : forall x0 y,
  In y (x0 :: rest) ->
  dist_le (key (fold_left (fun best y => if dist_ltb (key y) (key best) then y else best)
                          rest x0))
          (key y).
Proof.
  induction rest as [|z rest IH]; intros x0 y Hy.
  - destruct Hy as [<-|[]]. apply dist_le_refl.
  - cbn [fold_left]. destruct (dist_ltb (key z) (key x0)) eqn:E.
    + destruct Hy as [<-|Hy].
      * eapply dist_le_trans; [apply IH; now left|]. now apply dist_ltb_le.
      * now apply IH.
    + destruct Hy as [<-|[<-|Hy]].
      * apply IH. now left.
      * eapply dist_le_trans; [apply IH; now left|]. exact E.
      * apply IH. now right.
Qed.

Lemma min_by_least key l x y :
  min_by key l = Some x -> In y l -> dist_le (key x) (key y).
Proof.
  destruct l as [|x0 rest]; [discriminate|]. unfold min_by. intros [= <-].
  apply fold_min_least.
Qed.

Lemma usable_in_keys a b e : usable g a b e -> In a (dict_keys (nodes g)).
Proof.
  intros [Hin _]. unfold adjacency, getitem in Hin.
  destruct (dict_get (nodes g) a) eqn:E; [eauto using dict_get_In|contradiction].
Qed.

Lemma settle_inv_init :
  In s (dict_keys (nodes g)) -> settle_inv R g None (init_search g s).
Proof.
  intros Hs. constructor.
  - intros n Hn. now apply init_unvisited_In in Hn.
  - intros n Hn. destruct (eq_dec n s) as [->|Hne]; [exact Hs|].
    now rewrite init_dist_other in Hn.
  - intros n Hn. left. now apply init_unvisited_In.
  - intros v n [Hv Hnv]. exfalso. apply Hnv. now apply init_unvisited_In.
  - intros v n e [Hv Hnv]. exfalso. apply Hnv. now apply init_unvisited_In.
  - discriminate.
  - intros n p Hp. rewrite init_prev in Hp. discriminate.
Qed.

Lemma popped_after_pop st current v :
  popped_node g (popped st current) v -> v = current \/ popped_node g st v.
Proof.
  intros [Hv Hnv]. destruct (eq_dec v current) as [->|Hne]; [now left|].
  right. split; [exact Hv|]. intros Hin. apply Hnv.
  cbn [popped unvisited]. now apply in_in_remove.
Qed.

Lemma settle_inv_pop st current :
  settle_inv R g None st ->
  min_by (dist_of st) (unvisited st) = Some current ->
  dist_of st current <> Inf ->
  settle_round R g current [] (popped st current).
Proof.
  intros Hinv Hmin Hd.
  pose proof (min_by_In _ _ _ Hmin) as Hcur.
  assert (Hsub : forall x, In x (unvisited (popped st current)) ->
                           In x (unvisited st) /\ x <> current).
  { intros x Hx. cbn [popped unvisited] in Hx. now apply in_remove in Hx. }
  assert (Hpc : popped_node g (popped st current) current).
  { split; [exact (si_sub Hinv _ Hcur)|]. cbn [popped unvisited]. apply remove_In. }
  split; [constructor|intros n e []].
  - intros n Hn. apply (si_sub Hinv). now apply Hsub.
  - exact (si_fin Hinv).
  - intros n Hn. destruct (si_cover Hinv n Hn) as [Hin|Hfin]; [|now right].
    destruct (eq_dec n current) as [->|Hne]; [now right|].
    left. cbn [popped unvisited]. now apply in_in_remove.
  - intros v n Hv Hn. destruct (Hsub n Hn) as [Hn' _].
    destruct (popped_after_pop _ _ _ Hv) as [->|Hv'].
    + apply R_nltb. exact (min_by_least _ _ _ _ Hmin Hn').
    + exact (si_order Hinv v n Hv' Hn').
  - intros v n e Hv Hpend Hu Hn.
    destruct (popped_after_pop _ _ _ Hv) as [->|Hv']; [congruence|].
    apply (si_relaxed Hinv v n e Hv'); [discriminate|exact Hu|exact Hn].
  - intros x [= <-]. split; [exact Hpc|]. intros v Hv.
    destruct (popped_after_pop _ _ _ Hv) as [->|Hv']; [apply R_refl|].
    exact (si_order Hinv v current Hv' Hcur).
  - exact (si_adj Hinv).
Qed.

Lemma relax_detail current st neighbor :
  (relax g current st neighbor = st
   /\ (~ In neighbor (unvisited st)
       \/ dict_get (edges g) (current, neighbor) = None
       \/ exists e, dict_get (edges g) (current, neighbor) = Some e
                    /\ dist_ltb (dist_add (dist_of st current) (Fin (edge_length e)))
                                (dist_of st neighbor) = false))
  \/ (In neighbor (unvisited st)
      /\ exists e, dict_get (edges g) (current, neighbor) = Some e
         /\ dist_ltb (dist_add (dist_of st current) (Fin (edge_length e)))
                     (dist_of st neighbor) = true
         /\ relax g current st neighbor =
              mkSearch (dict_set (distances st) neighbor
                          (dist_add (dist_of st current) (Fin (edge_length e))))
                       (dict_set (previous_nodes st) neighbor (Some current))
                       (unvisited st)).
Proof.
  unfold relax, mem. destruct (in_dec eq_dec neighbor (unvisited st)) as [Hin|Hnin];
    cbn [negb]; [|left; auto].
  destruct (dict_get (edges g) (current, neighbor)) as [e|]; [|left; auto].
  destruct (dist_ltb _ _) eqn:E.
  - right. split; [exact Hin|]. exists e. auto.
  - left. split; [reflexivity|]. right. right. exists e. auto.
Qed.

Lemma settle_round_relax current done st neighbor :
  In neighbor (adjacency (nodes g) current) ->
  settle_round R g current done st ->
  settle_round R g current (done ++ [neighbor]) (relax g current st neighbor).
Proof.
  intros Hadj [Hinv Hdone].
  destruct (si_pending Hinv current eq_refl) as [Hpc Hmax].
  destruct (relax_detail current st neighbor)
    as [[-> Hwhy]|(Hin & e & He & Hlt & ->)].
  - split; [exact Hinv|]. intros n e' Hn Hu Hnk.
    apply in_app_or in Hn. destruct Hn as [Hn|[<-|[]]]; [now apply Hdone|].
    destruct Hu as [_ Hget].
    destruct Hwhy as [Hnin|[Hnone|(e & He & Hnlt)]].
    + eapply R_trans; [apply Hmax; now split|]. eapply R_edge; eauto.
    + congruence.
    + rewrite Hget in He. injection He as <-. now apply R_nltb.
  - set (nd := dist_add (dist_of st current) (Fin (edge_length e))) in *.
    set (st' := mkSearch (dict_set (distances st) neighbor nd)
                         (dict_set (previous_nodes st) neighbor (Some current))
                         (unvisited st)).
    assert (Hdn : dist_of st' neighbor = nd).
    { unfold dist_of, st'. cbn [distances]. apply getitem_set_eq. }
    assert (Hdo : forall x, x <> neighbor -> dist_of st' x = dist_of st x).
    { intros x Hx. unfold dist_of, st'. cbn [distances].
      apply getitem_set_neq. congruence. }
    assert (Hpn : prev_of st' neighbor = Some current).
    { unfold prev_of, st'. cbn [previous_nodes]. now rewrite dict_get_set_eq. }
    assert (Hpo : forall x, x <> neighbor -> prev_of st' x = prev_of st x).
    { intros x Hx. unfold prev_of, st'. cbn [previous_nodes].
      rewrite dict_get_set_neq; [reflexivity|congruence]. }
    assert (Hpop : forall v, popped_node g st' v -> popped_node g st v /\ v <> neighbor).
    { intros v [Hv Hnv]. split; [split; assumption|]. intros ->. contradiction. }
    assert (Hcn : current <> neighbor) by (apply (Hpop current); exact Hpc).
    split; [constructor|].
    + exact (si_sub Hinv).
    + intros n Hn. destruct (eq_dec n neighbor) as [->|Hne].
      * exact (si_sub Hinv _ Hin).
      * rewrite Hdo in Hn by exact Hne. exact (si_fin Hinv _ Hn).
    + intros n Hn. destruct (eq_dec n neighbor) as [->|Hne]; [now left|].
      rewrite Hdo by exact Hne. exact (si_cover Hinv n Hn).
    + intros v n Hv Hn. destruct (Hpop v Hv) as [Hv' Hvn]. rewrite (Hdo v Hvn).
      destruct (eq_dec n neighbor) as [->|Hne].
      * rewrite Hdn. eapply R_trans; [apply Hmax; exact Hv'|]. eapply R_edge; eauto.
      * rewrite Hdo by exact Hne. exact (si_order Hinv v n Hv' Hn).
    + intros v n e' Hv Hpend Hu Hnk. destruct (Hpop v Hv) as [Hv' Hvn].
      rewrite (Hdo v Hvn).
      pose proof (si_relaxed Hinv v n e' Hv' Hpend Hu Hnk) as Hold.
      destruct (eq_dec n neighbor) as [->|Hne].
      * rewrite Hdn. eapply R_trans; [apply R_ltb; exact Hlt|exact Hold].
      * now rewrite Hdo by exact Hne.
    + intros x [= <-]. split; [exact Hpc|]. intros v Hv.
      destruct (Hpop v Hv) as [Hv' Hvn]. rewrite (Hdo v Hvn), (Hdo current Hcn).
      now apply Hmax.
    + intros n p Hp. destruct (eq_dec n neighbor) as [->|Hne].
      * rewrite Hpn in Hp. injection Hp as <-. exact Hadj.
      * rewrite Hpo in Hp by exact Hne. exact (si_adj Hinv n p Hp).
    + intros n e' Hn Hu Hnk. rewrite (Hdo current Hcn).
      destruct (eq_dec n neighbor) as [->|Hne].
      * rewrite Hdn. destruct Hu as [_ Hget]. rewrite Hget in He. injection He as <-.
        apply R_refl.
      * rewrite Hdo by exact Hne.
        apply in_app_or in Hn. destruct Hn as [Hn|[<-|[]]]; [|congruence].
        now apply Hdone.
Qed.

Lemma settle_round_fold current rest : forall done st,
  incl rest (adjacency (nodes g) current) ->
  settle_round R g current done st ->
  settle_round R g current (done ++ rest) (fold_left (relax g current) rest st).
Proof.
  induction rest as [|x rest IH]; intros done st Hincl Hst.
  - now rewrite app_nil_r.
  - cbn [fold_left]. replace (done ++ x :: rest) with ((done ++ [x]) ++ rest)
      by (now rewrite <- app_assoc).
    apply IH.
    + intros y Hy. apply Hincl. now right.
    + apply settle_round_relax; [apply Hincl; now left|exact Hst].
Qed.

Lemma settle_round_done current st :
  settle_round R g current (adjacency (nodes g) current) st ->
  settle_inv R g None st.
Proof.
  intros [Hinv Hdone]. constructor.
  - exact (si_sub Hinv).
  - exact (si_fin Hinv).
  - exact (si_cover Hinv).
  - exact (si_order Hinv).
  - intros v n e Hv _ Hu Hn. destruct (eq_dec v current) as [->|Hne].
    + apply Hdone; [apply Hu|exact Hu|exact Hn].
    + apply (si_relaxed Hinv v n e Hv); [congruence|exact Hu|exact Hn].
  - discriminate.
  - exact (si_adj Hinv).
Qed.

(** The state in which the loop is left. *)
Lemma dijkstra_loop_settled end_node fuel : forall st,
  settle_inv R g None st ->
  (List.length (unvisited st) <= fuel)%nat ->
  exists pending,
    settle_inv R g pending (dijkstra_loop g end_node fuel st)
    /\ stopped end_node pending (dijkstra_loop g end_node fuel st).
Proof.
  induction fuel as [|fuel IH]; intros st Hinv Hlen.
  - cbn [dijkstra_loop]. exists None. split; [exact Hinv|]. right.
    split; [reflexivity|].
    destruct (unvisited st); [intros n []|cbn in Hlen; lia].
  - cbn [dijkstra_loop].
    destruct (min_by (dist_of st) (unvisited st)) as [current|] eqn:Emin.
    2:{ exists None. split; [exact Hinv|]. right. split; [reflexivity|].
        destruct (unvisited st); [intros n []|discriminate]. }
    destruct (is_inf (dist_of st current)) eqn:Einf.
    { exists None. split; [exact Hinv|]. right. split; [reflexivity|].
      intros n Hn. pose proof (min_by_least _ _ _ _ Emin Hn) as Hle.
      destruct (dist_of st current); [discriminate|]. now apply dist_le_inf_l. }
    assert (Hd : dist_of st current <> Inf).
    { intros Heq. rewrite Heq in Einf. discriminate. }
    pose proof (settle_inv_pop st current Hinv Emin Hd) as Hround.
    fold (popped st current).
    destruct (eqb current end_node) eqn:Eend.
    + apply eqb_true in Eend. subst end_node.
      exists (Some current). split; [apply Hround|now left].
    + apply IH.
      * apply (settle_round_done current).
        apply (settle_round_fold current _ [] (popped st current));
          [apply incl_refl|exact Hround].
      * rewrite fold_relax_unvisited. cbn [popped unvisited].
        pose proof (remove_length_lt eq_dec (unvisited st) current (min_by_In _ _ _ Emin)).
        lia.
Qed.

(** Every walk from the start node is bounded below, at its end, by the
    tentative distances of the search. *)
Lemma walk_bound pending st c ls :
  search_inv g s st ->
  settle_inv R g pending st ->
  walk g s c ls ->
  In c (dict_keys (nodes g)) ->
  (~ In c (unvisited st) -> R (dist_of st c) (Fin (Qsum ls)))
  /\ (In c (unvisited st) ->
      exists y, (In y (unvisited st) \/ pending = Some y)
                /\ R (dist_of st y) (Fin (Qsum ls))).
Proof.
  intros Hsearch Hinv Hwalk. induction Hwalk as [|b c e ls Hwalk IH Hu]; intros Hc.
  - assert (Hs0 : R (dist_of st s) (Fin (Qsum []))).
    { rewrite (inv_start_dist Hsearch). apply R_refl. }
    split; [intros _; exact Hs0|]. intros Hin. exists s. auto.
  - pose proof (usable_in_keys _ _ _ Hu) as Hb.
    destruct (IH Hb) as [IHpop IHunv].
    assert (Hstep : forall a, R a (Fin (Qsum ls)) -> R a (Fin (Qsum (ls ++ [edge_length e])))).
    { intros a Ha. eapply R_trans; [exact Ha|].
      rewrite Qsum_snoc.
      change (Fin (Qsum ls + edge_length e))
        with (dist_add (Fin (Qsum ls)) (Fin (edge_length e))).
      destruct Hu as [_ Hget]. eapply R_edge; eauto. }
    assert (Hdown : forall y, (In y (unvisited st) \/ pending = Some y) ->
                      ~ In c (unvisited st) -> R (dist_of st c) (dist_of st y)).
    { intros y Hy Hnc. destruct Hy as [Hy|Hy].
      - apply (si_order Hinv); [now split|exact Hy].
      - destruct (si_pending Hinv y Hy) as [_ Hmax]. apply Hmax. now split. }
    destruct (in_dec eq_dec b (unvisited st)) as [Hbin|Hbnin].
    + destruct (IHunv Hbin) as (y & Hy & Hyb). split.
      * intros Hnc. eapply R_trans; [apply (Hdown y Hy Hnc)|]. now apply Hstep.
      * intros Hcin. exists y. split; [exact Hy|now apply Hstep].
    + specialize (IHpop Hbnin).
      assert (Hpend : pending = Some b \/ pending <> Some b).
      { destruct pending as [x|]; [|right; discriminate].
        destruct (eq_dec x b) as [->|Hne]; [now left|right; congruence]. }
      destruct Hpend as [Hpend|Hpend].
      * split.
        -- intros Hnc. eapply R_trans; [apply (Hdown b (or_intror Hpend) Hnc)|].
           now apply Hstep.
        -- intros Hcin. exists b. split; [now right|now apply Hstep].
      * assert (Hcb : R (dist_of st c) (Fin (Qsum (ls ++ [edge_length e])))).
        { eapply R_trans;
            [apply (si_relaxed Hinv b c e); [now split|exact Hpend|exact Hu|exact Hc]|].
          rewrite Qsum_snoc.
          change (Fin (Qsum ls + edge_length e))
            with (dist_add (Fin (Qsum ls)) (Fin (edge_length e))).
          now apply R_add. }
        split; [intros _; exact Hcb|]. intros Hcin. exists c. auto.
Qed.

(** At the end of the search the tentative distance of the end node is
    below the length of every walk to it, when no infinite distance is
    below a number. *)
Lemma search_bound end_node ls :
  (forall q, ~ R Inf (Fin q)) ->
  In s (dict_keys (nodes g)) ->
  In end_node (dict_keys (nodes g)) ->
  walk g s end_node ls ->
  R (dist_of (dijkstra_search g s end_node) end_node) (Fin (Qsum ls)).
Proof.
  intros Hno Hs He Hwalk.
  pose proof (dijkstra_search_inv g s end_node Hs) as Hsearch.
  destruct (dijkstra_loop_settled end_node
              (List.length (unvisited (init_search g s))) (init_search g s)
              (settle_inv_init Hs) (le_n _)) as (pending & Hinv & Hstop).
  fold (dijkstra_search g s end_node) in Hinv, Hstop.
  destruct (walk_bound pending _ end_node ls Hsearch Hinv Hwalk He) as [Hout Hin].
  destruct (in_dec eq_dec end_node (unvisited (dijkstra_search g s end_node)))
    as [Hunv|Hunv]; [|now apply Hout].
  exfalso. destruct (Hin Hunv) as (y & Hy & HR).
  destruct Hstop as [Hp|[Hp Hall]].
  - destruct (si_pending Hinv end_node Hp) as [[_ Hpop] _]. contradiction.
  - destruct Hy as [Hy|Hy]; [|congruence].
    rewrite (Hall y Hy) in HR. exact (Hno _ HR).
Qed.
End SettleFacts.

(** ** Dijkstra search: shortest routes and reachability *)

Section ShortestFacts.
Context {env : PyEnv}.
Variable g : RoadGraph.

Lemma tree_path_walk s st n path :
  search_inv g s st ->
  (forall n p, prev_of st n = Some p -> In n (adjacency (nodes g) p)) ->
  tree_path st s n path ->
  exists ls, path_lengths g path = Some ls /\ walk g s n ls.
Proof.
  intros Hinv Hadj. induction 1 as [|n p path Hp Htp (ls & Hls & Hw)].
  - exists []. split; [reflexivity|constructor].
  - destruct (inv_prev Hinv _ Hp) as (_ & _ & e & He & _).
    destruct (tree_path_last _ _ _ _ Htp) as [pre ->].
    exists (ls ++ [edge_length e]). split.
    + now apply path_lengths_snoc.
    + apply walk_on with (b := p); [exact Hw|]. split; [now apply Hadj|exact He].
Qed.

Lemma finite_when_settle s end_node :
  In s (dict_keys (nodes g)) ->
  exists pending,
    settle_inv finite_when g pending (dijkstra_search g s end_node).
Proof.
  intros Hs.
  destruct (dijkstra_loop_settled g finite_when) with
    (end_node := end_node) (fuel := List.length (unvisited (init_search g s)))
    (st := init_search g s) as (pending & Hinv & _).
  - intros a Ha. exact Ha.
  - intros a b c Hab Hbc Hc. auto.
  - exact finite_when_ltb.
  - exact finite_when_nltb.
  - intros a k e _. destruct a; [discriminate|]. intros H. now contradiction H.
  - now apply settle_inv_init.
  - apply le_n.
  - exists pending. exact Hinv.
Qed.

(** The node path that the search returns is a walk of the graph. *)
Lemma shortest_path_walk s end_node path cost :
  shortest_path g s end_node = Some (Some (path, cost)) ->
  exists ls, path_lengths g path = Some ls
             /\ walk g s end_node ls /\ cost = Fin (Qsum ls).
Proof.
  intros Hsp.
  destruct (shortest_path_found g _ _ _ _ Hsp) as (Hs & Htp & Hcost & _).
  pose proof (dijkstra_search_inv g s end_node Hs) as Hinv.
  destruct (finite_when_settle s end_node Hs) as (pending & Hset).
  destruct (tree_path_walk _ _ _ _ Hinv (si_adj Hset) Htp) as (ls & Hls & Hw).
  destruct (tree_path_cost g _ _ _ _ Hinv Htp) as (ls' & Hls' & Hd).
  rewrite Hls in Hls'. injection Hls' as <-.
  exists ls. repeat split; [exact Hls|exact Hw|congruence].
Qed.

Lemma shortest_path_least s end_node path cost :
  (forall k e, dict_get (edges g) k = Some e -> 0 <= edge_length e) ->
  shortest_path g s end_node = Some (Some (path, cost)) ->
  forall ls, walk g s end_node ls -> dist_le cost (Fin (Qsum ls)).
Proof.
  intros Hpos Hsp ls Hwalk.
  destruct (shortest_path_walk _ _ _ _ Hsp) as (ls0 & _ & _ & Hcost).
  destruct (shortest_path_found g _ _ _ _ Hsp) as (Hs & _ & Hd & _).
  assert (He : In end_node (dict_keys (nodes g))).
  { destruct (finite_when_settle s end_node Hs) as (pending & Hset).
    apply (si_fin Hset). rewrite <- Hd, Hcost. discriminate. }
  rewrite Hd.
  apply (search_bound g s dist_le); try assumption.
  - exact dist_le_refl.
  - exact dist_le_trans.
  - exact dist_ltb_le.
  - intros a b H. exact H.
  - intros a k e Hk. apply dist_le_add_nonneg. exact (Hpos k e Hk).
  - exact dist_le_add.
  - intros q H. apply dist_le_inf_l in H. discriminate H.
Qed.

(** X15.  With no negative edge length in the graph, the node path that
    the search returns is a walk of the graph along adjacency lists and
    stored edges, its cost is the sum of its edge lengths, and no walk
    from the start node to the end node has a smaller sum. *)
Theorem shortest_path_is_shortest s end_node path cost :
  (forall k e, dict_get (edges g) k = Some e -> 0 <= edge_length e) ->
  shortest_path g s end_node = Some (Some (path, cost)) ->
  exists ls0,
    path_lengths g path = Some ls0
    /\ walk g s end_node ls0
    /\ cost = Fin (Qsum ls0)
    /\ forall ls, walk g s end_node ls -> Qsum ls0 <= Qsum ls.
Proof.
  intros Hpos Hsp.
  destruct (shortest_path_walk _ _ _ _ Hsp) as (ls0 & Hls & Hw & Hcost).
  exists ls0. repeat split; [exact Hls|exact Hw|exact Hcost|].
  intros ls Hwalk. apply dist_le_fin. rewrite <- Hcost.
  exact (shortest_path_least _ _ _ _ Hpos Hsp ls Hwalk).
Qed.






End ShortestFacts.

(** ** Routes on a graph built from validated road records *)

Section BuiltRoutes.
Context {env : PyEnv}.

(** X17.  On a graph built from road records none of whose provided
    lengths is negative, geopy's distance being non-negative, a route
    that [dijkstra] returns goes along the node path of the search
    between the two resolved nodes: that path is a walk of the graph, the
    road cost is the sum of its edge lengths, the total is the distance
    from the start point to its node plus the road cost plus the distance
    from the end node to the end point, the returned segments carry these
    very lengths, and no walk of the graph between the two nodes has a
    smaller sum of edge lengths. *)
Theorem built_route_is_shortest roads start end_ line total segs :
  (forall p q, 0 <= calculate_distance p q) ->
  (forall road l x, In road roads -> length_m road = Some l -> In x l -> 0 <= x) ->
  dijkstra (build_graph_from roads) start end_ = Some (Some line, total, segs) ->
  exists start_node end_node path ls0,
    find_nearest_node (build_graph_from roads) start = Some start_node
    /\ find_nearest_node (build_graph_from roads) end_ = Some end_node
    /\ shortest_path (build_graph_from roads) start_node end_node
       = Some (Some (path, Fin (Qsum ls0)))
    /\ path_lengths (build_graph_from roads) path = Some ls0
    /\ walk (build_graph_from roads) start_node end_node ls0
    /\ total = Fin (calculate_distance start start_node + Qsum ls0
                    + calculate_distance end_node end_)
    /\ map seg_length segs =
         (if negb (eqb start start_node) && Qltb 0 (calculate_distance start start_node)
          then [calculate_distance start start_node] else [])
         ++ ls0
         ++ (if negb (eqb end_ end_node) && Qltb 0 (calculate_distance end_node end_)
             then [calculate_distance end_node end_] else [])
    /\ forall ls, walk (build_graph_from roads) start_node end_node ls ->
                  Qsum ls0 <= Qsum ls.
Proof.
  intros Hnn Hlens Hd.
  destruct (dijkstra_found _ _ _ _ _ _ Hd)
    as (start_node & end_node & path & cost & Hs & He & Hsp & Hrec).
  destruct (shortest_path_walk _ _ _ _ _ Hsp) as (ls0 & Hls & Hw & Hcost).
  destruct (reconstruct_lengths _ _ _ _ _ _ _ _ _ _ _ Hls Hrec) as [Htot Hsegs].
  exists start_node, end_node, path, ls0.
  split; [exact Hs|]. split; [exact He|]. split; [now rewrite <- Hcost|].
  split; [exact Hls|]. split; [exact Hw|]. split; [now rewrite Htot, Hcost|].
  split; [exact Hsegs|].
  intros ls Hwalk. apply dist_le_fin. rewrite <- Hcost.
  apply (shortest_path_least _ _ _ _ _
           (fun k e => build_edge_nonneg roads k e Hnn Hlens) Hsp ls Hwalk).
Qed.

End BuiltRoutes.


(** ** The statements at work on the grid environment *)

Import Grid.
#[local] Existing Instance grid_env.

Lemma grid_distance_nonneg (p q : Point) : 0 <= calculate_distance p q.
Proof.
  unfold calculate_distance. cbn. unfold grid_meters.
  apply Qmult_le_0_compat; [|discriminate].
  change 0 with (inject_Z 0). rewrite <- Zle_Qle. lia.
Qed.

Lemma grid_distance_self (p : Point) : calculate_distance p p == 0.
Proof.
  unfold calculate_distance. cbn. unfold grid_meters.
  rewrite !Z.sub_diag. reflexivity.
Qed.

(** C1 at work: from (0,0) to (2000,1000) in [town]. *)
Lemma dijkstra_cost_is_path_sum_witness :
  shortest_path town (0, 0)%Z (2000, 1000)%Z
    = Some (Some ([(0, 0); (1000, 0); (2000, 0); (2000, 1000)]%Z,
                  dist_of (dijkstra_search town (0, 0)%Z (2000, 1000)%Z) (2000, 1000)%Z))
  /\ exists ls mid,
       [(0, 0); (1000, 0); (2000, 0); (2000, 1000)]%Z = (0, 0)%Z :: mid ++ [(2000, 1000)%Z]
       /\ path_lengths town [(0, 0); (1000, 0); (2000, 0); (2000, 1000)]%Z = Some ls
       /\ dist_of (dijkstra_search town (0, 0)%Z (2000, 1000)%Z) (2000, 1000)%Z
          = Fin (Qsum ls).
Proof.
  assert (H : shortest_path town (0, 0)%Z (2000, 1000)%Z
    = Some (Some ([(0, 0); (1000, 0); (2000, 0); (2000, 1000)]%Z,
                  dist_of (dijkstra_search town (0, 0)%Z (2000, 1000)%Z) (2000, 1000)%Z)))
    by reflexivity.
  split; [exact H|].
  exact (dijkstra_cost_is_path_sum town (0, 0)%Z (2000, 1000)%Z _ _ H).
Defined.

(** C2 at work: a route between two points five micro-degrees off the
    road network. *)
Lemma route_total_is_segment_sum_witness :
  let line := [(0, 5); (0, 0); (1000, 0); (2000, 0); (2000, 1000); (2000, 1005)]%Z in
  let total :=
    Fin (calculate_distance (0, 5)%Z (0, 0)%Z
         + Qsum [calculate_distance (0, 0)%Z (1000, 0)%Z;
                 calculate_distance (1000, 0)%Z (2000, 0)%Z; 50]
         + calculate_distance (2000, 1000)%Z (2000, 1005)%Z) in
  let segs :=
    [mkSegment "user_to_road" (calculate_distance (0, 5)%Z (0, 0)%Z)
               (Some "user_segment") (Some (0, 5)%Z) (Some (0, 0)%Z);
     mkSegment "r1" (calculate_distance (0, 0)%Z (1000, 0)%Z) None None None;
     mkSegment "r1" (calculate_distance (1000, 0)%Z (2000, 0)%Z) None None None;
     mkSegment "r2" 50 None None None;
     mkSegment "road_to_user" (calculate_distance (2000, 1000)%Z (2000, 1005)%Z)
               (Some "user_segment") (Some (2000, 1000)%Z) (Some (2000, 1005)%Z)] in
  dijkstra town (0, 5)%Z (2000, 1005)%Z = Some (Some line, total, segs)
  /\ exists start_node end_node path cost,
       find_nearest_node town (0, 5)%Z = Some start_node
       /\ find_nearest_node town (2000, 1005)%Z = Some end_node
       /\ shortest_path town start_node end_node = Some (Some (path, Fin cost))
       /\ total = Fin (calculate_distance (0, 5)%Z start_node + cost
                       + calculate_distance end_node (2000, 1005)%Z)
       /\ calculate_distance (0, 5)%Z start_node + cost
          + calculate_distance end_node (2000, 1005)%Z
          == Qsum (map seg_length segs).
Proof.
  intros line total segs.
  assert (H : dijkstra town (0, 5)%Z (2000, 1005)%Z = Some (Some line, total, segs))
    by reflexivity.
  split; [exact H|].
  exact (route_total_is_segment_sum town (0, 5)%Z (2000, 1005)%Z line total segs
           grid_distance_nonneg grid_distance_self H).
Defined.

(** C3 as stated fails: [between_ab] is within the threshold of both
    registered nodes and nearer to [node_b], yet [get_or_create_node]
    returns [node_a], the node registered first. *)
Lemma snap_not_nearest_counterexample :
  let node_map := dict_keys (fst (snap_coords [] [node_a; node_b])) in
  node_map = [node_a; node_b]
  /\ within between_ab node_a
  /\ within between_ab node_b
  /\ get_or_create_node between_ab node_map = node_a
  /\ ~ (forall e, In e node_map -> within between_ab e ->
          calculate_distance between_ab (get_or_create_node between_ab node_map)
          <= calculate_distance between_ab e).
Proof.
  cbv zeta. split; [reflexivity|]. split; [reflexivity|]. split; [reflexivity|].
  split; [reflexivity|].
  intros Hnearest.
  specialize (Hnearest node_b (or_intror (or_introl eq_refl)) eq_refl).
  vm_compute in Hnearest. apply Hnearest. reflexivity.
Qed.

(** C3 (as amended) at work on the same input. *)
Lemma snap_coord_first_within_witness :
  (exists e, In e [node_a; node_b] /\ within between_ab e)
  /\ exists pre n post,
       [node_a; node_b] = pre ++ n :: post
       /\ within between_ab n
       /\ (forall e, In e pre -> ~ within between_ab e)
       /\ snap_coord ([(node_a, []); (node_b, [])], []) between_ab
          = ([(node_a, []); (node_b, [])], [] ++ [n]).
Proof.
  assert (Hex : exists e, In e [node_a; node_b] /\ within between_ab e).
  { exists node_a. split; [left; reflexivity|reflexivity]. }
  split; [exact Hex|].
  exact (proj1 (snap_coord_first_within [(node_a, []); (node_b, [])] [] between_ab) Hex).
Defined.

(** C4 as stated fails: the second and third vertices of [road_close] are
    0.67 m apart and end on different nodes. *)
Lemma close_coordinates_counterexample :
  road_coords road_close = [(0, 0); (6, 0); (12, 0)]%Z
  /\ within (6, 0)%Z (12, 0)%Z
  /\ snapped_of empty_graph road_close = [(0, 0); (0, 0); (12, 0)]%Z
  /\ (0, 0)%Z <> ((12, 0)%Z : Point).
Proof.
  split; [reflexivity|]. split; [reflexivity|]. split; [reflexivity|]. discriminate.
Qed.

(** C4 (as amended) at work on [town]. *)
Lemma build_snapping_consistent_witness :
  NoDup (dict_keys (nodes town))
  /\ separated (dict_keys (nodes town))
  /\ (forall road c, In road [road1; road2; road3] -> In c (road_coords road) ->
        exists n, In n (dict_keys (nodes town)) /\ (n = c \/ within c n))
  /\ (~ In (2000, 1000)%Z
           (dict_keys (fst (snap_coords (nodes (build_graph_from [road1])) [(2000, 0)%Z])))
      /\ In (2000, 1000)%Z (dict_keys (nodes town))
      /\ nth_error (snapped_of (build_graph_from [road1]) road2) 1 = Some (2000, 1000)%Z).
Proof.
  destruct (build_snapping_consistent [road1; road2; road3]) as (Hnd & Hsep & Hrep & Hnew).
  split; [exact Hnd|]. split; [exact Hsep|]. split; [exact Hrep|].
  apply (Hnew [road1] road2 [road3] [(2000, 0)%Z] (2000, 1000)%Z [] eq_refl eq_refl).
  - reflexivity.
  - intros e [<-|[<-|[<-|[]]]] Hw; vm_compute in Hw; discriminate Hw.
Defined.

(** C5 at work: both points resolve to the node (0,0), the search puts
    that node at distance 0, and [dijkstra] answers "no path". *)
Lemma same_node_no_path_witness :
  (find_nearest_node town (0, 5)%Z = Some (0, 0)%Z
   /\ find_nearest_node town (0, -3)%Z = Some (0, 0)%Z)
  /\ dist_of (dijkstra_search town (0, 0)%Z (0, 0)%Z) (0, 0)%Z = Fin 0
  /\ dijkstra town (0, 5)%Z (0, -3)%Z = Some no_route.
Proof.
  split; [split; reflexivity|].
  exact (same_node_no_path town (0, 5)%Z (0, -3)%Z (0, 0)%Z eq_refl eq_refl).
Defined.



(** C7 as stated fails: with the row without geometry first, the rebuild
    ends in the [ValueError] with an empty graph; the road of the
    following row is not in it. *)
Lemma malformed_row_counterexample :
  parse_wkt (row_wkt row_empty) = None
  /\ build_graph [row1] = Built (build_graph_from [road1])
  /\ build_graph [row_empty; row1] = RaisedValueError empty_graph
  /\ build_graph [row_empty; row1] <> build_graph [row1].
Proof.
  split; [reflexivity|]. split; [reflexivity|]. split; [reflexivity|]. discriminate.
Qed.

(** C7 (as amended) at work: the malformed row after one good row. *)
Lemma build_stops_at_malformed_row_witness :
  (build_graph [row1] = Built (build_graph_from [road1])
   /\ parse_wkt (row_wkt row_empty) = None)
  /\ build_graph ([row1] ++ row_empty :: [row2; row3])
     = RaisedValueError (build_graph_from [road1]).
Proof.
  split; [split; reflexivity|].
  exact (build_stops_at_malformed_row [row1] row_empty [row2; row3]
           (build_graph_from [road1]) eq_refl eq_refl).
Defined.

(** C8 as stated fails: the stored length -5 becomes the edge length. *)
Lemma negative_length_counterexample :
  dict_get (edges (build_graph_from [road_negative])) ((0, 0), (1000, 0))%Z
    = Some (mkEdge "r5" (-5) [(0, 0); (1000, 0)]%Z)
  /\ ~ 0 <= edge_length (mkEdge "r5" (-5) [(0, 0); (1000, 0)]%Z).
Proof.
  split; [reflexivity|]. intros Hle. vm_compute in Hle. apply Hle. reflexivity.
Qed.

(** C8 (as amended) at work: the one-way edge of [town] with its stored
    length. *)
Lemma build_edge_length_witness :
  dict_get (edges town) ((2000, 0), (2000, 1000))%Z
    = Some (mkEdge "r2" 50 [(2000, 0); (2000, 1000)]%Z)
  /\ (forall road l x, In road [road1; road2; road3] ->
        length_m road = Some l -> In x l -> 0 <= x)
  /\ 0 <= edge_length (mkEdge "r2" 50 [(2000, 0); (2000, 1000)]%Z).
Proof.
  assert (Hget : dict_get (edges town) ((2000, 0), (2000, 1000))%Z
                 = Some (mkEdge "r2" 50 [(2000, 0); (2000, 1000)]%Z)) by reflexivity.
  assert (Hlens : forall road l x, In road [road1; road2; road3] ->
                    length_m road = Some l -> In x l -> 0 <= x).
  { intros road l x Hin Hl Hx.
    destruct Hin as [<-|[<-|[<-|[]]]]; cbn [length_m road1 road2 road3] in Hl.
    - discriminate Hl.
    - injection Hl as <-. destruct Hx as [<-|[]]. unfold Qle. cbn. lia.
    - discriminate Hl. }
  split; [exact Hget|]. split; [exact Hlens|].
  exact (proj2 (build_edge_length [road1; road2; road3] _ _ _ Hget)
               grid_distance_nonneg Hlens).
Defined.

(** C9 at work on [town]. *)
Lemma build_referentially_closed_witness :
  (forall a b, In (a, b) (dict_keys (edges town)) ->
               In a (dict_keys (nodes town)) /\ In b (dict_keys (nodes town)))
  /\ (forall n, In n (dict_keys (nodes town)) ->
                exists adj, dict_get (nodes town) n = Some adj).
Proof. exact (build_referentially_closed [road1; road2; road3]). Defined.

(** C10 at work: [road_over] writes the pair of the first segment of
    [road1] again; its edge replaces the one of [road1], and the first
    node lists its neighbour twice. *)
Lemma build_last_edge_wins_witness :
  let e1 := mkEdge "r1" (calculate_distance (0, 0)%Z (1000, 0)%Z) [(0, 0); (1000, 0)]%Z in
  let e6 := mkEdge "r6" 7 [(0, 0); (1000, 0)]%Z in
  let g := build_graph_from [road1; road_over] in
  count_writes ((0, 0), (1000, 0))%Z (build_writes empty_graph [road1; road_over]) = 2%nat
  /\ In (((0, 0), (1000, 0))%Z, e1) (build_writes empty_graph [road1; road_over])
  /\ dict_get (edges g) ((0, 0), (1000, 0))%Z = Some e6
  /\ count_occ eq_dec (dict_keys (edges g)) ((0, 0), (1000, 0))%Z = 1%nat
  /\ count_occ eq_dec (adjacency (nodes g) (0, 0)%Z) (1000, 0)%Z = 2%nat.
Proof.
  cbv zeta. split; [reflexivity|]. split; [left; reflexivity|].
  pose (pre := firstn 4 (build_writes empty_graph [road1; road_over])).
  assert (Hsplit : build_writes empty_graph [road1; road_over]
                   = pre ++ (((0, 0), (1000, 0))%Z, mkEdge "r6" 7 [(0, 0); (1000, 0)]%Z) :: [])
    by reflexivity.
  destruct (build_last_edge_wins [road1; road_over] (0, 0)%Z (1000, 0)%Z _ pre [] Hsplit)
    as (Hget & Hone & Hadj).
  - intros w [].
  - split; [exact Hget|]. split; [exact Hone|]. rewrite Hadj. reflexivity.
Defined.

(** ** The further properties at work on the grid environment *)

Import GridMore.

Lemma town_lengths_nonneg :
  forall road l x, In road [road1; road2; road3] ->
    length_m road = Some l -> In x l -> 0 <= x.
Proof.
  intros road l x Hin Hl Hx.
  destruct Hin as [<-|[<-|[<-|[]]]]; cbn [length_m road1 road2 road3] in Hl.
  - discriminate Hl.
  - injection Hl as <-. destruct Hx as [<-|[]]. unfold Qle. cbn. lia.
  - discriminate Hl.
Qed.

Lemma town_nodes :
  dict_keys (nodes town)
  = [(0, 0); (1000, 0); (2000, 0); (2000, 1000);
     (1000000, 1000000); (1000000, 1001000)]%Z.
Proof. reflexivity. Qed.

Lemma town_edges_nonneg k e :
  dict_get (edges town) k = Some e -> 0 <= edge_length e.
Proof.
  exact (build_edge_nonneg [road1; road2; road3] k e
           grid_distance_nonneg town_lengths_nonneg).
Qed.

(** X2 at work: a point half a degree away from every node of [town]. *)
Lemma find_nearest_node_none_witness :
  find_nearest_node town (500000, 500000)%Z = None
  /\ forall m, In m (dict_keys (nodes town)) ->
       500 < calculate_distance (500000, 500000)%Z m.
Proof.
  assert (H : find_nearest_node town (500000, 500000)%Z = None) by reflexivity.
  split; [exact H|].
  exact (proj1 (find_nearest_node_none town (500000, 500000)%Z) H).
Defined.

(** X3 at work: the market is nearer to the origin than the school, which
    comes first in the list. *)
Lemma find_nearest_location_first_least_witness :
  find_nearest_location (0, 0)%Z places 50 = Some market
  /\ first_least (loc_distance (0, 0)%Z) (fun l => loc_distance (0, 0)%Z l <= 50)
                 places market.
Proof.
  assert (H : find_nearest_location (0, 0)%Z places 50 = Some market) by reflexivity.
  split; [exact H|].
  exact (proj1 (proj1 (find_nearest_location_first_least (0, 0)%Z places 50) market) H).
Defined.

(** X4 at work: the bounds 50 m and 500 m of [plan_route]. *)
Lemma find_nearest_location_widen_witness :
  50 <= 500
  /\ find_nearest_location (0, 0)%Z places 50 = Some market
  /\ find_nearest_location (0, 0)%Z places 500 = Some market.
Proof.
  assert (Hle : 50 <= 500) by (unfold Qle; cbn; lia).
  assert (H : find_nearest_location (0, 0)%Z places 50 = Some market) by reflexivity.
  split; [exact Hle|]. split; [exact H|].
  exact (find_nearest_location_widen (0, 0)%Z places 50 500 market Hle H).
Defined.

(** X5 at work: the second length of a road with three vertices. *)
Lemma compute_segment_lengths_entries_witness :
  nth_error (compute_segment_lengths [(0, 0); (1000, 0); (2000, 0)]%Z) 1
    = Some (calculate_distance (1000, 0)%Z (2000, 0)%Z).
Proof.
  exact (proj2 (compute_segment_lengths_entries [(0, 0); (1000, 0); (2000, 0)]%Z)
               1%nat (1000, 0)%Z (2000, 0)%Z eq_refl eq_refl).
Defined.

(** X6 at work: the second vertex of [road_measured] snaps to the first,
    and the edge from the first node to the last keeps the distance
    between the second and the third raw coordinate. *)
Lemma build_lengths_from_raw_coordinates_witness :
  let e := mkEdge "r7" (calculate_distance (5, 0)%Z (1000, 0)%Z) [(0, 0); (1000, 0)]%Z in
  (forall road, In road [road_measured] ->
     length_m road = Some (compute_segment_lengths (road_coords road)))
  /\ dict_get (edges (build_graph_from [road_measured])) ((0, 0), (1000, 0))%Z = Some e
  /\ exists road i p q,
       In road [road_measured]
       /\ edge_id e = road_id road
       /\ nth_error (road_coords road) i = Some p
       /\ nth_error (road_coords road) (S i) = Some q
       /\ edge_length e = calculate_distance p q.
Proof.
  intros e.
  assert (Hl : forall road, In road [road_measured] ->
                 length_m road = Some (compute_segment_lengths (road_coords road))).
  { intros road [<-|[]]. reflexivity. }
  assert (Hget : dict_get (edges (build_graph_from [road_measured])) ((0, 0), (1000, 0))%Z
                 = Some e) by reflexivity.
  split; [exact Hl|]. split; [exact Hget|].
  exact (build_lengths_from_raw_coordinates [road_measured] (0, 0)%Z (1000, 0)%Z e Hl Hget).
Defined.

(** X7 at work on the first segment of [road1] in [town]. *)
Lemma build_adjacency_matches_edges_witness :
  (In (1000, 0)%Z (adjacency (nodes town) (0, 0)%Z)
   <-> In ((0, 0), (1000, 0))%Z (dict_keys (edges town)))
  /\ (forall e, dict_get (edges town) ((0, 0), (1000, 0))%Z = Some e ->
                edge_geometry e = [(0, 0); (1000, 0)]%Z).
Proof.
  exact (build_adjacency_matches_edges [road1; road2; road3] (0, 0)%Z (1000, 0)%Z).
Defined.

(** X8 at work: the two two-way roads of [town]. *)
Lemma build_two_way_mirrored_witness :
  (forall road, In road [road1; road3] -> is_oneway road = false)
  /\ exists e', dict_get (edges (build_graph_from [road1; road3])) ((1000, 0), (0, 0))%Z
                  = Some e'
                /\ edge_id e' = "r1"
                /\ edge_length e' = calculate_distance (0, 0)%Z (1000, 0)%Z.
Proof.
  assert (Hall : forall road, In road [road1; road3] -> is_oneway road = false).
  { intros road [<-|[<-|[]]]; reflexivity. }
  split; [exact Hall|].
  exact (build_two_way_mirrored [road1; road3] (0, 0)%Z (1000, 0)%Z
           (mkEdge "r1" (calculate_distance (0, 0)%Z (1000, 0)%Z) [(0, 0); (1000, 0)]%Z)
           Hall eq_refl).
Defined.

(** X9 at work: a road with one vertex added to [town]. *)
Lemma add_road_short_witness :
  (List.length (road_coords road_point) < 2)%nat
  /\ edges (add_road town road_point) = edges town
  /\ (forall u, adjacency (nodes (add_road town road_point)) u = adjacency (nodes town) u)
  /\ nodes (add_road town road_point)
     = fst (snap_coords (nodes town) (road_coords road_point)).
Proof.
  assert (H : (List.length (road_coords road_point) < 2)%nat) by (cbn; lia).
  split; [exact H|exact (add_road_short town road_point H)].
Defined.

(** X10 at work: the middle node of [road1]. *)
Lemma registered_node_snaps_to_itself_witness :
  (forall p : Point, within p p)
  /\ snap_coord (nodes town, []) (1000, 0)%Z = (nodes town, [(1000, 0)%Z]).
Proof.
  assert (Hself : forall p : Point, within p p).
  { intros p. unfold within. rewrite grid_distance_self. reflexivity. }
  assert (Hin : In (1000, 0)%Z (dict_keys (nodes town))).
  { rewrite town_nodes. right. left. reflexivity. }
  split; [exact Hself|].
  exact (registered_node_snaps_to_itself [road1; road2; road3] (1000, 0)%Z [] Hself Hin).
Defined.

(** X11 at work on the route of [town]. *)
Lemma route_line_is_node_path_witness :
  dijkstra town (0, 5)%Z (2000, 1005)%Z = Some (Some route_line, route_total, route_segs)
  /\ exists start_node end_node path cost,
       find_nearest_node town (0, 5)%Z = Some start_node
       /\ find_nearest_node town (2000, 1005)%Z = Some end_node
       /\ shortest_path town start_node end_node = Some (Some (path, cost))
       /\ route_line = (if eqb (0, 5)%Z start_node then [] else [(0, 5)%Z])
                       ++ path
                       ++ (if eqb end_node (2000, 1005)%Z then [] else [(2000, 1005)%Z]).
Proof.
  assert (H : dijkstra town (0, 5)%Z (2000, 1005)%Z
              = Some (Some route_line, route_total, route_segs)) by reflexivity.
  split; [exact H|].
  exact (route_line_is_node_path [road1; road2; road3] (0, 5)%Z (2000, 1005)%Z
           route_line route_total route_segs H).
Defined.

(** X12 at work on the route of [town]. *)
Lemma route_segments_are_edges_witness :
  dijkstra town (0, 5)%Z (2000, 1005)%Z = Some (Some route_line, route_total, route_segs)
  /\ exists start_node end_node path cost real,
       find_nearest_node town (0, 5)%Z = Some start_node
       /\ find_nearest_node town (2000, 1005)%Z = Some end_node
       /\ shortest_path town start_node end_node = Some (Some (path, cost))
       /\ route_segs =
            (if negb (eqb (0, 5)%Z start_node)
                && Qltb 0 (calculate_distance (0, 5)%Z start_node)
             then [mkSegment "user_to_road" (calculate_distance (0, 5)%Z start_node)
                             (Some "user_segment") (Some (0, 5)%Z) (Some start_node)]
             else [])
            ++ real
            ++ (if negb (eqb (2000, 1005)%Z end_node)
                   && Qltb 0 (calculate_distance end_node (2000, 1005)%Z)
                then [mkSegment "road_to_user" (calculate_distance end_node (2000, 1005)%Z)
                                (Some "user_segment") (Some end_node)
                                (Some (2000, 1005)%Z)]
                else [])
       /\ List.length real = (List.length path - 1)%nat
       /\ Forall (fun sg =>
                    seg_type sg = None
                    /\ exists a b e, dict_get (edges town) (a, b) = Some e
                                     /\ seg_road_id sg = edge_id e
                                     /\ seg_length sg = edge_length e) real.
Proof.
  assert (H : dijkstra town (0, 5)%Z (2000, 1005)%Z
              = Some (Some route_line, route_total, route_segs)) by reflexivity.
  split; [exact H|].
  exact (route_segments_are_edges town (0, 5)%Z (2000, 1005)%Z
           route_line route_total route_segs H).
Defined.

(** X15 at work: the route from (0,0) to (2000,1000) in [town], whose
    edge lengths are not negative. *)
Lemma shortest_path_is_shortest_witness :
  let path := [(0, 0); (1000, 0); (2000, 0); (2000, 1000)]%Z in
  (forall k e, dict_get (edges town) k = Some e -> 0 <= edge_length e)
  /\ shortest_path town (0, 0)%Z (2000, 1000)%Z = Some (Some (path, Fin route_cost))
  /\ exists ls0,
       path_lengths town path = Some ls0
       /\ walk town (0, 0)%Z (2000, 1000)%Z ls0
       /\ Fin route_cost = Fin (Qsum ls0)
       /\ forall ls, walk town (0, 0)%Z (2000, 1000)%Z ls -> Qsum ls0 <= Qsum ls.
Proof.
  intros path.
  assert (H : shortest_path town (0, 0)%Z (2000, 1000)%Z
              = Some (Some (path, Fin route_cost))) by reflexivity.
  split; [exact town_edges_nonneg|]. split; [exact H|].
  exact (shortest_path_is_shortest town (0, 0)%Z (2000, 1000)%Z path (Fin route_cost)
           town_edges_nonneg H).
Defined.


(** X17 at work on the route of [town]. *)
Lemma built_route_is_shortest_witness :
  (forall p q : Point, 0 <= calculate_distance p q)
  /\ (forall road l x, In road [road1; road2; road3] ->
        length_m road = Some l -> In x l -> 0 <= x)
  /\ dijkstra town (0, 5)%Z (2000, 1005)%Z = Some (Some route_line, route_total, route_segs)
  /\ exists start_node end_node path ls0,
       find_nearest_node town (0, 5)%Z = Some start_node
       /\ find_nearest_node town (2000, 1005)%Z = Some end_node
       /\ shortest_path town start_node end_node = Some (Some (path, Fin (Qsum ls0)))
       /\ path_lengths town path = Some ls0
       /\ walk town start_node end_node ls0
       /\ route_total = Fin (calculate_distance (0, 5)%Z start_node + Qsum ls0
                             + calculate_distance end_node (2000, 1005)%Z)
       /\ map seg_length route_segs =
            (if negb (eqb (0, 5)%Z start_node)
                && Qltb 0 (calculate_distance (0, 5)%Z start_node)
             then [calculate_distance (0, 5)%Z start_node] else [])
            ++ ls0
            ++ (if negb (eqb (2000, 1005)%Z end_node)
                   && Qltb 0 (calculate_distance end_node (2000, 1005)%Z)
                then [calculate_distance end_node (2000, 1005)%Z] else [])
       /\ forall ls, walk town start_node end_node ls -> Qsum ls0 <= Qsum ls.
Proof.
  assert (H : dijkstra town (0, 5)%Z (2000, 1005)%Z
              = Some (Some route_line, route_total, route_segs)) by reflexivity.
  split; [exact grid_distance_nonneg|]. split; [exact town_lengths_nonneg|].
  split; [exact H|].
  exact (built_route_is_shortest [road1; road2; road3] (0, 5)%Z (2000, 1005)%Z
           route_line route_total route_segs
           grid_distance_nonneg town_lengths_nonneg H).
Defined.

